(** * Meta-Hybrid Mount: a shallow embedding of the planner, executor,
    state store, Ratoon/Granary, overlay and magic-mount engines.

    Paths are lists of components ([PathBuf::join] appends one).  File
    system queries the code makes ([Path::exists], [is_dir], [read_dir],
    ...) are fields of small environment records, so that each theorem
    quantifies over every file system, and a witness picks a concrete one. *)

From Stdlib Require Import Lia Ascii.
From stdpp Require Import base list gmap strings sorting pretty.



(** ** Shared helpers *)

Definition path := list string.

(** [PathBuf::join] with one relative component. *)
Definition join (p : path) (s : string) : path := (p ++ [s])%list.

(** [Path::file_name]: the last component. *)
Definition file_name (p : path) : option string := last p.

(** [Vec::dedup]: drop consecutive duplicates. *)
Fixpoint dedup {A} `{EqDecision A} (l : list A) : list A :=
  match l with
  | x :: ((y :: _) as tl) => if decide (x = y) then dedup tl else x :: dedup tl
  | _ => l
  end.

(** [Vec<String>::sort]: the byte-wise order of [String], sorted by a
    (stable) merge sort. *)
Definition sort_strings (l : list string) : list string := merge_sort String.le l.

(** [Ord for Path]: component-wise lexicographic order. *)
Fixpoint path_leb (p q : path) : bool :=
  match p, q with
  | [], _ => true
  | _ :: _, [] => false
  | a :: p', b :: q' =>
      if String.eqb a b then path_leb p' q' else String.leb a b
  end.

Definition path_le (p q : path) : Prop := path_leb p q = true.
#[export] Instance path_le_dec : RelDecision path_le.
Proof. intros p q. unfold path_le. apply _. Defined.

Definition sort_paths (l : list path) : list path := merge_sort path_le l.

Lemma dedup_elem_of {A} `{EqDecision A} (l : list A) x :
  x ∈ dedup l ↔ x ∈ l.
Proof.
  induction l as [|a l IH]; [done|].
  destruct l as [|b l']; [done|].
  change (dedup (a :: b :: l')) with
    (if decide (a = b) then dedup (b :: l') else a :: dedup (b :: l')).
  case_decide; subst.
  - rewrite IH. set_solver.
  - rewrite elem_of_cons, IH. symmetry. apply elem_of_cons.
Qed.

Lemma dedup_StronglySorted {A} `{EqDecision A} (R : relation A) (l : list A) :
  StronglySorted R l → StronglySorted R (dedup l).
Proof.
  induction l as [|a l IH]; intros Hs; [done|].
  destruct l as [|b l']; [done|].
  change (dedup (a :: b :: l')) with
    (if decide (a = b) then dedup (b :: l') else a :: dedup (b :: l')).
  apply StronglySorted_inv in Hs as [Hs Hall].
  case_decide; subst.
  - by apply IH.
  - constructor; [by apply IH|].
    apply Forall_forall. intros y Hy.
    rewrite Forall_forall in Hall. apply Hall.
    by apply (dedup_elem_of (b :: l')).
Qed.

(** A strongly sorted list for an antisymmetric order has no duplicates once
    consecutive duplicates are gone. *)
Lemma dedup_NoDup {A} `{EqDecision A} (R : relation A) `{!AntiSymm (=) R}
  (l : list A) : StronglySorted R l → NoDup (dedup l).
Proof.
  induction l as [|a l IH]; intros Hs; [constructor|].
  destruct l as [|b l']; [by constructor; [set_solver|constructor]|].
  change (dedup (a :: b :: l')) with
    (if decide (a = b) then dedup (b :: l') else a :: dedup (b :: l')).
  apply StronglySorted_inv in Hs as [Hs Hall].
  case_decide; subst.
  - by apply IH.
  - constructor; [|by apply IH].
    rewrite dedup_elem_of. intros Hin.
    apply elem_of_cons in Hin as [->|Hin]; [done|].
    apply StronglySorted_inv in Hs as [_ Hall'].
    rewrite Forall_forall in Hall, Hall'.
    assert (R a b) by (apply Hall; by left).
    assert (R b a) by (by apply Hall').
    assert (a = b) by (by apply (anti_symm R)). done.
Qed.

Lemma sort_strings_elem_of l x : x ∈ sort_strings l ↔ x ∈ l.
Proof. unfold sort_strings. by rewrite merge_sort_Permutation. Qed.

Lemma sort_paths_elem_of l x : x ∈ sort_paths l ↔ x ∈ l.
Proof. unfold sort_paths. by rewrite merge_sort_Permutation. Qed.

Lemma sort_strings_sorted l : StronglySorted String.le (sort_strings l).
Proof. unfold sort_strings. apply StronglySorted_merge_sort; apply _. Qed.

(** ** Inventory: [ModuleRules::load] (src/core/inventory.rs) *)
Module Inventory.

Inductive MountMode := Overlay | HymoFs | Magic | Ignore.

#[export] Instance MountMode_eq_dec : EqDecision MountMode.
Proof. solve_decision. Defined.

(** [impl Default for MountMode]. *)
Definition MountMode_default : MountMode := Overlay.

Record ModuleRules := {
  default_mode : MountMode;
  paths : gmap string MountMode;
}.

(** [#[derive(Default)]]. *)
Definition ModuleRules_default : ModuleRules :=
  {| default_mode := MountMode_default; paths := ∅ |}.

(** A JSON object as serde sees it when deserialising [ModuleRules]: each
    field is present or absent. *)
Record RulesJson := {
  json_default_mode : option MountMode;
  json_paths : option (gmap string MountMode);
}.

(** [#[serde(default)]] on both fields: an absent field takes [Default]. *)
Definition deserialize (j : RulesJson) : ModuleRules :=
  {| default_mode := default MountMode_default (json_default_mode j);
     paths := default ∅ (json_paths j) |}.

(** The files [load] reads and the JSON parser it calls. *)
Record RulesEnv := {
  read_to_string : path -> option string;          (* fs::read_to_string *)
  from_str : string -> option RulesJson;            (* serde_json::from_str *)
}.

(** [HashMap::extend]: insert every entry of [u] into [m]. *)
Definition hashmap_extend (m u : gmap string MountMode) : gmap string MountMode :=
  map_fold (fun k v acc => <[k:=v]> acc) m u.

Definition internal_config (module_dir : path) : path :=
  join module_dir "hybrid_rules.json".

Definition user_rules_dir : path := ["data"; "adb"; "meta-hybrid"; "rules"].

Definition user_config (module_id : string) : path :=
  join user_rules_dir (module_id ++ ".json").

(** The first half of [load]: the module-internal rules file. *)
Definition load_internal (env : RulesEnv) (module_dir : path) : ModuleRules :=
  match read_to_string env (internal_config module_dir) with
  | Some content =>
      match from_str env content with
      | Some r => deserialize r
      | None => ModuleRules_default
      end
  | None => ModuleRules_default
  end.

Definition load (env : RulesEnv) (module_dir : path) (module_id : string)
  : ModuleRules :=
  let rules := load_internal env module_dir in
  match read_to_string env (user_config module_id) with
  | Some content =>
      match from_str env content with
      | Some j =>
          let user_rules := deserialize j in
          {| default_mode := default_mode user_rules;
             paths := hashmap_extend (paths rules) (paths user_rules) |}
      | None => rules
      end
  | None => rules
  end.

Lemma hashmap_extend_lookup (m u : gmap string MountMode) k :
  hashmap_extend m u !! k =
    match u !! k with Some v => Some v | None => m !! k end.
Proof.
  unfold hashmap_extend. revert m.
  induction u as [|i x u Hi IH] using map_ind; intros m.
  - rewrite map_fold_empty. by rewrite lookup_empty.
  - rewrite map_fold_insert_L; [|intros; by apply insert_insert_ne|done].
    destruct (decide (i = k)) as [->|Hne].
    + by rewrite !lookup_insert_eq.
    + rewrite !lookup_insert_ne by done. apply IH.
Qed.

(** [ModuleRules::get_mode]: the path's own entry, else the default. *)
Definition get_mode (r : ModuleRules) (relative_path : string) : MountMode :=
  match paths r !! relative_path with
  | Some mode => mode
  | None => default_mode r
  end.

(** [inventory::Module]. *)
Record Module := {
  id : string;
  source_path : path;
  rules : ModuleRules;
}.

(** Modelled from the spec: [defs::DISABLE_FILE_NAME], [REMOVE_FILE_NAME]
    and [SKIP_MOUNT_FILE_NAME] (defs.rs is not among the sources); the
    spec names the markers [disable], [remove] and [skipmount]. *)
Definition DISABLE_FILE_NAME : string := "disable".
Definition REMOVE_FILE_NAME : string := "remove".
Definition SKIP_MOUNT_FILE_NAME : string := "skipmount".

(** The file system queries of [scan]. *)
Record ScanFs := {
  scan_exists : path -> bool;                   (* Path::exists *)
  scan_is_dir : path -> bool;                   (* Path::is_dir *)
  scan_read_dir : path -> option (list string); (* read_dir, None on any error *)
}.

(** The [filter_map] closure of [scan], for the entry named [nm]. *)
Definition scan_entry (fs : ScanFs) (renv : RulesEnv) (source_dir : path)
  (nm : string) : option Module :=
  let p := join source_dir nm in
  if negb (scan_is_dir fs p) then None
  else if String.eqb nm "meta-hybrid" || String.eqb nm "lost+found" || String.eqb nm ".git"
  then None
  else if scan_exists fs (join p DISABLE_FILE_NAME) || scan_exists fs (join p REMOVE_FILE_NAME)
          || scan_exists fs (join p SKIP_MOUNT_FILE_NAME)
  then None
  else Some {| id := nm; source_path := p; rules := load renv p nm |}.

(** [modules.sort_by(|a, b| b.id.cmp(&a.id))]. *)
Definition id_desc (a b : Module) : Prop := String.le (id b) (id a).
#[export] Instance id_desc_dec : RelDecision id_desc.
Proof. intros a b. unfold id_desc. apply _. Defined.

(** [scan]: [None] for [Err]. *)
Definition scan (fs : ScanFs) (renv : RulesEnv) (source_dir : path)
  : option (list Module) :=
  if negb (scan_exists fs source_dir) then Some []
  else match scan_read_dir fs source_dir with
       | None => None
       | Some names => Some (merge_sort id_desc (omap (scan_entry fs renv source_dir) names))
       end.

End Inventory.

(** ** Planner: [generate] (src/core/planner.rs) *)
Module Planner.

(** The module record as [generate] reads it: [module.id],
    [module.source_path] and the mode string [module.mode] (one of
    "auto", "magic", "ignore", the strings of [MountMode]). *)
Record Module := {
  id : string;
  source_path : path;
  mode : string;
}.

(** The file system queries of the planner. *)
Record PlanFs := {
  exists_ : path -> bool;                 (* Path::exists *)
  is_dir : path -> bool;                  (* Path::is_dir *)
  is_symlink : path -> bool;              (* Path::is_symlink *)
  read_dir : path -> option (list string);(* fs::read_dir, None on error *)
  canonicalize : path -> option path;     (* Path::canonicalize *)
}.

(** Modelled from the spec: [defs::BUILTIN_PARTITIONS] (defs.rs is not among
    the sources); section 4.4 and the glossary list these five. *)
Definition BUILTIN_PARTITIONS : list string :=
  ["system"; "vendor"; "system_ext"; "product"; "odm"].

Record OverlayOperation := {
  partition_name : string;
  target : path;
  lowerdirs : list path;
}.

Record MountPlan := {
  overlay_ops : list OverlayOperation;
  magic_module_paths : list path;
  overlay_module_ids : list string;
  magic_module_ids : list string;
}.

Definition has_files (fs : PlanFs) (p : path) : bool :=
  match read_dir fs p with Some (_ :: _) => true | _ => false end.

Definition has_meaningful_content (fs : PlanFs) (base : path)
  (partitions : list string) : bool :=
  existsb (fun part => let p := join base part in exists_ fs p && has_files fs p)
    partitions.

(** [HashSet::insert]. *)
Definition set_insert {A} `{EqDecision A} (x : A) (s : list A) : list A :=
  if decide (x ∈ s) then s else s ++ [x].

(** The loop state of [generate]. *)
Record GenState := {
  partition_layers : gmap string (list path);
  magic_paths : list path;
  overlay_ids : list string;
  magic_ids : list string;
}.

(** [partition_layers.entry(part).or_default().push(part_path)]. *)
Definition push_layer (pl : gmap string (list path)) (part : string)
  (p : path) : gmap string (list path) :=
  <[part := default [] (pl !! part) ++ [p]]> pl.

(** The inner loop over the target partitions of one overlay module:
    the new layer map and [participates_in_overlay]. *)
Fixpoint collect_layers (fs : PlanFs) (content_path : path)
  (parts : list string) (pl : gmap string (list path)) (participates : bool)
  : gmap string (list path) * bool :=
  match parts with
  | [] => (pl, participates)
  | part :: rest =>
      let part_path := join content_path part in
      if is_dir fs part_path && has_files fs part_path
      then collect_layers fs content_path rest (push_layer pl part part_path) true
      else collect_layers fs content_path rest pl participates
  end.

(** One iteration of [for module in modules]. *)
Definition plan_module (fs : PlanFs) (storage_root : path)
  (target_partitions : list string) (st : GenState) (m : Module) : GenState :=
  if String.eqb (mode m) "magic" then
    let content_path := source_path m in
    if has_meaningful_content fs content_path target_partitions then
      {| partition_layers := partition_layers st;
         magic_paths := set_insert content_path (magic_paths st);
         overlay_ids := overlay_ids st;
         magic_ids := set_insert (id m) (magic_ids st) |}
    else st
  else
    let content_path := join storage_root (id m) in
    if negb (exists_ fs content_path) then st
    else
      let '(pl, participates) :=
        collect_layers fs content_path target_partitions (partition_layers st) false in
      {| partition_layers := pl;
         magic_paths := magic_paths st;
         overlay_ids := if participates then set_insert (id m) (overlay_ids st)
                        else overlay_ids st;
         magic_ids := magic_ids st |}.

(** The second loop: one [OverlayOperation] per partition whose target
    resolves to a directory. *)
Definition make_op (fs : PlanFs) (entry : string * list path)
  : option OverlayOperation :=
  let '(part, layers) := entry in
  let initial_target_path : path := [part] in
  if is_symlink fs initial_target_path || exists_ fs initial_target_path then
    match canonicalize fs initial_target_path with
    | Some resolved =>
        if is_dir fs resolved
        then Some {| partition_name := part; target := resolved; lowerdirs := layers |}
        else None
    | None => None
    end
  else None.

Definition generate (fs : PlanFs) (config_partitions : list string)
  (modules : list Module) (storage_root : path) : MountPlan :=
  let target_partitions := BUILTIN_PARTITIONS ++ config_partitions in
  let st := foldl (plan_module fs storage_root target_partitions)
              {| partition_layers := ∅; magic_paths := []; overlay_ids := [];
                 magic_ids := [] |} modules in
  {| overlay_ops := omap (make_op fs) (map_to_list (partition_layers st));
     magic_module_paths := magic_paths st;
     overlay_module_ids := sort_strings (overlay_ids st);
     magic_module_ids := sort_strings (magic_ids st) |}.

End Planner.

(** ** Executor: [execute] (src/executor.rs, over the plan of src/planner.rs) *)
Module Executor.

(** [planner::OverlayOperation] of src/planner.rs: layers are module
    directories in the working area, so [extract_id] is their file name. *)
Record OverlayOperation := {
  target : path;
  layers : list path;
}.

Record MountPlan := {
  overlay_ops : list OverlayOperation;
  magic_module_paths : list path;
  overlay_module_ids : list string;
  magic_module_ids : list string;
}.

(** The outcomes of the calls [execute] makes. *)
Record ExecEnv := {
  mount_overlay_ok : path -> list path -> bool;   (* overlay_mount::mount_overlay *)
  config_tempdir : option path;                   (* config.tempdir *)
  select_temp_dir : option path;                  (* utils::select_temp_dir *)
  ensure_temp_dir_ok : path -> bool;              (* utils::ensure_temp_dir *)
  magic_mount_ok : path -> list path -> bool;     (* magic_mount::mount_partitions *)
}.

Record ExecutionResult := {
  res_overlay_module_ids : list string;
  res_magic_module_ids : list string;
}.

(** The result of [execute] ([None] for [Err]) together with the module
    list the magic-mount engine was called with, if it was called. *)
Record ExecOutcome := {
  result : option ExecutionResult;
  magic_call : option (list path);
}.

Definition extract_id (p : path) : option string := file_name p.

(** Phase A: one overlay operation; on failure its layers go to the magic
    queue and their ids to [fallback_ids]. *)
Definition phase_a_step (env : ExecEnv) (acc : list path * list string)
  (op : OverlayOperation) : list path * list string :=
  let '(magic_queue, fallback_ids) := acc in
  if mount_overlay_ok env (target op) (layers op) then acc
  else (magic_queue ++ layers op, fallback_ids ++ omap extract_id (layers op)).

(** The temporary directory of phase B: [config.tempdir], else
    [utils::select_temp_dir()] ([None] for its [Err]). *)
Definition chosen_tempdir (env : ExecEnv) : option path :=
  match config_tempdir env with
  | Some t => Some t
  | None => select_temp_dir env
  end.

Definition execute (env : ExecEnv) (plan : MountPlan) : ExecOutcome :=
  let '(magic_queue, fallback_ids) :=
    foldl (phase_a_step env) (magic_module_paths plan, []) (overlay_ops plan) in
  let final_overlay_ids :=
    match fallback_ids with
    | [] => overlay_module_ids plan
    | _ => filter (fun id => id ∉ fallback_ids) (overlay_module_ids plan)
    end in
  let finish final_magic_ids :=
    Some {| res_overlay_module_ids := dedup (sort_strings final_overlay_ids);
            res_magic_module_ids := dedup (sort_strings final_magic_ids) |} in
  match magic_queue with
  | [] => {| result := finish []; magic_call := None |}
  | _ =>
      match chosen_tempdir env with
      | None => {| result := None; magic_call := None |}
      | Some tempdir =>
          let queue := dedup (sort_paths magic_queue) in
          let final_magic_ids := omap extract_id queue in
          if ensure_temp_dir_ok env tempdir then
            if magic_mount_ok env tempdir queue
            then {| result := finish final_magic_ids; magic_call := Some queue |}
            else {| result := finish []; magic_call := Some queue |}
          else {| result := None; magic_call := None |}
      end
  end.

End Executor.

(** ** State store: [RuntimeState::save] (src/core/state.rs) *)
Module StateStore.

(** The file-system operations a writer performs, one system call each. *)
Inductive FileOp :=
| Create (p : path)                  (* open with O_CREAT | O_TRUNC *)
| WriteChunk (p : path) (s : string) (* one write(2) appending [s] *)
| Rename (src dst : path).

Definition Files := gmap path string.

Definition apply_op (fs : Files) (op : FileOp) : Files :=
  match op with
  | Create p => <[p := ""]> fs
  | WriteChunk p s => <[p := default "" (fs !! p) +:+ s]> fs
  | Rename src dst =>
      match fs !! src with
      | Some c => <[dst := c]> (delete src fs)
      | None => fs
      end
  end.

(** [std::fs::write(path, contents)]: [File::create] then [write_all],
    which issues one [write] per chunk the kernel accepts; [chunks] is that
    split of [contents]. *)
Definition fs_write (p : path) (chunks : list string) : list FileOp :=
  Create p :: map (WriteChunk p) chunks.

(** [save]: [fs::write(defs::STATE_FILE, json)], [json] being
    [serde_json::to_string_pretty(self)] cut into the chunks written. *)
Definition save (state_file : path) (json_chunks : list string) : list FileOp :=
  fs_write state_file json_chunks.

(** Every file state a concurrent reader can observe while the operations
    run: the initial one and the one after each operation. *)
Fixpoint observable (fs : Files) (ops : list FileOp) : list Files :=
  fs :: match ops with
        | [] => []
        | op :: rest => observable (apply_op fs op) rest
        end.

End StateStore.

(** ** Ratoon and Granary (src/core/granary.rs) *)
Module Granary.

(** The configuration as [Config::save_to_file] writes it. *)
Definition Config := string.

Record Silo := {
  id : string;
  timestamp : N;
  label : string;
  reason : string;
  config_snapshot : Config;
}.

(** What the counter file holds, as [trim().parse::<u8>()] sees it: the
    decimal text of a number, or anything else. *)
Inductive CounterText := Num (n : nat) | Garbage.

(** A directory entry of [defs::MODULES_DIR]: a module directory (with or
    without a [disable] file in it) or some other file. *)
Inductive ModEntry := ModDir (has_disable : bool) | OtherFile.

(** A file-system entry as [fs::read_to_string] and
    [serde_json::from_str::<Silo>] see it: a file whose text parses as a
    silo ([GFile (Some s)]) or does not ([GFile None]), a file that cannot
    be read as text ([GUnreadable]: not UTF-8, no permission), or a
    directory. *)
Inductive GEntry := GFile (parsed : option Silo) | GUnreadable | GDir.

(** The files the Ratoon and Granary code touch.  The file system has no
    symbolic links on the paths these functions resolve. *)
Record GranaryFs := {
  counter : option CounterText;            (* RATOON_COUNTER_FILE *)
  counter_writable : bool;                 (* fs::write on it succeeds *)
  granary_exists : bool;                   (* Path::new(GRANARY_DIR).exists() *)
  granary_listable : bool;                 (* fs::read_dir(GRANARY_DIR) and every entry? succeed *)
  granary : gmap string GEntry;            (* the entries of GRANARY_DIR, by file name *)
  others : gmap path GEntry;               (* every other entry, by absolute path *)
  live_config : option Config;             (* CONFIG_FILE_DEFAULT *)
  config_writable : bool;                  (* Config::save_to_file succeeds *)
  modules_dir_exists : bool;
  modules : list (string * ModEntry);      (* fs::read_dir(MODULES_DIR), in order *)
}.


(** [GRANARY_DIR] = ["/data/adb/meta-hybrid/granary"]. *)
Definition GRANARY_DIR : path := ["data"; "adb"; "meta-hybrid"; "granary"].

Definition with_modules (fs : GranaryFs) (ms : list (string * ModEntry)) : GranaryFs :=
  {| counter := counter fs; counter_writable := counter_writable fs;
     granary_exists := granary_exists fs; granary_listable := granary_listable fs;
     granary := granary fs; others := others fs; live_config := live_config fs;
     config_writable := config_writable fs;
     modules_dir_exists := modules_dir_exists fs; modules := ms |}.

Definition with_counter (fs : GranaryFs) (c : option CounterText) : GranaryFs :=
  {| counter := c; counter_writable := counter_writable fs;
     granary_exists := granary_exists fs; granary_listable := granary_listable fs;
     granary := granary fs; others := others fs; live_config := live_config fs;
     config_writable := config_writable fs;
     modules_dir_exists := modules_dir_exists fs; modules := modules fs |}.

Definition with_granary (fs : GranaryFs) (g : gmap string GEntry) : GranaryFs :=
  {| counter := counter fs; counter_writable := counter_writable fs;
     granary_exists := granary_exists fs; granary_listable := granary_listable fs;
     granary := g; others := others fs; live_config := live_config fs;
     config_writable := config_writable fs;
     modules_dir_exists := modules_dir_exists fs; modules := modules fs |}.

Definition with_others (fs : GranaryFs) (o : gmap path GEntry) : GranaryFs :=
  {| counter := counter fs; counter_writable := counter_writable fs;
     granary_exists := granary_exists fs; granary_listable := granary_listable fs;
     granary := granary fs; others := o; live_config := live_config fs;
     config_writable := config_writable fs;
     modules_dir_exists := modules_dir_exists fs; modules := modules fs |}.


Definition with_live_config (fs : GranaryFs) (c : Config) : GranaryFs :=
  {| counter := counter fs; counter_writable := counter_writable fs;
     granary_exists := granary_exists fs; granary_listable := granary_listable fs;
     granary := granary fs; others := others fs; live_config := Some c;
     config_writable := config_writable fs;
     modules_dir_exists := modules_dir_exists fs; modules := modules fs |}.

(** [path.extension() == Some("json")]: a non-empty stem followed by
    [".json"]. *)
Fixpoint has_json_ext (name : string) : bool :=
  match name with
  | EmptyString => false
  | String _ rest => String.eqb rest ".json" || has_json_ext rest
  end.

(** [format!("{}.json", id)]. *)
Definition silo_file (silo_id : string) : string := silo_id +:+ ".json".

(** [format!("silo_{}", now)]. *)
Definition silo_id_of (now : N) : string := "silo_" +:+ pretty now.

(** The name of a directory entry: a path [GRANARY_DIR/<name>]. *)
Definition under_granary (p : path) : option string :=
  match p with
  | [a; b; c; d; nm] => if decide ([a; b; c; d] = GRANARY_DIR) then Some nm else None
  | _ => None
  end.

(** The entry at an absolute path. *)
Definition lookup_entry (fs : GranaryFs) (p : path) : option GEntry :=
  match under_granary p with
  | Some nm => granary fs !! nm
  | None => others fs !! p
  end.

Definition is_dir (fs : GranaryFs) (p : path) : bool :=
  if decide (p = GRANARY_DIR) then granary_exists fs
  else if decide (p = []) then true
  else match lookup_entry fs p with Some GDir => true | _ => false end.

(** The text between the separators ['/'], empty ones included. *)
Fixpoint split_slash (s : string) : list string :=
  match s with
  | EmptyString => [""]
  | String c rest =>
      let parts := split_slash rest in
      if Ascii.eqb c "/" then "" :: parts
      else match parts with
           | p :: ps => String c p :: ps
           | [] => [String c EmptyString]
           end
  end.

(** The kernel's lookup of the components [cs] from the directory [cur]:
    empty components are skipped, every other one needs [cur] to be a
    directory, ["."] stays, [".."] goes to the parent (the root is its own
    parent).  [None]: a component on the way is missing or not a
    directory. *)
Fixpoint walk (isdir : path -> bool) (cur : path) (cs : list string) : option path :=
  match cs with
  | [] => Some cur
  | c :: rest =>
      if String.eqb c "" then walk isdir cur rest
      else if isdir cur then
        walk isdir (if String.eqb c "." then cur
                    else if String.eqb c ".." then removelast cur
                    else cur ++ [c]) rest
      else None
  end.

(** [Path::new(GRANARY_DIR).join(format!("{}.json", id))], resolved: an
    absolute [id] replaces [GRANARY_DIR]. *)
Definition silo_path (fs : GranaryFs) (sid : string) : option path :=
  let rel := silo_file sid in
  let start := match rel with
               | String c _ => if Ascii.eqb c "/" then [] else GRANARY_DIR
               | EmptyString => GRANARY_DIR
               end in
  walk (is_dir fs) start (split_slash rel).

(** The entry that path names; [None] when [exists()] is false. *)
Definition silo_entry (fs : GranaryFs) (sid : string) : option GEntry :=
  match silo_path fs sid with
  | Some p => lookup_entry fs p
  | None => None
  end.

(** [fs::remove_file] of an existing non-directory entry. *)
Definition remove_entry (fs : GranaryFs) (p : path) : GranaryFs :=
  match under_granary p with
  | Some nm => with_granary fs (delete nm (granary fs))
  | None => with_others fs (delete p (others fs))
  end.

Definition entry_silo (e : GEntry) : option Silo :=
  match e with GFile c => c | _ => None end.

(** [fs::read_to_string] fails on it. *)
Definition entry_unreadable (e : GEntry) : bool :=
  match e with GFile _ => false | _ => true end.

(** The [.json] entries whose text parses, in [read_dir] order. *)
Definition parsed_silos (g : gmap string GEntry) : list Silo :=
  omap (fun '(name, e) => if has_json_ext name then entry_silo e else None) (map_to_list g).

(** Some [.json] entry cannot be read ([read_to_string(&path)?]). *)
Definition unreadable_json (g : gmap string GEntry) : bool :=
  existsb (fun '(name, e) => has_json_ext name && entry_unreadable e) (map_to_list g).

(** [silos.sort_by(|a, b| b.timestamp.cmp(&a.timestamp))]: newest first. *)
Definition newer_or_same (a b : Silo) : Prop := (timestamp b <= timestamp a)%N.
#[export] Instance newer_or_same_dec : RelDecision newer_or_same.
Proof. intros a b. unfold newer_or_same. apply _. Defined.

Definition sorted_silos (g : gmap string GEntry) : list Silo :=
  merge_sort newer_or_same (parsed_silos g).

(** [list_silos()]: [None] for [Err]. *)
Definition list_silos (fs : GranaryFs) : option (list Silo) :=
  if negb (granary_exists fs) then Some []
  else if negb (granary_listable fs) then None
  else if unreadable_json (granary fs) then None
  else Some (sorted_silos (granary fs)).




(** [restore_silo(id)]: [None] for [Err]. *)
Definition restore_silo (fs : GranaryFs) (sid : string) : option GranaryFs :=
  match silo_entry fs sid with
  | Some (GFile (Some silo)) =>
      if config_writable fs then Some (with_live_config fs (config_snapshot silo)) else None
  | _ => None
  end.

(** [restore_latest_silo()]: the id is the one stored in the newest silo. *)
Definition restore_latest_silo (fs : GranaryFs) : option GranaryFs :=
  match list_silos fs with
  | Some (latest :: _) => restore_silo fs (id latest)
  | _ => None
  end.

(** The loop of [disable_all_modules]: the entries after it, and whether it
    stopped on an error ([File::create] of [<entry>/disable] fails when the
    entry is not a directory). *)
Fixpoint disable_entries (es : list (string * ModEntry))
  : list (string * ModEntry) * bool :=
  match es with
  | [] => ([], true)
  | (n, ModDir true) :: rest =>
      let '(rest', ok) := disable_entries rest in ((n, ModDir true) :: rest', ok)
  | (n, ModDir false) :: rest =>
      let '(rest', ok) := disable_entries rest in ((n, ModDir true) :: rest', ok)
  | (n, OtherFile) :: rest => ((n, OtherFile) :: rest, false)
  end.

(** [disable_all_modules]: the new state and [Ok]/[Err]. *)
Definition disable_all_modules (fs : GranaryFs) : GranaryFs * bool :=
  if modules_dir_exists fs then
    let '(ms, ok) := disable_entries (modules fs) in (with_modules fs ms, ok)
  else (fs, true).

(** [content.trim().parse::<u8>().unwrap_or(0)]. *)
Definition parse_counter (c : option CounterText) : nat :=
  match c with
  | Some (Num n) => if decide (n <= 255) then n else 0
  | _ => 0
  end.

(** [engage_ratoon_protocol]: the new state and [Ok]/[Err].  [count += 1]
    on a [u8] wraps (release build). *)
Definition engage_ratoon_protocol (fs : GranaryFs) : GranaryFs * bool :=
  let count := Nat.modulo (parse_counter (counter fs) + 1) 256 in
  if negb (counter_writable fs) then (fs, false)
  else
    let fs1 := with_counter fs (Some (Num count)) in
    if decide (3 <= count) then
      match restore_latest_silo fs1 with
      | Some fs2 => (with_counter fs2 None, true)
      | None => disable_all_modules fs1
      end
    else (fs1, true).

(** [disengage_ratoon_protocol]. *)
Definition disengage_ratoon_protocol (fs : GranaryFs) : GranaryFs :=
  with_counter fs None.

(** [delete_silo(id)]: [None] for [Err]; [remove_ok] is whether
    [fs::remove_file] succeeds on an existing file ([remove_file] of a
    directory fails). *)
Definition delete_silo (remove_ok : bool) (fs : GranaryFs) (sid : string)
  : option GranaryFs :=
  match silo_path fs sid with
  | Some p =>
      match lookup_entry fs p with
      | Some GDir => None
      | Some _ => if remove_ok then Some (remove_entry fs p) else None
      | None => None
      end
  | None => None
  end.

End Granary.

(** ** Overlay engine: [mount_overlayfs] and [mount_overlayfs_staged]
    (src/mount/overlay.rs) *)
Module Overlay.

Definition PAGE_LIMIT : nat := 4000.
Definition SAFE_CHUNK_SIZE : nat := 3500.

(** [Vec<&str>::join(":")]. *)
Definition join_colon (l : list string) : string := String.concat ":" l.

(** [Path::to_string_lossy] of an absolute path. *)
Definition path_to_string (p : path) : string :=
  String.concat "" (map (fun c => "/" +:+ c) p).

(** The effects the engine has on the mount table and the file system. *)
Inductive Event :=
| Mkdir (p : path)                    (* fs::create_dir_all *)
| Mount (lowerdir : string) (dest : path)
| Umount (p : path)                   (* unmount(.., DETACH) *)
| Rmdir (p : path).                   (* fs::remove_dir *)

Record OvEnv := {
  do_mount_ok : string -> option path -> option path -> path -> bool;
    (* do_mount_overlay(lowerdir, upperdir, workdir, dest): fsopen, then legacy *)
  run_dir : path;                     (* defs::RUN_DIR *)
  staging_root_ok : bool;             (* creating RUN_DIR/staging if missing *)
  mkdir_ok : path -> bool;            (* fs::create_dir_all(stage_dir) *)
  now_nanos : nat -> N;               (* SystemTime::now() at the i-th stage *)
}.

Definition staging_root (env : OvEnv) : path := join (run_dir env) "staging".

Definition stage_dir (env : OvEnv) (i : nat) : path :=
  join (staging_root env)
    ("stage_" +:+ pretty (now_nanos env i) +:+ "_" +:+ pretty (N.of_nat i)).

(** The batching loop of [mount_overlayfs_staged]. *)
Fixpoint chunk_go (dirs : list string) (batches : list (list string))
  (current_batch : list string) (current_len : nat) : list (list string) :=
  match dirs with
  | [] => match current_batch with [] => batches | _ => batches ++ [current_batch] end
  | dir :: rest =>
      if decide (SAFE_CHUNK_SIZE < current_len + String.length dir + 1)
      then chunk_go rest (batches ++ [current_batch]) [dir] (String.length dir + 1)
      else chunk_go rest batches (current_batch ++ [dir])
             (current_len + String.length dir + 1)
  end.

Definition make_batches (dirs : list string) : list (list string) :=
  chunk_go dirs [] [] 0.

(** The loop [for (i, batch) in batches.iter().rev().enumerate()]: the
    events so far, the staging mounts the guard holds, and [Ok]/[Err]. *)
Fixpoint stage_loop (env : OvEnv) (dest : path) (n : nat)
  (bs : list (list string)) (i : nat) (current_base : string)
  (guard : list path) (ev : list Event) : list Event * list path * bool :=
  match bs with
  | [] => (ev, guard, true)
  | batch :: rest =>
      let is_last_layer := Nat.eqb i (n - 1) in
      let lowerdir_str := join_colon (batch ++ [current_base]) in
      if is_last_layer then
        if do_mount_ok env lowerdir_str None None dest
        then stage_loop env dest n rest (S i) current_base guard
               (ev ++ [Mount lowerdir_str dest])
        else (ev, guard, false)
      else
        let sd := stage_dir env i in
        if mkdir_ok env sd then
          if do_mount_ok env lowerdir_str None None sd
          then stage_loop env dest n rest (S i) (path_to_string sd) (guard ++ [sd])
                 (ev ++ [Mkdir sd; Mount lowerdir_str sd])
          else (ev ++ [Mkdir sd], guard, false)
        else (ev, guard, false)
  end.

(** [impl Drop for StagedMountGuard] when not committed. *)
Definition guard_cleanup (guard : list path) : list Event :=
  flat_map (fun p => [Umount p; Rmdir p]) (rev guard).

Definition mount_overlayfs_staged (env : OvEnv) (lower_dirs : list string)
  (lowest : string) (dest : path) : list Event * bool :=
  let batches := make_batches lower_dirs in
  if negb (staging_root_ok env) then ([], false)
  else
    let '(ev, guard, ok) :=
      stage_loop env dest (length batches) (rev batches) 0 lowest [] [] in
    if ok then (ev, true) else (ev ++ guard_cleanup guard, false).

Definition mount_overlayfs (env : OvEnv) (lower_dirs : list string)
  (lowest : string) (upperdir workdir : option path) (dest : path)
  : list Event * bool :=
  let lowerdir_config := join_colon (lower_dirs ++ [lowest]) in
  if do_mount_ok env lowerdir_config upperdir workdir dest
  then ([Mount lowerdir_config dest], true)
  else if decide (PAGE_LIMIT <= String.length lowerdir_config) then
    if bool_decide (is_Some upperdir) || bool_decide (is_Some workdir)
    then ([], false)
    else mount_overlayfs_staged env lower_dirs lowest dest
  else ([], false).

(** The mounts and directories left after a run of events. *)
Fixpoint mounted_after (acc : list path) (ev : list Event) : list path :=
  match ev with
  | [] => acc
  | Mount _ p :: rest => mounted_after (acc ++ [p]) rest
  | Umount p :: rest => mounted_after (filter (fun q => q <> p) acc) rest
  | _ :: rest => mounted_after acc rest
  end.

Fixpoint dirs_after (acc : list path) (ev : list Event) : list path :=
  match ev with
  | [] => acc
  | Mkdir p :: rest => dirs_after (acc ++ [p]) rest
  | Rmdir p :: rest => dirs_after (filter (fun q => q <> p) acc) rest
  | _ :: rest => dirs_after acc rest
  end.

Definition mount_targets (ev : list Event) : list path :=
  omap (fun e => match e with Mount _ p => Some p | _ => None end) ev.

Definition mounts_of (ev : list Event) : list (string * path) :=
  omap (fun e => match e with Mount l p => Some (l, p) | _ => None end) ev.

(** Following the words of section 4.5: batches taken in reverse order,
    each non-final one onto a fresh staging directory layered over the
    current base, the final one onto the destination. *)
Fixpoint spec_staged_mounts (env : OvEnv) (dest : path)
  (rev_batches : list (list string)) (i : nat) (base : string)
  : list (string * path) :=
  match rev_batches with
  | [] => []
  | [b] => [(join_colon (b ++ [base]), dest)]
  | b :: rest =>
      (join_colon (b ++ [base]), stage_dir env i)
        :: spec_staged_mounts env dest rest (S i) (path_to_string (stage_dir env i))
  end.

(** [str.trim_start_matches('/')]. *)
Fixpoint trim_start_slash (s : string) : string :=
  match s with
  | String c rest => if Ascii.eqb c "/"%char then trim_start_slash rest else s
  | EmptyString => EmptyString
  end.

Fixpoint last_char (s : string) : option Ascii.ascii :=
  match s with
  | EmptyString => None
  | String c EmptyString => Some c
  | String _ rest => last_char rest
  end.

(** [Path::new(a).join(b).display().to_string()] for a relative [b]:
    [PathBuf::push] adds a separator unless [a] is empty or ends in one. *)
Definition join_str (a b : string) : string :=
  match last_char a with
  | None => b
  | Some c => if Ascii.eqb c "/"%char then a +:+ b else a +:+ "/" +:+ b
  end.

(** The normal components of an absolute path string, as [Path::components]
    yields them after the root ([""] between repeated separators and ["."]
    are not components). *)
Fixpoint split_components (s : string) (cur : string) : list string :=
  match s with
  | EmptyString => if decide (cur = "" \/ cur = ".") then [] else [cur]
  | String c rest =>
      if Ascii.eqb c "/"%char
      then (if decide (cur = "" \/ cur = ".") then [] else [cur]) ++ split_components rest ""
      else split_components rest (cur +:+ String c EmptyString)
  end.

Definition str_path (s : string) : path := split_components s "".

(** [str.starts_with(pat)]. *)
Fixpoint starts_with (pat s : string) : bool :=
  match pat, s with
  | EmptyString, _ => true
  | String a pat', String b s' => Ascii.eqb a b && starts_with pat' s'
  | String _ _, EmptyString => false
  end.

(** [s.replacen(pat, "", 1)]: remove the first occurrence of [pat]. *)
Fixpoint remove_first (pat s : string) : string :=
  if starts_with pat s then String.substring (String.length pat) (String.length s) s
  else match s with
       | EmptyString => EmptyString
       | String c rest => String c (remove_first pat rest)
       end.

(** The file-system queries and the outcome of the calls [mount_overlay]
    and [mount_overlay_child] make besides [mount_overlayfs]. *)
Record MountFs := {
  open_ok : string -> bool;          (* fs::File::open(target_root) *)
  root_fd : N;                       (* root_file.as_raw_fd() *)
  m_exists : string -> bool;         (* Path::exists *)
  m_is_dir : string -> bool;         (* Path::is_dir *)
  bind_ok : string -> string -> bool;(* bind_mount(from, to): open_tree, move_mount *)
}.

(** The effects of [mount_overlay]: those of [mount_overlayfs], and bind
    mounts. *)
Inductive MEvent :=
| Ov (e : Event)
| Bind (from to : string).

Definition bind_mount (mfs : MountFs) (from to : string) : list MEvent * bool :=
  if bind_ok mfs from to then ([Bind from to], true) else ([], false).

(** The loop collecting [lower_dirs] in [mount_overlay_child]: [None] when
    it returns [Ok(())] early on an existing non-directory. *)
Fixpoint collect_lower_dirs (mfs : MountFs) (relative : string) (roots : list string)
  : option (list string) :=
  match roots with
  | [] => Some []
  | lower :: rest =>
      let p := join_str lower (trim_start_slash relative) in
      if m_is_dir mfs p then (fun l => p :: l) <$> collect_lower_dirs mfs relative rest
      else if m_exists mfs p then None
      else collect_lower_dirs mfs relative rest
  end.

Definition mount_overlay_child (env : OvEnv) (mfs : MountFs) (mount_point relative : string)
  (module_roots : list string) (stock_root : string) : list MEvent * bool :=
  let has_modification :=
    existsb (fun lower => m_exists mfs (join_str lower (trim_start_slash relative)))
      module_roots in
  if negb has_modification then bind_mount mfs stock_root mount_point
  else if negb (m_is_dir mfs stock_root) then ([], true)
  else match collect_lower_dirs mfs relative module_roots with
       | None | Some [] => ([], true)
       | Some lower_dirs =>
           let '(ev, ok) := mount_overlayfs env lower_dirs stock_root None None
                              (str_path mount_point) in
           if ok then (map Ov ev, true)
           else let '(bev, bok) := bind_mount mfs stock_root mount_point in
                (map Ov ev ++ bev, bok)
       end.

(** One iteration of the loop over [child_mounts]; its error is only
    logged. *)
Definition child_step (env : OvEnv) (mfs : MountFs) (target_root : string)
  (module_roots : list string) (stock_root : string) (mount_point : string)
  : list MEvent :=
  let relative := remove_first target_root mount_point in
  let stock_root_relative := stock_root +:+ relative in
  if negb (m_exists mfs stock_root_relative) then []
  else (mount_overlay_child env mfs mount_point relative module_roots stock_root_relative).1.

Definition mount_overlay (env : OvEnv) (mfs : MountFs) (target_root : string)
  (module_roots : list string) (workdir upperdir : option path)
  (child_mounts : list string) : list MEvent * bool :=
  if negb (open_ok mfs target_root) then ([], false)
  else
    let stock_root := "/proc/self/fd/" +:+ pretty (root_fd mfs) in
    let '(ev, ok) := mount_overlayfs env module_roots stock_root upperdir workdir
                       (str_path target_root) in
    if negb ok then (map Ov ev, false)
    else (map Ov ev ++ flat_map (child_step env mfs target_root module_roots stock_root)
                         child_mounts, true).

End Overlay.

(** ** Magic-mount engine: [MagicMount::do_magic_mount] (src/mount/magic.rs) *)
Module Magic.

#[local] Set Warnings "-register-all".

Inductive NodeFileType := RegularFile | Symlink | Directory | Whiteout.

#[export] Instance NodeFileType_eq_dec : EqDecision NodeFileType.
Proof. solve_decision. Defined.

(** [mount::node::Node]; the [children] map as a list in iteration order. *)
Inductive Node := mkNode {
  name : string;
  file_type : NodeFileType;
  module_path : option path;
  replace : bool;
  skip : bool;
  children : list (string * Node);
}.

(** The live file system and the outcome of each mount call. *)
Record MagicEnv := {
  live_exists : path -> bool;                    (* Path::exists *)
  live_type : path -> option NodeFileType;       (* symlink_metadata, as NodeFileType *)
  live_read_dir : path -> option (list string);  (* read_dir names, None on error *)
  skeleton_ok : path -> path -> bool;            (* metadata of src, chmod/chown/lsetfilecon of dst *)
  bind_ok : path -> path -> bool;                (* mount_bind *)
  create_file_ok : path -> bool;                 (* fs::File::create *)
  symlink_ok : path -> path -> bool;             (* clone_symlink *)
  mirror_ok : path -> path -> string -> bool;    (* mount_mirror(path, work, entry) *)
  move_ok : path -> path -> bool;                (* mount_move *)
}.

(** What one node's mount does; the events of a child are nested under its
    name, so the top-level events of a directory are its own. *)
Inductive MEvent :=
| Skeleton (w : path)                      (* work dir created with live metadata *)
| BindSelf (w : path)                      (* mount_bind(w, w) *)
| ReadDir (p : path)                       (* live children enumerated *)
| Mirror (nm : string)                     (* mount_mirror of a live child *)
| ChildStart (nm : string)                 (* Self::new(child).do_magic_mount() *)
| SubTree (nm : string) (ev : list MEvent) (* what that child did *)
| ChildDone (nm : string) (ok : bool)
| BindFile (src dst : path)
| MakeSymlink (src dst : path)
| MoveMount (w p : path).

(** [check_tmpfs]: the new [skip] flags of the children (in order) and
    whether a tmpfs is needed. *)
Fixpoint check_tmpfs (env : MagicEnv) (p : path) (chs : list (string * Node))
  : list bool * bool :=
  match chs with
  | [] => ([], false)
  | (nm, c) :: rest =>
      let real_path := join p nm in
      let need :=
        match file_type c with
        | Symlink => true
        | Whiteout => live_exists env real_path
        | ft => match live_type env real_path with
                | Some t => bool_decide (t <> ft) || bool_decide (t = Symlink)
                | None => true
                end
        end in
      if need then
        match module_path c with
        | None => let '(sk, ht) := check_tmpfs env p rest in (true :: sk, ht)
        | Some _ => (skip c :: map (fun '(_, c') => skip c') rest, true)
        end
      else let '(sk, ht) := check_tmpfs env p rest in (skip c :: sk, ht)
  end.

(** The first lines of [handle_directory]: the children's [skip] flags,
    [has_tmpfs] (a tmpfs is in effect here) and [create_tmpfs]. *)
Definition dir_tmpfs (env : MagicEnv) (n : Node) (p : path) (has_tmpfs : bool)
  : list bool * bool * bool :=
  let create_tmpfs := negb has_tmpfs && replace n && bool_decide (is_Some (module_path n)) in
  if negb has_tmpfs && negb create_tmpfs then
    let '(sk, ht) := check_tmpfs env p (children n) in (sk, ht, ht)
  else (map (fun '(_, c) => skip c) (children n), has_tmpfs, create_tmpfs).

(** A child as the loops see it: name, [skip], and the events and result
    of its own [do_magic_mount]. *)
Definition Item := (string * bool * (list MEvent * bool))%type.

Definition item_name (it : Item) : string := it.1.1.

(** [self.node.children.remove(&name)]. *)
Fixpoint remove_item (nm : string) (its : list Item) : option (Item * list Item) :=
  match its with
  | [] => None
  | it :: rest =>
      if String.eqb (item_name it) nm then Some (it, rest)
      else match remove_item nm rest with
           | Some (x, rest') => Some (x, it :: rest')
           | None => None
           end
  end.

Definition run_child (it : Item) : list MEvent * bool :=
  let '(nm, _, (cev, cok)) := it in
  ([ChildStart nm; SubTree nm cev; ChildDone nm cok], cok).

(** The loop over the live entries (lines 446-482): events, remaining
    children, and [Ok]/[Err]. *)
Fixpoint live_loop (env : MagicEnv) (p w : path) (has_tmpfs : bool)
  (entries : list string) (its : list Item) (ev : list MEvent)
  : list MEvent * list Item * bool :=
  match entries with
  | [] => (ev, its, true)
  | nm :: rest =>
      match remove_item nm its with
      | Some (it, its') =>
          if it.1.2 then live_loop env p w has_tmpfs rest its' ev
          else
            let '(cev, cok) := run_child it in
            if cok || negb has_tmpfs
            then live_loop env p w has_tmpfs rest its' (ev ++ cev)
            else (ev ++ cev, its', false)
      | None =>
          if has_tmpfs then
            let ok := mirror_ok env p w nm in
            let mev := [Mirror nm; ChildDone nm ok] in
            if ok then live_loop env p w has_tmpfs rest its (ev ++ mev)
            else (ev ++ mev, its, false)
          else live_loop env p w has_tmpfs rest its ev
      end
  end.

(** The loop over the remaining children (lines 495-517). *)
Fixpoint child_loop (has_tmpfs : bool) (its : list Item) (ev : list MEvent)
  : list MEvent * bool :=
  match its with
  | [] => (ev, true)
  | it :: rest =>
      if it.1.2 then child_loop has_tmpfs rest ev
      else
        let '(cev, cok) := run_child it in
        if cok || negb has_tmpfs then child_loop has_tmpfs rest (ev ++ cev)
        else (ev ++ cev, false)
  end.

(** [handle_directory], given for each [has_tmpfs] the results of the
    children's own mounts. *)
Definition handle_directory (env : MagicEnv) (n : Node) (p w : path)
  (has_tmpfs0 : bool) (rec : bool -> list (list MEvent * bool))
  : list MEvent * bool :=
  let '(sk, self_has_tmpfs, create_tmpfs) := dir_tmpfs env n p has_tmpfs0 in
  let has_tmpfs := self_has_tmpfs || create_tmpfs in
  let its : list Item :=
    zip (zip (map fst (children n)) sk) (rec has_tmpfs) in
  (* the tmpfs skeleton *)
  let skel :=
    if has_tmpfs then
      if live_exists env p then
        if skeleton_ok env p w then Some [Skeleton w] else None
      else match module_path n with
           | Some mp => if skeleton_ok env mp w then Some [Skeleton w] else None
           | None => None
           end
    else Some [] in
  match skel with
  | None => ([], false)
  | Some ev0 =>
      let self_bind :=
        if create_tmpfs then
          if bind_ok env w w then Some (ev0 ++ [BindSelf w]) else None
        else Some ev0 in
      match self_bind with
      | None => (ev0, false)
      | Some ev1 =>
          let live :=
            if live_exists env p && negb (replace n) then
              match live_read_dir env p with
              | Some entries => live_loop env p w has_tmpfs entries its (ev1 ++ [ReadDir p])
              | None => (ev1, its, false)
              end
            else (ev1, its, true) in
          let '(ev2, its2, ok2) := live in
          if negb ok2 then (ev2, false)
          else if replace n && bool_decide (module_path n = None) then (ev2, false)
          else
            let '(ev3, ok3) := child_loop has_tmpfs its2 ev2 in
            if negb ok3 then (ev3, false)
            else if create_tmpfs then
              if move_ok env w p then (ev3 ++ [MoveMount w p], true)
              else (ev3, false)
            else (ev3, true)
      end
  end.

Definition handle_regular_file (env : MagicEnv) (n : Node) (p w : path)
  (has_tmpfs : bool) : list MEvent * bool :=
  let target := if has_tmpfs then (if create_file_ok env w then Some w else None)
                else Some p in
  match target with
  | None => ([], false)
  | Some t =>
      match module_path n with
      | Some mp => if bind_ok env mp t then ([BindFile mp t], true) else ([], false)
      | None => ([], false)
      end
  end.

Definition handle_symlink (env : MagicEnv) (n : Node) (p w : path)
  : list MEvent * bool :=
  match module_path n with
  | Some mp => if symlink_ok env mp w then ([MakeSymlink mp w], true) else ([], false)
  | None => ([], false)
  end.

(** [MagicMount::new(node, parent_path, parent_work, has_tmpfs).do_magic_mount()]. *)
Fixpoint do_magic_mount (env : MagicEnv) (n : Node) (pp pw : path)
  (has_tmpfs : bool) {struct n} : list MEvent * bool :=
  let p := join pp (name n) in
  let w := join pw (name n) in
  match file_type n with
  | RegularFile => handle_regular_file env n p w has_tmpfs
  | Symlink => handle_symlink env n p w
  | Whiteout => ([], true)
  | Directory =>
      let rec ht :=
        (fix go (l : list (string * Node)) : list (list MEvent * bool) :=
           match l with
           | [] => []
           | (_, c) :: rest => do_magic_mount env c p w ht :: go rest
           end) (children n) in
      handle_directory env n p w has_tmpfs rec
  end.

(** The [children] loop of [merge_nodes] with the recursive call [f]: one
    low child goes into the high children ([Entry::Vacant] inserts it,
    [Entry::Occupied] merges into the present one). *)
Fixpoint merge_into (f : Node -> Node -> Node) (nm : string) (lc : Node)
  (hs : list (string * Node)) : list (string * Node) :=
  match hs with
  | [] => [(nm, lc)]
  | (nm', hc) :: hs' =>
      if String.eqb nm' nm then (nm', f hc lc) :: hs' else (nm', hc) :: merge_into f nm lc hs'
  end.

Fixpoint merge_children (f : Node -> Node -> Node) (hs ls : list (string * Node))
  : list (string * Node) :=
  match ls with
  | [] => hs
  | (nm, lc) :: rest => merge_children f (merge_into f nm lc hs) rest
  end.

(** [merge_nodes(high, low)]: the merged [high]. *)
Fixpoint merge_nodes (high low : Node) {struct low} : Node :=
  let merged :=
    (fix go (hs ls : list (string * Node)) {struct ls} : list (string * Node) :=
       match ls with
       | [] => hs
       | (nm, lc) :: rest =>
           go ((fix ins (l : list (string * Node)) : list (string * Node) :=
                  match l with
                  | [] => [(nm, lc)]
                  | (nm', hc) :: l' =>
                      if String.eqb nm' nm then (nm', merge_nodes hc lc) :: l'
                      else (nm', hc) :: ins l'
                  end) hs) rest
       end) (children high) (children low) in
  match module_path high with
  | None => mkNode (name high) (file_type low) (module_path low) (replace low) (skip high) merged
  | Some _ => mkNode (name high) (file_type high) (module_path high) (replace high)
                (skip high) merged
  end.

(** The outcomes of the calls [mount_partitions] makes around the engine. *)
Record PartEnv := {
  ensure_dir_ok : path -> bool;              (* ensure_dir_exists(tmp_dir) *)
  mount_tmpfs_ok : string -> path -> bool;   (* mount(mount_source, tmp_dir, "tmpfs") *)
  make_private_ok : path -> bool;            (* mount_change(tmp_dir, PRIVATE) *)
}.

(** The calls [mount_partitions] makes, in order. *)
Inductive PEvent :=
| EnsureDir (p : path)
| MountTmpfs (src : string) (p : path)
| MakePrivate (p : path)
| RunMagic (root : Node) (ev : list MEvent)   (* do_magic_mount of the tree *)
| Unmount (p : path)                          (* unmount(tmp_dir, DETACH), result logged *)
| CommitUmount                                (* try_umount::commit(), result logged *)
| RemoveDir (p : path).                       (* fs::remove_dir(tmp_dir).ok() *)

(** [mount_partitions]; [collected] is what [collect_module_files]
    returned ([None] for [Err]). The engine is
    [MagicMount::new(&root, "/", tmp_dir, false)]; the root node is named
    [""], and the trailing separator [join("")] adds to ["/"] and [tmp_dir]
    is an empty last component here. *)
Definition mount_partitions (env : MagicEnv) (penv : PartEnv) (tmp_path : path)
  (mount_source : string) (collected : option (option Node)) (disable_umount : bool)
  : list PEvent * bool :=
  match collected with
  | None => ([], false)
  | Some None => ([], true)
  | Some (Some root) =>
      let tmp_dir := join tmp_path "workdir" in
      if negb (ensure_dir_ok penv tmp_dir) then ([EnsureDir tmp_dir], false)
      else if negb (mount_tmpfs_ok penv mount_source tmp_dir) then
        ([EnsureDir tmp_dir; MountTmpfs mount_source tmp_dir], false)
      else if negb (make_private_ok penv tmp_dir) then
        ([EnsureDir tmp_dir; MountTmpfs mount_source tmp_dir; MakePrivate tmp_dir], false)
      else
        let '(ev, ok) := do_magic_mount env root [] tmp_dir false in
        ([EnsureDir tmp_dir; MountTmpfs mount_source tmp_dir; MakePrivate tmp_dir;
          RunMagic root ev; Unmount tmp_dir] ++
         (if disable_umount then [] else [CommitUmount]) ++ [RemoveDir tmp_dir], ok)
  end.

End Magic.

(** * Properties *)

(** ** Inventory *)
Module InventoryFacts.
Import Inventory.

(** Claim C10: when the user rules file [<state-root>/rules/<id>.json]
    exists and parses, [ModuleRules::load] takes its [default_mode] in place
    of the module-internal one, whatever the internal file said; when the
    user file omits [default_mode] the serde default [overlay] is taken; and
    the user's path entries are merged over the internal ones, a user entry
    overwriting an internal entry with the same key. *)
Theorem load_user_rules_replace_default_mode (env : RulesEnv) (dir : path)
  (module_id content : string) (j : RulesJson) :
  read_to_string env (user_config module_id) = Some content ->
  from_str env content = Some j ->
  let r := load env dir module_id in
  default_mode r = default Overlay (json_default_mode j) /\
  (json_default_mode j = None -> default_mode r = Overlay) /\
  forall k, paths r !! k =
    match default ∅ (json_paths j) !! k with
    | Some v => Some v
    | None => paths (load_internal env dir) !! k
    end.
Proof.
  intros Hread Hparse r. subst r. unfold load. rewrite Hread, Hparse. simpl.
  split; [done|]. split.
  - intros ->. done.
  - intros k. apply hashmap_extend_lookup.
Qed.

(** The module ships [{"default_mode": "ignore", "paths": {"a": "magic"}}];
    the user file [{"paths": {"b": "magic"}}] has no [default_mode]. *)
Definition witness_env : RulesEnv :=
  {| read_to_string := fun p =>
       if decide (p = user_config "m") then Some "user"
       else if decide (p = internal_config ["mods"; "m"]) then Some "internal"
       else None;
     from_str := fun s =>
       if String.eqb s "user" then
         Some {| json_default_mode := None;
                 json_paths := Some {[ "b" := Magic ]} |}
       else if String.eqb s "internal" then
         Some {| json_default_mode := Some Ignore;
                 json_paths := Some {[ "a" := Magic ]} |}
       else None |}.

Lemma load_user_rules_replace_default_mode_witness :
  default_mode (load_internal witness_env ["mods"; "m"]) = Ignore /\
  default_mode (load witness_env ["mods"; "m"] "m") = Overlay.
Proof.
  split; [reflexivity|].
  apply (load_user_rules_replace_default_mode witness_env ["mods"; "m"] "m" "user"
           {| json_default_mode := None; json_paths := Some {[ "b" := Magic ]} |});
    reflexivity.
Defined.

End InventoryFacts.

(** ** Planner *)
Module PlannerFacts.
Import Planner.

(** [b] comes no later than [a] in descending order. *)
Definition desc (a b : string) : Prop := String.le b a.

Lemma map_replicate_eq {A B} (f : A -> B) k x :
  map f (replicate k x) = replicate k (f x).
Proof. induction k; simpl; congruence. Qed.

Lemma collect_layers_lookup (fs : PlanFs) (cp : path) (parts : list string) :
  forall (pl : gmap string (list path)) b part,
  (collect_layers fs cp parts pl b).1 !! part = pl !! part \/
  exists k, k <> 0 /\
    (collect_layers fs cp parts pl b).1 !! part =
      Some (default [] (pl !! part) ++ replicate k (join cp part)).
Proof.
  induction parts as [|p parts IH]; intros pl b part; simpl; [by left|].
  destruct (is_dir fs (join cp p) && has_files fs (join cp p)); [|apply IH].
  destruct (IH (push_layer pl p (join cp p)) true part) as [Heq|(k & Hk & Heq)];
    rewrite Heq; unfold push_layer.
  - destruct (decide (p = part)) as [->|Hne].
    + right. exists 1. split; [lia|]. by rewrite lookup_insert_eq.
    + left. by rewrite lookup_insert_ne.
  - destruct (decide (p = part)) as [->|Hne].
    + right. exists (S k). split; [lia|]. rewrite lookup_insert_eq. simpl.
      by rewrite <- app_assoc.
    + right. exists k. split; [done|]. by rewrite lookup_insert_ne.
Qed.

(** The layer map invariant while the modules are folded: every list is
    non-empty and made of the partition directories of overlay modules of
    [all], in descending id order, each id no smaller than those of the
    modules still to come. *)
Definition layers_inv (root : path) (all rem : list Module) (st : GenState) : Prop :=
  forall part ls, partition_layers st !! part = Some ls ->
  ls <> [] /\
  exists ids, ls = map (fun i => join (join root i) part) ids /\
    StronglySorted desc ids /\
    Forall (fun i => (exists m, m ∈ all /\ id m = i /\ mode m <> "magic") /\
                     forall m', m' ∈ rem -> String.le (id m') i) ids.

Lemma layers_inv_weaken root all m rem st :
  layers_inv root all (m :: rem) st -> layers_inv root all rem st.
Proof.
  intros Hinv part ls Hl. destruct (Hinv part ls Hl) as (Hne & ids & -> & Hs & Hf).
  split; [done|]. exists ids. split; [done|]. split; [done|].
  eapply Forall_impl; [exact Hf|]. intros i [Hm Hb]. split; [done|].
  intros m' Hm'. apply Hb. by right.
Qed.

Lemma plan_module_inv fs root targets all m rem st :
  m ∈ all -> Forall (fun m' => String.le (id m') (id m)) rem ->
  layers_inv root all (m :: rem) st ->
  layers_inv root all rem (plan_module fs root targets st m).
Proof.
  intros Hm Hrem Hinv. unfold plan_module.
  destruct (String.eqb (mode m) "magic") eqn:Hmode.
  - destruct (has_meaningful_content fs (source_path m) targets);
      [|by eapply layers_inv_weaken].
    intros part ls Hl. simpl in Hl. by eapply layers_inv_weaken.
  - destruct (negb (exists_ fs (join root (id m)))); [by eapply layers_inv_weaken|].
    destruct (collect_layers fs (join root (id m)) targets (partition_layers st) false)
      as [pl' b'] eqn:Hcl.
    intros part ls Hl. simpl in Hl.
    destruct (collect_layers_lookup fs (join root (id m)) targets
                (partition_layers st) false part) as [Heq|(k & Hk & Heq)];
      rewrite Hcl in Heq; simpl in Heq; rewrite Heq in Hl.
    + by apply (layers_inv_weaken root all m rem st).
    + injection Hl as <-.
      assert (Hnm : mode m <> "magic").
      { intros He. rewrite He in Hmode. done. }
      destruct (partition_layers st !! part) as [ls0|] eqn:Hl0.
      * destruct (Hinv part ls0 Hl0) as (Hne & ids & -> & Hs & Hf).
        split; [by destruct ids|].
        exists (ids ++ replicate k (id m)). split.
        { by rewrite map_app, map_replicate_eq. }
        split.
        { apply StronglySorted_app_2.
          - intros x1 x2 Hx1 Hx2. apply elem_of_replicate in Hx2 as [-> _].
            rewrite Forall_forall in Hf. destruct (Hf x1 Hx1) as [_ Hb].
            apply Hb. by left.
          - done.
          - clear. induction k; simpl; constructor; [done|].
            apply Forall_forall. intros x Hx. apply elem_of_replicate in Hx as [-> _].
            unfold desc. reflexivity. }
        apply Forall_app. split.
        { eapply Forall_impl; [exact Hf|]. intros i [Hi Hb]. split; [done|].
          intros m' Hm'. apply Hb. by right. }
        apply Forall_forall. intros x Hx. apply elem_of_replicate in Hx as [-> _].
        split; [by exists m|].
        intros m' Hm'. rewrite Forall_forall in Hrem. by apply Hrem.
      * simpl. split; [by destruct k|].
        exists (replicate k (id m)). split; [by rewrite map_replicate_eq|].
        split.
        { clear. induction k; simpl; constructor; [done|].
          apply Forall_forall. intros x Hx. apply elem_of_replicate in Hx as [-> _].
          unfold desc. reflexivity. }
        apply Forall_forall. intros x Hx. apply elem_of_replicate in Hx as [-> _].
        split; [by exists m|].
        intros m' Hm'. rewrite Forall_forall in Hrem. by apply Hrem.
Qed.

Lemma fold_layers_inv fs root targets all :
  forall rem st, StronglySorted (fun a b => String.le (id b) (id a)) rem ->
  (forall m, m ∈ rem -> m ∈ all) ->
  layers_inv root all rem st ->
  layers_inv root all [] (foldl (plan_module fs root targets) st rem).
Proof.
  induction rem as [|m rem IH]; intros st Hs Hsub Hinv; simpl; [done|].
  apply StronglySorted_inv in Hs as [Hs Hf].
  apply IH; [done| |].
  - intros m' Hm'. apply Hsub. by right.
  - apply plan_module_inv; [apply Hsub; by left|done|done].
Qed.

(** Claim C6: given the scanner's order (modules sorted descending by id),
    every overlay operation of the plan has a non-empty [lowerdirs], made of
    the partition directories [<root>/<id>/<partition>] of overlay modules
    in descending id order, so that its first entry (the top overlayfs
    layer) comes from the contributing module with the greatest id. *)
Theorem plan_overlay_lowerdirs_descending (fs : PlanFs)
  (config_partitions : list string) (modules : list Module) (root : path) :
  StronglySorted (fun a b => String.le (id b) (id a)) modules ->
  forall op, op ∈ overlay_ops (generate fs config_partitions modules root) ->
  lowerdirs op <> [] /\
  exists ids,
    lowerdirs op = map (fun i => join (join root i) (partition_name op)) ids /\
    StronglySorted desc ids /\
    Forall (fun i => exists m, m ∈ modules /\ id m = i /\ mode m <> "magic") ids.
Proof.
  intros Hsorted op Hop. simpl in Hop.
  apply list_elem_of_omap in Hop as ([part ls] & Hin & Hmk).
  apply elem_of_map_to_list in Hin.
  assert (Hinv : layers_inv root modules []
    (foldl (plan_module fs root (BUILTIN_PARTITIONS ++ config_partitions))
       {| partition_layers := ∅; magic_paths := []; overlay_ids := [];
          magic_ids := [] |} modules)).
  { apply fold_layers_inv; [done|done|].
    intros part' ls' Hl. simpl in Hl. by rewrite lookup_empty in Hl. }
  destruct (Hinv part ls Hin) as (Hne & ids & Hls & Hs & Hf).
  unfold make_op in Hmk.
  destruct (is_symlink fs [part] || exists_ fs [part]); [|done].
  destruct (canonicalize fs [part]) as [resolved|]; [|done].
  destruct (is_dir fs resolved); [|done].
  injection Hmk as <-. simpl. split; [done|].
  exists ids. split; [done|]. split; [done|].
  eapply Forall_impl; [exact Hf|]. by intros i [H _].
Qed.


(** A small file system: every path exists, is a directory holding one
    entry, and resolves to itself. *)
Definition full_fs : PlanFs := {|
  exists_ := fun _ => true;
  is_dir := fun _ => true;
  is_symlink := fun _ => false;
  read_dir := fun _ => Some ["f"];
  canonicalize := fun p => Some p;
|}.

Definition mod_a : Module := {| id := "a"; source_path := ["data"; "adb"; "modules"; "a"]; mode := "auto" |}.
Definition mod_b : Module := {| id := "b"; source_path := ["data"; "adb"; "modules"; "b"]; mode := "auto" |}.

Lemma plan_overlay_lowerdirs_descending_witness :
  exists op : OverlayOperation,
  op ∈ overlay_ops (generate full_fs [] [mod_b; mod_a] ["mods"]) /\
  lowerdirs op = [["mods"; "b"; partition_name op]; ["mods"; "a"; partition_name op]] /\
  (lowerdirs op <> [] /\
   exists ids,
    lowerdirs op = map (fun i => join (join ["mods"] i) (partition_name op)) ids /\
    StronglySorted desc ids /\
    Forall (fun i => exists m, m ∈ [mod_b; mod_a] /\ id m = i /\ mode m <> "magic") ids).
Proof.
  eexists. split; [|split].
  - vm_compute. left.
  - reflexivity.
  - apply (plan_overlay_lowerdirs_descending full_fs [] [mod_b; mod_a] ["mods"]).
    + repeat constructor; vm_compute; try done.
    + vm_compute. left.
Defined.

(** A module whose effective rules say "ignore". *)
Definition mod_x : Module := {| id := "x"; source_path := ["data"; "adb"; "modules"; "x"]; mode := "ignore" |}.

(** Claim C1 (code bug): the planner tests only [module.mode == "magic"];
    a module in "ignore" mode whose content exists in the storage root
    takes the overlay branch, so its id lands in [overlay_module_ids] and
    each of its partition directories becomes the layer of an overlay
    operation. *)
Theorem generate_overlays_ignore_module :
  overlay_module_ids (generate full_fs [] [mod_x] ["mods"]) = ["x"] /\
  length (overlay_ops (generate full_fs [] [mod_x] ["mods"])) = 5 /\
  Forall (fun op => lowerdirs op = [join (join ["mods"] "x") (partition_name op)])
    (overlay_ops (generate full_fs [] [mod_x] ["mods"])).
Proof.
  split; [|split].
  - vm_compute. reflexivity.
  - vm_compute. reflexivity.
  - vm_compute. repeat constructor.
Qed.

End PlannerFacts.

(** ** Executor *)
Module ExecutorFacts.
Import Executor.

Lemma phase_a_fold (env : ExecEnv) (ops : list OverlayOperation) :
  forall mq fb,
  let r := foldl (phase_a_step env) (mq, fb) ops in
  (forall x, x ∈ mq -> x ∈ r.1) /\ (forall x, x ∈ fb -> x ∈ r.2) /\
  forall op, op ∈ ops -> mount_overlay_ok env (target op) (layers op) = false ->
    (forall l, l ∈ layers op -> l ∈ r.1) /\
    (forall i, i ∈ omap extract_id (layers op) -> i ∈ r.2).
Proof.
  induction ops as [|o ops IH]; intros mq fb r; subst r; simpl.
  - split; [done|]. split; [done|]. intros op Hop. by apply elem_of_nil in Hop.
  - unfold phase_a_step at 2.
    destruct (mount_overlay_ok env (target o) (layers o)) eqn:Hok.
    + destruct (IH mq fb) as (H1 & H2 & H3). split; [done|]. split; [done|].
      intros op Hop Hf. apply elem_of_cons in Hop as [->|Hop]; [congruence|].
      by apply H3.
    + destruct (IH (mq ++ layers o) (fb ++ omap extract_id (layers o)))
        as (H1 & H2 & H3).
      split; [intros x Hx; apply H1; set_solver|].
      split; [intros x Hx; apply H2; set_solver|].
      intros op Hop Hf. apply elem_of_cons in Hop as [->|Hop].
      * split; intros x Hx; [apply H1|apply H2]; set_solver.
      * by apply H3.
Qed.

(** Claim C2 (amended): when an overlay operation with at least one layer
    fails, and the temporary directory [execute] picks ([config.tempdir],
    else [select_temp_dir]) exists and [ensure_temp_dir] succeeds on it,
    the magic engine is called on that directory with every layer of the
    failed operation together with the planned magic modules, and the id of
    each such layer is absent from the final overlay ids. If that engine
    call succeeds the id is present in the final magic ids; if it fails the
    final magic ids are empty. The final magic ids are sorted and free of
    duplicates. *)
Theorem execute_failed_overlay_reclassified (env : ExecEnv) (plan : MountPlan)
  (op : OverlayOperation) (t : path) :
  op ∈ overlay_ops plan ->
  mount_overlay_ok env (target op) (layers op) = false ->
  layers op <> [] ->
  chosen_tempdir env = Some t ->
  ensure_temp_dir_ok env t = true ->
  exists r q, execute env plan = {| result := Some r; magic_call := Some q |} /\
    (forall p, p ∈ magic_module_paths plan -> p ∈ q) /\
    (forall l, l ∈ layers op -> l ∈ q) /\
    (forall l i, l ∈ layers op -> file_name l = Some i -> i ∉ res_overlay_module_ids r) /\
    (magic_mount_ok env t q = true ->
       forall l i, l ∈ layers op -> file_name l = Some i -> i ∈ res_magic_module_ids r) /\
    (magic_mount_ok env t q = false -> res_magic_module_ids r = []) /\
    StronglySorted String.le (res_magic_module_ids r) /\
    NoDup (res_magic_module_ids r).
Proof.
  intros Hop Hfail Hne Ht Hens. unfold execute.
  destruct (phase_a_fold env (overlay_ops plan) (magic_module_paths plan) [])
    as (Hmq & _ & Hfb).
  destruct (Hfb op Hop Hfail) as [Hl Hi]. clear Hfb.
  destruct (foldl (phase_a_step env) (magic_module_paths plan, []) (overlay_ops plan))
    as [mq fb] eqn:Hfold. simpl in Hmq, Hl, Hi.
  assert (Hid : forall l i, l ∈ layers op -> file_name l = Some i -> i ∈ fb).
  { intros l i Hl' Hn. apply Hi. apply list_elem_of_omap. by exists l. }
  assert (Hfilter : forall i, i ∈ fb -> i ∉ match fb with
      | [] => overlay_module_ids plan
      | _ => filter (fun id => id ∉ fb) (overlay_module_ids plan) end).
  { intros i Hin. destruct fb as [|i0 fb']; [by apply elem_of_nil in Hin|].
    rewrite list_elem_of_filter. tauto. }
  destruct mq as [|p0 mq'].
  { destruct (layers op) as [|l0 ls]; [done|].
    exfalso. eapply elem_of_nil, Hl. left. }
  rewrite Ht, Hens.
  assert (Hs : forall l, StronglySorted String.le (dedup (sort_strings l)) /\
                         NoDup (dedup (sort_strings l))).
  { intros l. split; [apply dedup_StronglySorted, sort_strings_sorted|].
    apply (dedup_NoDup String.le), sort_strings_sorted. }
  destruct (magic_mount_ok env t (dedup (sort_paths (p0 :: mq')))) eqn:Hm;
    (eexists _, _; split; [reflexivity|]); cbn [res_overlay_module_ids res_magic_module_ids];
    (split; [intros p Hp; rewrite dedup_elem_of, sort_paths_elem_of; by apply Hmq|]);
    (split; [intros l Hl'; rewrite dedup_elem_of, sort_paths_elem_of; by apply Hl|]);
    (split; [intros l i Hl' Hn; rewrite dedup_elem_of, sort_strings_elem_of;
             apply Hfilter; by apply (Hid l)|]).
  - rewrite Hm. split; [|split; [intros H; discriminate|apply Hs]].
    intros _ l i Hl' Hn. rewrite dedup_elem_of, sort_strings_elem_of. apply list_elem_of_omap.
    exists l. split; [|done]. rewrite dedup_elem_of, sort_paths_elem_of. by apply Hl.
  - rewrite Hm. split; [intros H; discriminate|]. split; [done|]. split; constructor.
Qed.

(** The scenario of the spec: modules [a] and [b] share one overlay
    operation on [/vendor], whose mount fails. *)
Definition vendor_op : OverlayOperation :=
  {| target := ["vendor"]; layers := [["mods"; "a"]; ["mods"; "b"]] |}.

Definition vendor_plan : MountPlan :=
  {| overlay_ops := [vendor_op]; magic_module_paths := [];
     overlay_module_ids := ["a"; "b"]; magic_module_ids := [] |}.

(** Every overlay mount fails; the magic engine succeeds iff [magic_ok]. *)
Definition fallback_env (magic_ok : bool) : ExecEnv :=
  {| mount_overlay_ok := fun _ _ => false;
     config_tempdir := Some ["tmp"];
     select_temp_dir := None;
     ensure_temp_dir_ok := fun _ => true;
     magic_mount_ok := fun _ _ => magic_ok |}.

(** Claim C2, counterexample: when the magic engine then fails too,
    [final_magic_ids] is cleared, so the ids of the failed operation end in
    neither list although the engine was called with their paths. *)
Lemma execute_failed_overlay_magic_failure :
  execute (fallback_env false) vendor_plan =
    {| result := Some {| res_overlay_module_ids := [];
                         res_magic_module_ids := [] |};
       magic_call := Some [["mods"; "a"]; ["mods"; "b"]] |}.
Proof. vm_compute. reflexivity. Qed.

Lemma execute_failed_overlay_reclassified_witness :
  execute (fallback_env true) vendor_plan =
    {| result := Some {| res_overlay_module_ids := [];
                         res_magic_module_ids := ["a"; "b"] |};
       magic_call := Some [["mods"; "a"]; ["mods"; "b"]] |} /\
  exists r q, execute (fallback_env true) vendor_plan =
      {| result := Some r; magic_call := Some q |} /\
    (forall p, p ∈ magic_module_paths vendor_plan -> p ∈ q) /\
    (forall l, l ∈ layers vendor_op -> l ∈ q) /\
    (forall l i, l ∈ layers vendor_op -> file_name l = Some i ->
       i ∉ res_overlay_module_ids r) /\
    (magic_mount_ok (fallback_env true) ["tmp"] q = true ->
       forall l i, l ∈ layers vendor_op -> file_name l = Some i ->
         i ∈ res_magic_module_ids r) /\
    (magic_mount_ok (fallback_env true) ["tmp"] q = false -> res_magic_module_ids r = []) /\
    StronglySorted String.le (res_magic_module_ids r) /\
    NoDup (res_magic_module_ids r).
Proof.
  split; [vm_compute; reflexivity|].
  apply (execute_failed_overlay_reclassified (fallback_env true) vendor_plan vendor_op ["tmp"]).
  - left.
  - reflexivity.
  - discriminate.
  - reflexivity.
  - reflexivity.
Defined.

End ExecutorFacts.

(** ** State store *)
Module StateStoreFacts.
Import StateStore.

Lemma observable_chunks (sf : path) (fs : Files) :
  forall cs c k,
  <[sf := foldl (fun a s => a +:+ s) c (take k cs)]> fs
    ∈ observable (<[sf := c]> fs) (map (WriteChunk sf) cs).
Proof.
  induction cs as [|s cs IH]; intros c k.
  - rewrite take_nil. simpl. left.
  - destruct k as [|k].
    + simpl. left.
    + cbn [take foldl map observable]. right. cbn [apply_op].
      change Files with (gmap path string) in *.
      rewrite lookup_insert_eq, insert_insert_eq. apply IH.
Qed.

(** Claim C3 (code bug): [save] is a plain [fs::write] of the state file:
    none of its operations is a rename, and between them a reader can
    observe the state file truncated to empty and then holding every prefix
    of the serialized state, chunk by chunk. *)
Theorem save_exposes_partial_state (state_file : path) (json_chunks : list string)
  (fs : Files) :
  (forall op, op ∈ save state_file json_chunks -> forall src dst, op <> Rename src dst) /\
  forall k,
    <[state_file := foldl (fun a s => a +:+ s) "" (take k json_chunks)]> fs
      ∈ observable fs (save state_file json_chunks).
Proof.
  split.
  - intros op Hop src dst ->. unfold save, fs_write in Hop.
    apply elem_of_cons in Hop as [Hop|Hop]; [discriminate|].
    apply list_elem_of_fmap in Hop as (s & Hs & _). discriminate.
  - intros k. unfold save, fs_write. simpl. right. apply observable_chunks.
Qed.

End StateStoreFacts.

(** ** Granary: the Ratoon protocol and the silo store *)
Module GranaryFacts.
Import Granary.

(** ** Resolving silo ids *)

(** The id contains a separator ['/']. *)
Fixpoint has_slash (s : string) : bool :=
  match s with
  | EmptyString => false
  | String c rest => Ascii.eqb c "/" || has_slash rest
  end.

Lemma has_slash_app (a b : string) : has_slash (a +:+ b) = has_slash a || has_slash b.
Proof.
  induction a as [|c a IH]; [done|].
  change (Ascii.eqb c "/" || has_slash (a +:+ b) = (Ascii.eqb c "/" || has_slash a) || has_slash b).
  rewrite IH. apply orb_assoc.
Qed.

Lemma str_length_app (a b : string) :
  String.length (a +:+ b) = String.length a + String.length b.
Proof.
  induction a as [|c a IH]; [done|].
  change (S (String.length (a +:+ b)) = S (String.length a + String.length b)). by rewrite IH.
Qed.

Lemma split_slash_plain (s : string) : has_slash s = false -> split_slash s = [s].
Proof.
  induction s as [|c s IH]; [done|]. simpl. intros H.
  apply orb_false_iff in H as [Hc Hs]. rewrite Hc, (IH Hs). reflexivity.
Qed.

Lemma under_granary_app (nm : string) : under_granary (GRANARY_DIR ++ [nm]) = Some nm.
Proof. reflexivity. Qed.

Lemma under_granary_Some (q : path) (nm : string) :
  under_granary q = Some nm -> q = GRANARY_DIR ++ [nm].
Proof.
  destruct q as [|a [|b [|c [|d [|e [|f q]]]]]]; simpl; try discriminate.
  case_decide as Hd; [|discriminate]. intros [= <-].
  injection Hd as -> -> -> ->. reflexivity.
Qed.

Lemma lookup_entry_granary fs (nm : string) :
  lookup_entry fs (GRANARY_DIR ++ [nm]) = granary fs !! nm.
Proof. unfold lookup_entry. by rewrite under_granary_app. Qed.

(** An id without a separator names the entry [<id>.json] of the granary
    directory, when that directory exists. *)
Lemma silo_path_plain fs (sid : string) :
  has_slash sid = false ->
  silo_path fs sid = if granary_exists fs then Some (GRANARY_DIR ++ [silo_file sid]) else None.
Proof.
  intros Hs. unfold silo_path.
  assert (Hf : has_slash (silo_file sid) = false)
    by (unfold silo_file; rewrite has_slash_app, Hs; reflexivity).
  rewrite (split_slash_plain _ Hf).
  assert (Hstart : match silo_file sid with
                   | String c _ => if Ascii.eqb c "/" then [] else GRANARY_DIR
                   | EmptyString => GRANARY_DIR end = GRANARY_DIR).
  { destruct (silo_file sid) as [|c r]; [done|]. simpl in Hf.
    apply orb_false_iff in Hf as [-> _]. done. }
  rewrite Hstart.
  assert (Hlen : 5 <= String.length (silo_file sid))
    by (unfold silo_file; rewrite str_length_app; simpl; lia).
  assert (Hne : forall t, String.length t < 5 -> String.eqb (silo_file sid) t = false).
  { intros t Ht. apply String.eqb_neq. intros E. rewrite E in Hlen. lia. }
  cbn [walk]. rewrite (Hne "") by (simpl; lia).
  unfold is_dir at 1. rewrite decide_True by done.
  destruct (granary_exists fs); [|done].
  rewrite (Hne ".") by (simpl; lia). rewrite (Hne "..") by (simpl; lia). reflexivity.
Qed.




Lemma walk_ext (f g : path -> bool) cur cs :
  (forall q, f q = g q) -> walk f cur cs = walk g cur cs.
Proof.
  intros Hfg. revert cur. induction cs as [|c cs IH]; intros cur; simpl; [done|].
  rewrite Hfg. destruct (String.eqb c ""); [apply IH|].
  destruct (g cur); [apply IH|done].
Qed.

(** [remove_file] of one entry changes that entry only. *)
Lemma lookup_remove_entry fs p q :
  lookup_entry (remove_entry fs p) q = if decide (q = p) then None else lookup_entry fs q.
Proof.
  unfold remove_entry. destruct (under_granary p) as [nm|] eqn:Hp.
  - apply under_granary_Some in Hp as ->. unfold lookup_entry at 1. cbn [granary with_granary].
    destruct (under_granary q) as [nm'|] eqn:Hq.
    + apply under_granary_Some in Hq as ->.
      destruct (decide (nm' = nm)) as [->|Hne].
      * rewrite decide_True by done. apply lookup_delete_eq.
      * rewrite decide_False by (intros E; apply app_inj_2 in E as [_ [= E]]; done).
        rewrite lookup_delete_ne by done. symmetry. apply lookup_entry_granary.
    + rewrite decide_False by (intros ->; by rewrite under_granary_app in Hq).
      unfold lookup_entry. by rewrite Hq.
  - unfold lookup_entry at 1. cbn [others with_others granary].
    destruct (under_granary q) as [nm'|] eqn:Hq.
    + rewrite decide_False by (intros ->; congruence).
      unfold lookup_entry. by rewrite Hq.
    + destruct (decide (q = p)) as [->|Hne]; [apply lookup_delete_eq|].
      rewrite lookup_delete_ne by done. unfold lookup_entry. by rewrite Hq.
Qed.

Lemma granary_exists_remove_entry fs p :
  granary_exists (remove_entry fs p) = granary_exists fs.
Proof. unfold remove_entry. by destruct (under_granary p). Qed.

(** Removing a file that is not a directory leaves every path resolving as
    before. *)
Lemma silo_path_remove_entry fs p sid :
  match lookup_entry fs p with Some GDir => False | _ => True end ->
  silo_path (remove_entry fs p) sid = silo_path fs sid.
Proof.
  intros Hp. unfold silo_path. apply walk_ext. intros q. unfold is_dir.
  rewrite granary_exists_remove_entry, lookup_remove_entry.
  destruct (decide (q = GRANARY_DIR)); [done|]. destruct (decide (q = [])); [done|].
  destruct (decide (q = p)) as [->|]; [|done].
  by destruct (lookup_entry fs p) as [[| |]|].
Qed.

(** ** The listing *)

(** Every [.json] entry is a silo stored as [<id>.json] whose id is
    [silo_<timestamp>]. *)
Definition entries_wf (g : gmap string GEntry) : Prop :=
  forall k e, g !! k = Some e -> has_json_ext k = true ->
  exists s, e = GFile (Some s) /\ k = silo_file (id s) /\ id s = silo_id_of (timestamp s).

(** The shape [create_silo] gives the granary: the directory can be listed,
    has no entries when it is missing, and every [.json] entry is a silo
    stored as [<id>.json] whose id is [silo_<timestamp>]. *)
Definition granary_wf (fs : GranaryFs) : Prop :=
  granary_listable fs = true /\ (granary_exists fs = false -> granary fs = ∅) /\
  entries_wf (granary fs).

Lemma unreadable_json_wf g : entries_wf g -> unreadable_json g = false.
Proof.
  intros Hwf. apply not_true_iff_false. intros H.
  apply existsb_exists in H as ([k e] & Hin & Hb).
  apply (proj2 (list_elem_of_In _ _)), elem_of_map_to_list in Hin.
  apply andb_true_iff in Hb as [Hj Hu].
  destruct (Hwf k e Hin Hj) as (s & -> & _). discriminate.
Qed.

Lemma list_silos_wf fs : granary_wf fs -> list_silos fs = Some (sorted_silos (granary fs)).
Proof.
  intros (Hl & He & Hwf). unfold list_silos.
  destruct (granary_exists fs) eqn:Hex; simpl.
  - rewrite Hl. simpl. by rewrite unreadable_json_wf.
  - rewrite (He eq_refl). reflexivity.
Qed.


Lemma elem_of_parsed_silos g s :
  s ∈ parsed_silos g <-> exists k, g !! k = Some (GFile (Some s)) /\ has_json_ext k = true.
Proof.
  unfold parsed_silos. rewrite list_elem_of_omap. split.
  - intros ([k e] & Hin & Hf). apply elem_of_map_to_list in Hin.
    simpl in Hf. destruct (has_json_ext k) eqn:Hj; [|done].
    destruct e as [[s'|]| |]; simplify_eq/=. by exists k.
  - intros (k & Hk & Hj). exists (k, GFile (Some s)). split.
    + by apply elem_of_map_to_list.
    + simpl. by rewrite Hj.
Qed.

Lemma elem_of_sorted_silos g s : s ∈ sorted_silos g <-> s ∈ parsed_silos g.
Proof. unfold sorted_silos. by rewrite merge_sort_Permutation. Qed.



#[local] Instance newer_or_same_total : Total newer_or_same.
Proof. intros a b. unfold newer_or_same. lia. Qed.

#[local] Instance newer_or_same_trans : Transitive newer_or_same.
Proof. intros a b c. unfold newer_or_same. lia. Qed.



(** ** Pruning *)




Lemma entries_wf_sub g g' :
  entries_wf g -> (forall k c, g' !! k = Some c -> g !! k = Some c) -> entries_wf g'.
Proof. intros Hwf Hsub k c Hk. apply Hwf. by apply Hsub. Qed.









(** ** The Ratoon protocol *)






Lemma restore_with_counter (fs : GranaryFs) c :
  restore_latest_silo (with_counter fs c) =
  option_map (fun fs2 => with_counter fs2 c) (restore_latest_silo fs).
Proof.
  unfold restore_latest_silo. change (list_silos (with_counter fs c)) with (list_silos fs).
  destruct (list_silos fs) as [[|latest rest]|]; [done| |done].
  unfold restore_silo. change (silo_entry (with_counter fs c) (id latest))
    with (silo_entry fs (id latest)).
  destruct (silo_entry fs (id latest)) as [[[s|]| |]|]; try done.
  change (config_writable (with_counter fs c)) with (config_writable fs).
  by destruct (config_writable fs).
Qed.








(** ** Creating silos *)







End GranaryFacts.

(** ** Overlay engine *)
Module OverlayFacts.
Import Overlay.

(** The length [mount_overlayfs_staged] accounts for a batch: one byte
    per directory name plus one separator each. *)
Definition batch_len (b : list string) : nat :=
  fold_right (fun d acc => String.length d + 1 + acc) 0 b.

(** Consecutive batches are maximal: the next batch's first directory
    would not have fit in the previous batch. *)
Fixpoint greedy (bs : list (list string)) : Prop :=
  match bs with
  | b1 :: ((b2 :: _) as rest) =>
      (forall d, head b2 = Some d -> SAFE_CHUNK_SIZE < batch_len b1 + String.length d + 1)
      /\ greedy rest
  | _ => True
  end.

Lemma string_length_app (a b : string) :
  String.length (a +:+ b) = String.length a + String.length b.
Proof. induction a as [|c a IH]; simpl; [done|]. by rewrite IH. Qed.

Lemma batch_len_app (b1 b2 : list string) :
  batch_len (b1 ++ b2) = batch_len b1 + batch_len b2.
Proof. induction b1 as [|d b1 IH]; simpl; [done|]. rewrite IH. lia. Qed.

Lemma join_colon_length (b : list string) :
  b <> [] -> String.length (join_colon b) + 1 = batch_len b.
Proof.
  unfold join_colon. induction b as [|d b IH]; intros Hne; [done|].
  destruct b as [|d' b'].
  - simpl. lia.
  - change (String.concat ":" (d :: d' :: b'))
      with (d +:+ ":" +:+ String.concat ":" (d' :: b')).
    rewrite !string_length_app. simpl in IH |- *.
    rewrite <- (IH ltac:(done)). simpl. lia.
Qed.

Lemma greedy_snoc_same_head (l : list (list string)) x x' :
  head x = head x' -> greedy (l ++ [x]) -> greedy (l ++ [x']).
Proof.
  intros Hh. induction l as [|b1 [|b2 l] IH]; simpl; [done| |].
  - intros [H _]. split; [|done]. intros d Hd. apply H. by rewrite Hh.
  - intros [H Hg]. split; [done|]. by apply IH.
Qed.

Lemma greedy_snoc2 (l : list (list string)) x y :
  greedy (l ++ [x]) ->
  (forall d, head y = Some d -> SAFE_CHUNK_SIZE < batch_len x + String.length d + 1) ->
  greedy (l ++ [x; y]).
Proof.
  intros Hg Hxy. induction l as [|b1 [|b2 l] IH]; simpl in *.
  - done.
  - destruct Hg as [H _]. done.
  - destruct Hg as [H Hg]. split; [done|]. by apply IH.
Qed.

(** The invariant of the batching loop. *)
Lemma chunk_go_spec (dirs : list string) :
  (forall d, d ∈ dirs -> String.length d + 1 <= SAFE_CHUNK_SIZE) ->
  forall batches cur len,
  len = batch_len cur -> len <= SAFE_CHUNK_SIZE ->
  (cur = [] -> batches = []) ->
  Forall (fun b => b <> [] /\ batch_len b <= SAFE_CHUNK_SIZE) batches ->
  greedy (batches ++ [cur]) ->
  let r := chunk_go dirs batches cur len in
  concat r = concat batches ++ cur ++ dirs /\
  Forall (fun b => b <> [] /\ batch_len b <= SAFE_CHUNK_SIZE) r /\
  greedy r.
Proof.
  induction dirs as [|d dirs IH]; intros Hd batches cur len Hlen Hle Hcur Hall Hg r;
    subst r; simpl.
  - destruct cur as [|c cur'].
    + rewrite (Hcur eq_refl). simpl. done.
    + rewrite concat_app. simpl. rewrite app_nil_r.
      split; [done|]. split; [|done].
      apply Forall_app. split; [done|]. apply Forall_singleton. split; [done|lia].
  - assert (Hd' : forall d', d' ∈ dirs -> String.length d' + 1 <= SAFE_CHUNK_SIZE).
    { intros d' H. apply Hd. by right. }
    assert (Hdd : String.length d + 1 <= SAFE_CHUNK_SIZE) by (apply Hd; left).
    destruct (decide (SAFE_CHUNK_SIZE < len + String.length d + 1)) as [Hover|Hfit].
    + destruct cur as [|c cur'].
      { simpl in Hlen. lia. }
      destruct (IH Hd' (batches ++ [c :: cur']) [d] (String.length d + 1))
        as (Hc & Hf & Hgr).
      * simpl. lia.
      * done.
      * done.
      * apply Forall_app. split; [done|]. apply Forall_singleton.
        split; [done|]. lia.
      * rewrite <- app_assoc. apply greedy_snoc2; [done|].
        intros d' [= <-]. lia.
      * split; [|done]. rewrite Hc, concat_app. simpl.
        rewrite app_nil_r, <- !app_assoc. done.
    + destruct (IH Hd' batches (cur ++ [d]) (len + String.length d + 1))
        as (Hc & Hf & Hgr).
      * rewrite batch_len_app. simpl. lia.
      * lia.
      * by destruct cur.
      * done.
      * destruct cur as [|c cur'].
        -- rewrite (Hcur eq_refl). done.
        -- by apply (greedy_snoc_same_head batches (c :: cur')).
      * split; [|done]. rewrite Hc, <- app_assoc. done.
Qed.

Lemma chunk_go_concat (dirs : list string) :
  forall batches cur len,
  concat (chunk_go dirs batches cur len) = concat batches ++ cur ++ dirs.
Proof.
  induction dirs as [|d dirs IH]; intros batches cur len; simpl.
  - destruct cur; simpl; [by rewrite !app_nil_r|].
    rewrite concat_app. simpl. by rewrite app_nil_r.
  - case_decide.
    + rewrite IH, concat_app. simpl. by rewrite app_nil_r, <- !app_assoc.
    + rewrite IH, <- app_assoc. done.
Qed.

Lemma make_batches_concat (dirs : list string) : concat (make_batches dirs) = dirs.
Proof. unfold make_batches. by rewrite chunk_go_concat. Qed.

Lemma make_batches_shape (dirs : list string) :
  (forall d, d ∈ dirs -> String.length d + 1 <= SAFE_CHUNK_SIZE) ->
  Forall (fun b => b <> [] /\ batch_len b <= SAFE_CHUNK_SIZE) (make_batches dirs) /\
  greedy (make_batches dirs).
Proof.
  intros Hd. unfold make_batches.
  destruct (chunk_go_spec dirs Hd [] [] 0) as (_ & Hf & Hg); simpl; try done; lia.
Qed.

Lemma mounted_after_app acc e1 e2 :
  mounted_after acc (e1 ++ e2) = mounted_after (mounted_after acc e1) e2.
Proof.
  revert acc. induction e1 as [|e e1 IH]; intros acc; [done|].
  destruct e; simpl; apply IH.
Qed.

Lemma dirs_after_app acc e1 e2 :
  dirs_after acc (e1 ++ e2) = dirs_after (dirs_after acc e1) e2.
Proof.
  revert acc. induction e1 as [|e e1 IH]; intros acc; [done|].
  destruct e; simpl; apply IH.
Qed.

Lemma stage_loop_success env dest n (bs : list (list string)) :
  forall i base guard ev ev' guard',
  i + length bs = n -> bs <> [] ->
  stage_loop env dest n bs i base guard ev = (ev', guard', true) ->
  mounts_of ev' = mounts_of ev ++ spec_staged_mounts env dest bs i base.
Proof.
  induction bs as [|b rest IH]; intros i base guard ev ev' guard' Hn Hne H; [done|].
  simpl in H. destruct rest as [|b' rest']; simpl in Hn.
  - rewrite (proj2 (Nat.eqb_eq i (n - 1))) in H by lia.
    destruct (do_mount_ok env _ None None dest); [|done].
    simpl in H. injection H as <- <-.
    unfold mounts_of. rewrite omap_app. done.
  - rewrite (proj2 (Nat.eqb_neq i (n - 1))) in H by (simpl in Hn; lia).
    destruct (mkdir_ok env (stage_dir env i)); [|done].
    destruct (do_mount_ok env _ None None (stage_dir env i)); [|done].
    rewrite (IH (S i) _ _ _ _ _ ltac:(simpl; lia) ltac:(done) H).
    unfold mounts_of. rewrite omap_app. simpl. rewrite <- app_assoc. done.
Qed.

Lemma stage_loop_failure env dest n (bs : list (list string)) :
  forall i base guard ev ev' guard',
  i + length bs = n ->
  mounted_after [] ev = guard -> (forall l p, Mount l p ∈ ev -> p ∈ guard) ->
  stage_loop env dest n bs i base guard ev = (ev', guard', false) ->
  mounted_after [] ev' = guard' /\ (forall l p, Mount l p ∈ ev' -> p ∈ guard').
Proof.
  induction bs as [|b rest IH]; intros i base guard ev ev' guard' Hn Hm Hin H;
    simpl in H; [done|].
  simpl in Hn. destruct (Nat.eqb i (n - 1)) eqn:Hlast.
  - destruct (do_mount_ok env _ None None dest).
    + apply Nat.eqb_eq in Hlast. destruct rest; [done|]. simpl in Hn. lia.
    + by injection H as <- <-.
  - destruct (mkdir_ok env (stage_dir env i)); [|by injection H as <- <-].
    destruct (do_mount_ok env _ None None (stage_dir env i)).
    + apply (IH (S i) _ _ _ _ _ ltac:(lia)) in H; [done| |].
      * rewrite mounted_after_app, Hm. done.
      * intros l p Hp. apply elem_of_app in Hp as [Hp|Hp].
        -- apply elem_of_app. left. by apply (Hin l).
        -- apply elem_of_app. right. apply elem_of_cons in Hp as [Hp|Hp]; [done|].
           apply elem_of_cons in Hp as [[= _ ->]|Hp]; [by left|].
           by apply elem_of_nil in Hp.
    + injection H as <- <-. split.
      * rewrite mounted_after_app, Hm. done.
      * intros l p Hp. apply elem_of_app in Hp as [Hp|Hp]; [by apply (Hin l)|].
        apply elem_of_cons in Hp as [Hp|Hp]; [done|]. by apply elem_of_nil in Hp.
Qed.

Lemma mounted_after_cleanup (L : list path) :
  forall acc, (forall p, p ∈ acc -> p ∈ L) ->
  mounted_after acc (flat_map (fun p => [Umount p; Rmdir p]) L) = [].
Proof.
  induction L as [|q L IH]; intros acc Hacc; simpl.
  - destruct acc as [|p acc]; [done|]. exfalso. eapply elem_of_nil, Hacc. left.
  - apply IH. intros p Hp. apply list_elem_of_filter in Hp as [Hne Hp].
    apply Hacc in Hp. apply elem_of_cons in Hp as [->|Hp]; [done|done].
Qed.

Lemma dirs_after_cleanup (L : list path) :
  forall acc p, p ∈ L \/ p ∉ acc ->
  p ∉ dirs_after acc (flat_map (fun p => [Umount p; Rmdir p]) L).
Proof.
  induction L as [|q L IH]; intros acc p Hp; simpl.
  - destruct Hp as [Hp|Hp]; [by apply elem_of_nil in Hp|done].
  - apply IH. destruct (decide (p = q)) as [->|Hne].
    + right. rewrite list_elem_of_filter. tauto.
    + destruct Hp as [Hp|Hp].
      * left. by apply elem_of_cons in Hp as [?|?].
      * right. rewrite list_elem_of_filter. tauto.
Qed.

Lemma elem_of_rev {A} (l : list A) x : x ∈ rev l <-> x ∈ l.
Proof. rewrite !list_elem_of_In. symmetry. apply in_rev. Qed.

Lemma mount_overlayfs_staged_failure env dirs lowest dest ev :
  mount_overlayfs_staged env dirs lowest dest = (ev, false) ->
  mounted_after [] ev = [] /\ (forall l sd, Mount l sd ∈ ev -> sd ∉ dirs_after [] ev).
Proof.
  unfold mount_overlayfs_staged.
  destruct (negb (staging_root_ok env)).
  { intros [= <-]. split; [done|]. intros l sd Hin. by apply elem_of_nil in Hin. }
  destruct (stage_loop env dest (length (make_batches dirs)) (rev (make_batches dirs))
              0 lowest [] []) as [[ev0 guard] ok] eqn:Hs.
  destruct ok; [done|]. intros [= <-].
  destruct (stage_loop_failure env dest _ _ _ _ _ _ _ _
              ltac:(by rewrite length_rev) eq_refl ltac:(intros l p Hp; by apply elem_of_nil in Hp) Hs)
    as [Hm Hin].
  unfold guard_cleanup. split.
  - rewrite mounted_after_app, Hm. apply mounted_after_cleanup.
    intros p Hp. by apply elem_of_rev.
  - intros l sd Hsd. rewrite dirs_after_app. apply dirs_after_cleanup. left.
    apply elem_of_rev. apply elem_of_app in Hsd as [Hsd|Hsd]; [by apply (Hin l)|].
    exfalso. apply list_elem_of_In, in_flat_map in Hsd as (p & _ & Hp).
    simpl in Hp. naive_solver.
Qed.

(** Claim C7 (amended): the staged path is taken only once the direct
    mount has failed, and then exactly when the lowerdir string is at least
    [PAGE_LIMIT] = 4000 bytes long and neither an upperdir nor a workdir was
    requested.  The layers are cut, in order, into batches; when every
    directory name fits in a batch on its own, each batch is non-empty, its
    accounted length (and so its joined string) stays within
    [SAFE_CHUNK_SIZE] = 3500 bytes, and no batch could have taken the first
    directory of the next one.  A successful staged run mounts the batches
    in reverse order, each non-final one on a staging directory over the
    current base and the final one on the destination; a failed one leaves
    no mount behind, and no directory of a staging mount it made. *)
Theorem mount_overlayfs_staging_amended (env : OvEnv) (lower_dirs : list string)
  (lowest : string) (upperdir workdir : option path) (dest : path) :
  (do_mount_ok env (join_colon (lower_dirs ++ [lowest])) upperdir workdir dest = true ->
   mount_overlayfs env lower_dirs lowest upperdir workdir dest =
     ([Mount (join_colon (lower_dirs ++ [lowest])) dest], true)) /\
  (do_mount_ok env (join_colon (lower_dirs ++ [lowest])) upperdir workdir dest = false ->
   PAGE_LIMIT <= String.length (join_colon (lower_dirs ++ [lowest])) ->
   upperdir = None -> workdir = None ->
   mount_overlayfs env lower_dirs lowest upperdir workdir dest =
     mount_overlayfs_staged env lower_dirs lowest dest) /\
  (do_mount_ok env (join_colon (lower_dirs ++ [lowest])) upperdir workdir dest = false ->
   String.length (join_colon (lower_dirs ++ [lowest])) < PAGE_LIMIT \/
   is_Some upperdir \/ is_Some workdir ->
   mount_overlayfs env lower_dirs lowest upperdir workdir dest = ([], false)) /\
  concat (make_batches lower_dirs) = lower_dirs /\
  ((forall d, d ∈ lower_dirs -> String.length d + 1 <= SAFE_CHUNK_SIZE) ->
   Forall (fun b => b <> [] /\ batch_len b <= SAFE_CHUNK_SIZE /\
                    String.length (join_colon b) <= SAFE_CHUNK_SIZE)
     (make_batches lower_dirs) /\
   greedy (make_batches lower_dirs)) /\
  (lower_dirs <> [] -> forall ev,
   mount_overlayfs_staged env lower_dirs lowest dest = (ev, true) ->
   mounts_of ev = spec_staged_mounts env dest (rev (make_batches lower_dirs)) 0 lowest) /\
  (forall ev, mount_overlayfs_staged env lower_dirs lowest dest = (ev, false) ->
   mounted_after [] ev = [] /\
   forall l sd, Mount l sd ∈ ev -> sd ∉ dirs_after [] ev).
Proof.
  split; [|split; [|split; [|split; [|split; [|split]]]]].
  - intros Hok. unfold mount_overlayfs. by rewrite Hok.
  - intros Hfail Hlen -> ->. unfold mount_overlayfs. rewrite Hfail.
    rewrite decide_True by done. done.
  - intros Hfail Hcase. unfold mount_overlayfs. rewrite Hfail.
    case_decide as Hlen; [|done].
    destruct Hcase as [Hlt|[[u ->]|[w ->]]]; [lia| |].
    + done.
    + by destruct upperdir.
  - apply make_batches_concat.
  - intros Hd. destruct (make_batches_shape lower_dirs Hd) as [Hf Hg].
    split; [|done]. eapply Forall_impl; [exact Hf|]. intros b [Hne Hle].
    split; [done|]. split; [done|]. rewrite <- (join_colon_length b Hne) in Hle. lia.
  - intros Hne ev. unfold mount_overlayfs_staged.
    destruct (negb (staging_root_ok env)); [done|].
    destruct (stage_loop env dest (length (make_batches lower_dirs))
                (rev (make_batches lower_dirs)) 0 lowest [] []) as [[ev0 guard] ok] eqn:Hs.
    destruct ok; [|done]. intros [= <-].
    assert (Hbne : rev (make_batches lower_dirs) <> []).
    { intros Hnil. apply (f_equal length) in Hnil. rewrite length_rev in Hnil.
      apply Hne. transitivity (concat (make_batches lower_dirs)).
      - symmetry. apply make_batches_concat.
      - by destruct (make_batches lower_dirs). }
    by rewrite (stage_loop_success env dest (length (make_batches lower_dirs))
                  (rev (make_batches lower_dirs)) 0 lowest [] [] ev0 guard
                  ltac:(by rewrite length_rev) Hbne Hs).
  - apply mount_overlayfs_staged_failure.
Qed.

(** A kernel that refuses lowerdir strings of a page or more. *)
Definition page_env : OvEnv :=
  {| do_mount_ok := fun lower _ _ _ => bool_decide (String.length lower < PAGE_LIMIT);
     run_dir := ["dev"; "meta-hybrid"];
     staging_root_ok := true;
     mkdir_ok := fun _ => true;
     now_nanos := fun i => (1000 + N.of_nat i)%N |}.

(** A kernel that takes any lowerdir string. *)
Definition roomy_env : OvEnv :=
  {| do_mount_ok := fun _ _ _ _ => true;
     run_dir := ["dev"; "meta-hybrid"];
     staging_root_ok := true;
     mkdir_ok := fun _ => true;
     now_nanos := fun i => (1000 + N.of_nat i)%N |}.

(** Three hundred module layers, some 9500 bytes once joined. *)
Definition many_layers : list string :=
  map (fun i => "/data/adb/modules/mod" +:+ pretty (N.of_nat i) +:+ "/system")
    (seq 0 300).

(** Claim C7, counterexample: the lowerdir string exceeds the page limit,
    no upperdir or workdir is given, yet the direct mount succeeds and no
    staging takes place: one mount, on the destination. *)
Lemma mount_overlayfs_long_direct :
  PAGE_LIMIT <= String.length (join_colon (many_layers ++ ["/system"])) /\
  mount_overlayfs roomy_env many_layers "/system" None None ["system"] =
    ([Mount (join_colon (many_layers ++ ["/system"])) ["system"]], true).
Proof. split; [apply Nat.leb_le|]; vm_compute; reflexivity. Qed.

Lemma mount_overlayfs_staging_amended_witness :
  length (make_batches many_layers) = 3 /\
  snd (mount_overlayfs page_env many_layers "/system" None None ["system"]) = true /\
  mount_overlayfs page_env many_layers "/system" None None ["system"] =
    mount_overlayfs_staged page_env many_layers "/system" ["system"] /\
  let env := page_env in let lower_dirs := many_layers in let lowest := "/system" in
  let upperdir : option path := None in let workdir : option path := None in
  let dest := ["system"] in
  (do_mount_ok env (join_colon (lower_dirs ++ [lowest])) upperdir workdir dest = true ->
   mount_overlayfs env lower_dirs lowest upperdir workdir dest =
     ([Mount (join_colon (lower_dirs ++ [lowest])) dest], true)) /\
  (do_mount_ok env (join_colon (lower_dirs ++ [lowest])) upperdir workdir dest = false ->
   PAGE_LIMIT <= String.length (join_colon (lower_dirs ++ [lowest])) ->
   upperdir = None -> workdir = None ->
   mount_overlayfs env lower_dirs lowest upperdir workdir dest =
     mount_overlayfs_staged env lower_dirs lowest dest) /\
  (do_mount_ok env (join_colon (lower_dirs ++ [lowest])) upperdir workdir dest = false ->
   String.length (join_colon (lower_dirs ++ [lowest])) < PAGE_LIMIT \/
   is_Some upperdir \/ is_Some workdir ->
   mount_overlayfs env lower_dirs lowest upperdir workdir dest = ([], false)) /\
  concat (make_batches lower_dirs) = lower_dirs /\
  ((forall d, d ∈ lower_dirs -> String.length d + 1 <= SAFE_CHUNK_SIZE) ->
   Forall (fun b => b <> [] /\ batch_len b <= SAFE_CHUNK_SIZE /\
                    String.length (join_colon b) <= SAFE_CHUNK_SIZE)
     (make_batches lower_dirs) /\
   greedy (make_batches lower_dirs)) /\
  (lower_dirs <> [] -> forall ev,
   mount_overlayfs_staged env lower_dirs lowest dest = (ev, true) ->
   mounts_of ev = spec_staged_mounts env dest (rev (make_batches lower_dirs)) 0 lowest) /\
  (forall ev, mount_overlayfs_staged env lower_dirs lowest dest = (ev, false) ->
   mounted_after [] ev = [] /\
   forall l sd, Mount l sd ∈ ev -> sd ∉ dirs_after [] ev).
Proof.
  split; [vm_compute; reflexivity|]. split; [vm_compute; reflexivity|]. split.
  - destruct (mount_overlayfs_staging_amended page_env many_layers "/system" None None
               ["system"]) as (_ & Hstaged & _).
    apply Hstaged.
    + vm_compute. reflexivity.
    + apply Nat.leb_le. vm_compute. reflexivity.
    + reflexivity.
    + reflexivity.
  - exact (mount_overlayfs_staging_amended page_env many_layers "/system" None None ["system"]).
Defined.

End OverlayFacts.

(** ** Magic mount *)
Module MagicFacts.
Import Magic.

(** Whether a tmpfs is in effect in [handle_directory]: inherited from the
    parent, needed by a child, or created here. *)
Definition tmpfs_in_effect (env : MagicEnv) (n : Node) (p : path) (has_tmpfs0 : bool) : bool :=
  let '(_, self_has_tmpfs, create_tmpfs) := dir_tmpfs env n p has_tmpfs0 in
  self_has_tmpfs || create_tmpfs.

(** The children as the two loops of [handle_directory] see them. *)
Definition dir_items (env : MagicEnv) (n : Node) (p : path) (has_tmpfs0 : bool)
  (rec : bool -> list (list MEvent * bool)) : list Item :=
  let '(sk, self_has_tmpfs, create_tmpfs) := dir_tmpfs env n p has_tmpfs0 in
  zip (zip (map fst (children n)) sk) (rec (self_has_tmpfs || create_tmpfs)).

(** No failed child among the events. *)
Definition no_fail (ev : list MEvent) : Prop := forall nm, ChildDone nm false ∉ ev.

(** The events end with the first failed child. *)
Definition fails_last (ev : list MEvent) : Prop :=
  exists pre nm, ev = pre ++ [ChildDone nm false] /\ no_fail pre.

(** The shape of a run in a tmpfs: it succeeds with no failed child, or it
    fails, at the latest right after the first failed child. *)
Definition tmpfs_outcome (r : list MEvent * bool) : Prop :=
  (r.2 = true /\ no_fail r.1) \/ (r.2 = false /\ (no_fail r.1 \/ fails_last r.1)).

Lemma no_fail_app ev1 ev2 : no_fail (ev1 ++ ev2) <-> no_fail ev1 /\ no_fail ev2.
Proof.
  unfold no_fail. split.
  - intros H. split; intros nm Hin; apply (H nm); apply elem_of_app; auto.
  - intros [H1 H2] nm Hin. apply elem_of_app in Hin as [Hin|Hin]; [by apply (H1 nm)|by apply (H2 nm)].
Qed.

Lemma no_fail_cons e ev :
  no_fail (e :: ev) <-> (forall nm, e <> ChildDone nm false) /\ no_fail ev.
Proof.
  unfold no_fail. split.
  - intros H. split.
    + intros nm ->. apply (H nm). left.
    + intros nm Hin. apply (H nm). by right.
  - intros [He H] nm Hin. apply elem_of_cons in Hin as [Hin|Hin]; [by apply (He nm)|by apply (H nm)].
Qed.

Lemma no_fail_nil : no_fail [].
Proof. intros nm Hin. by apply elem_of_nil in Hin. Qed.

Lemma run_child_ok it :
  (run_child it).2 = true -> no_fail (run_child it).1.
Proof.
  destruct it as [[nm sk] [cev cok]]. simpl. intros ->.
  repeat (apply no_fail_cons; split; [intros ? ?; discriminate|]). apply no_fail_nil.
Qed.

Lemma run_child_fail ev it :
  no_fail ev -> (run_child it).2 = false -> fails_last (ev ++ (run_child it).1).
Proof.
  destruct it as [[nm sk] [cev cok]]. simpl. intros Hev ->.
  exists (ev ++ [ChildStart nm; SubTree nm cev]), nm. split.
  - by rewrite <- app_assoc.
  - apply no_fail_app. split; [done|].
    repeat (apply no_fail_cons; split; [intros ? ?; discriminate|]). apply no_fail_nil.
Qed.

Lemma live_loop_tmpfs env p w entries :
  forall its ev, no_fail ev ->
  let '(ev', _, ok) := live_loop env p w true entries its ev in
  tmpfs_outcome (ev', ok).
Proof.
  induction entries as [|nm rest IH]; intros its ev Hev; simpl.
  - left. done.
  - destruct (remove_item nm its) as [[it its']|].
    + destruct it.1.2; [by apply IH|].
      destruct (run_child it) as [cev cok] eqn:Hrc. simpl.
      destruct cok.
      * apply IH. apply no_fail_app. split; [done|].
        replace cev with (run_child it).1 by (by rewrite Hrc). apply run_child_ok. by rewrite Hrc.
      * right. split; [done|]. right.
        replace cev with (run_child it).1 by (by rewrite Hrc). apply run_child_fail; [done|]. by rewrite Hrc.
    + destruct (mirror_ok env p w nm).
      * apply IH. apply no_fail_app. split; [done|].
        repeat (apply no_fail_cons; split; [intros ? ?; discriminate|]). apply no_fail_nil.
      * right. split; [done|]. right. exists (ev ++ [Mirror nm]), nm. split.
        -- by rewrite <- app_assoc.
        -- apply no_fail_app. split; [done|].
           apply no_fail_cons. split; [intros ? ?; discriminate|apply no_fail_nil].
Qed.

Lemma child_loop_tmpfs its :
  forall ev, no_fail ev -> tmpfs_outcome (child_loop true its ev).
Proof.
  induction its as [|it rest IH]; intros ev Hev; simpl.
  - left. done.
  - destruct it.1.2; [by apply IH|].
    destruct (run_child it) as [cev cok] eqn:Hrc. simpl.
    destruct cok.
    + apply IH. apply no_fail_app. split; [done|].
      replace cev with (run_child it).1 by (by rewrite Hrc). apply run_child_ok. by rewrite Hrc.
    + right. split; [done|]. right.
      replace cev with (run_child it).1 by (by rewrite Hrc). apply run_child_fail; [done|]. by rewrite Hrc.
Qed.

Ltac no_fail_tac :=
  repeat (apply no_fail_app; split);
  repeat (apply no_fail_cons; split; [intros ? ?; discriminate|]);
  try apply no_fail_nil.

Lemma handle_directory_tmpfs env n p w has_tmpfs0 rec :
  tmpfs_in_effect env n p has_tmpfs0 = true ->
  tmpfs_outcome (handle_directory env n p w has_tmpfs0 rec).
Proof.
  unfold tmpfs_in_effect, handle_directory.
  destruct (dir_tmpfs env n p has_tmpfs0) as [[sk s] c]. intros Ht. rewrite Ht.
  simpl.
  repeat case_match; simplify_eq/=.
  all: repeat match goal with
    | H : live_loop ?e ?p ?w true ?l ?its ?ev = _ |- _ =>
        let Hl := fresh "Hl" in
        pose proof (live_loop_tmpfs e p w l its ev ltac:(no_fail_tac)) as Hl;
        rewrite H in Hl; clear H
    | H : child_loop true ?its ?ev = _ |- _ =>
        let Hc := fresh "Hc" in
        pose proof (child_loop_tmpfs its ev) as Hc; rewrite H in Hc; clear H
    end.
  all: unfold tmpfs_outcome in *; simpl in *.
  all: repeat match goal with
    | H : negb ?b = true |- _ => apply negb_true_iff in H; subst b
    | H : negb ?b = false |- _ => apply negb_false_iff in H; subst b
    end.
  all: repeat match goal with
    | H : _ = true /\ _ \/ _ = false /\ _ |- _ =>
        destruct H as [[? ?]|[? ?]]; simplify_eq
    end.
  all: try match goal with
    | Hc : no_fail _ -> _ |- _ => specialize (Hc ltac:(first [assumption | no_fail_tac]))
    end.
  all: repeat match goal with
    | H : _ = true /\ _ \/ _ = false /\ _ |- _ =>
        destruct H as [[? ?]|[? ?]]; simplify_eq
    end.
  all: first
    [ by left; split; [done|]; repeat (apply no_fail_app; split); try assumption; no_fail_tac
    | by right; split; [done|]; left; repeat (apply no_fail_app; split); try assumption; no_fail_tac
    | by right; split; [done|assumption] ].
Qed.

(** A child's own mount was started (when it is not skipped). *)
Definition started (it : Item) (ev : list MEvent) : Prop :=
  it.1.2 = false -> ChildStart (item_name it) ∈ ev.

Lemma remove_item_elem nm :
  forall its x its', remove_item nm its = Some (x, its') ->
  forall it, it ∈ its -> it = x \/ it ∈ its'.
Proof.
  induction its as [|it0 rest IH]; intros x its' Hr it Hin; simpl in Hr; [done|].
  destruct (String.eqb (item_name it0) nm).
  - injection Hr as <- <-. by apply elem_of_cons in Hin.
  - destruct (remove_item nm rest) as [[y rest']|] eqn:Hrest; [|done].
    injection Hr as <- <-. apply elem_of_cons in Hin as [->|Hin].
    + right. left.
    + destruct (IH y rest' eq_refl it Hin) as [->|H]; [by left|right; by right].
Qed.

Lemma run_child_start it : ChildStart (item_name it) ∈ (run_child it).1.
Proof. destruct it as [[nm sk] [cev cok]]. simpl. left. Qed.

Lemma live_loop_no_tmpfs env p w entries :
  forall its ev,
  let '(ev', its', ok) := live_loop env p w false entries its ev in
  ok = true /\ (forall e, e ∈ ev -> e ∈ ev') /\
  forall it, it ∈ its -> it ∈ its' \/ started it ev'.
Proof.
  induction entries as [|nm rest IH]; intros its ev; simpl.
  - split; [done|]. split; [done|]. by left.
  - destruct (remove_item nm its) as [[x its']|] eqn:Hr; [|apply IH].
    destruct x.1.2 eqn:Hskip.
    + specialize (IH its' ev).
      destruct (live_loop env p w false rest its' ev) as [[ev' its''] ok].
      destruct IH as (Hok & Hev & Hits). split; [done|]. split; [done|].
      intros it Hin. destruct (remove_item_elem nm its x its' Hr it Hin) as [->|H].
      * right. unfold started. by rewrite Hskip.
      * by apply Hits.
    + destruct (run_child x) as [cev cok] eqn:Hrc. simpl. rewrite orb_true_r.
      specialize (IH its' (ev ++ cev)).
      destruct (live_loop env p w false rest its' (ev ++ cev)) as [[ev' its''] ok].
      destruct IH as (Hok & Hev & Hits). split; [done|].
      split; [intros e He; apply Hev; apply elem_of_app; by left|].
      intros it Hin. destruct (remove_item_elem nm its x its' Hr it Hin) as [->|H].
      * right. intros _. apply Hev. apply elem_of_app. right.
        replace cev with (run_child x).1 by (by rewrite Hrc). apply run_child_start.
      * by apply Hits.
Qed.

Lemma child_loop_no_tmpfs its :
  forall ev,
  let '(ev', ok) := child_loop false its ev in
  ok = true /\ (forall e, e ∈ ev -> e ∈ ev') /\ forall it, it ∈ its -> started it ev'.
Proof.
  induction its as [|x rest IH]; intros ev; simpl.
  - split; [done|]. split; [done|]. intros it Hin. by apply elem_of_nil in Hin.
  - destruct x.1.2 eqn:Hskip.
    + specialize (IH ev). destruct (child_loop false rest ev) as [ev' ok].
      destruct IH as (Hok & Hev & Hits). split; [done|]. split; [done|].
      intros it Hin. apply elem_of_cons in Hin as [->|Hin].
      * unfold started. by rewrite Hskip.
      * by apply Hits.
    + destruct (run_child x) as [cev cok] eqn:Hrc. simpl. rewrite orb_true_r.
      specialize (IH (ev ++ cev)). destruct (child_loop false rest (ev ++ cev)) as [ev' ok].
      destruct IH as (Hok & Hev & Hits). split; [done|].
      split; [intros e He; apply Hev; apply elem_of_app; by left|].
      intros it Hin. apply elem_of_cons in Hin as [->|Hin].
      * intros _. apply Hev. apply elem_of_app. right.
        replace cev with (run_child x).1 by (by rewrite Hrc). apply run_child_start.
      * by apply Hits.
Qed.

Lemma handle_directory_no_tmpfs env n p w has_tmpfs0 rec :
  tmpfs_in_effect env n p has_tmpfs0 = false ->
  (live_exists env p = true -> replace n = false -> is_Some (live_read_dir env p)) ->
  ~ (replace n = true /\ module_path n = None) ->
  let r := handle_directory env n p w has_tmpfs0 rec in
  r.2 = true /\ forall it, it ∈ dir_items env n p has_tmpfs0 rec -> started it r.1.
Proof.
  unfold tmpfs_in_effect, dir_items, handle_directory.
  destruct (dir_tmpfs env n p has_tmpfs0) as [[sk s] c].
  intros Ht Hread Hroot. apply orb_false_iff in Ht as [-> ->]. simpl.
  set (its := zip (zip (map fst (children n)) sk) (rec false)).
  assert (Hlive : let '(ev2, its2, ok2) :=
            if live_exists env p && negb (replace n) then
              match live_read_dir env p with
              | Some entries => live_loop env p w false entries its ([] ++ [ReadDir p])
              | None => ([], its, false)
              end
            else ([], its, true) in
          ok2 = true /\ forall it, it ∈ its -> it ∈ its2 \/ started it ev2).
  { destruct (live_exists env p) eqn:He, (replace n) eqn:Hrep; simpl.
    all: try (split; [done|]; intros it Hin; by left).
    destruct (Hread eq_refl eq_refl) as [entries ->].
    pose proof (live_loop_no_tmpfs env p w entries its [ReadDir p]) as Hl.
    destruct (live_loop env p w false entries its [ReadDir p]) as [[ev' its'] ok].
    destruct Hl as (Hok & _ & Hits). done. }
  destruct (if live_exists env p && negb (replace n) then _ else _)
    as [[ev2 its2] ok2] eqn:Hl2.
  destruct Hlive as [-> Hits2]. simpl.
  assert (Hnr : replace n && bool_decide (module_path n = None) = false).
  { destruct (replace n), (module_path n); simpl; try done.
    exfalso. by apply Hroot. }
  rewrite Hnr.
  pose proof (child_loop_no_tmpfs its2 ev2) as Hc.
  destruct (child_loop false its2 ev2) as [ev3 ok3].
  destruct Hc as (-> & Hev & Hstart). simpl. split; [done|].
  intros it Hin. destruct (Hits2 it Hin) as [H|H].
  - by apply Hstart.
  - intros Hsk. apply Hev. by apply H.
Qed.

(** A directory [system] with two module files [a] and [b]; the live
    directory lists both, as regular files ([tmpfs_needed = false]) or as
    missing ones, which makes [check_tmpfs] ask for a tmpfs. *)
Definition file_node (nm : string) : Node :=
  mkNode nm RegularFile (Some ["mods"; "m"; "system"; nm]) false false [].

Definition sys_node : Node :=
  mkNode "system" Directory (Some ["mods"; "m"; "system"]) false false
    [("a", file_node "a"); ("b", file_node "b")].

Definition sys_env (tmpfs_needed : bool) : MagicEnv := {|
  live_exists := fun _ => true;
  live_type := fun _ => if tmpfs_needed then None else Some RegularFile;
  live_read_dir := fun _ => Some ["a"; "b"];
  skeleton_ok := fun _ _ => true;
  bind_ok := fun _ _ => true;
  create_file_ok := fun _ => true;
  symlink_ok := fun _ _ => true;
  mirror_ok := fun _ _ _ => true;
  move_ok := fun _ _ => true |}.

(** The child [a] fails, the child [b] succeeds. *)
Definition a_fails (_ : bool) : list (list MEvent * bool) := [([], false); ([], true)].

(** C8: in [handle_directory], when a tmpfs is in effect (inherited or
    created here), a failed child mount makes the whole directory fail and
    nothing is done after it; when no tmpfs is in effect, the directory
    succeeds whatever its children return and every child that is not
    skipped is mounted, provided the live directory can be listed and the
    node is not a replaced root (failures that are not a child's). *)
Theorem handle_directory_child_failure env n p w has_tmpfs0 rec :
  let r := handle_directory env n p w has_tmpfs0 rec in
  (tmpfs_in_effect env n p has_tmpfs0 = true ->
   forall nm, ChildDone nm false ∈ r.1 ->
   r.2 = false /\ exists pre, r.1 = pre ++ [ChildDone nm false] /\ no_fail pre) /\
  (tmpfs_in_effect env n p has_tmpfs0 = false ->
   (live_exists env p = true -> replace n = false -> is_Some (live_read_dir env p)) ->
   ~ (replace n = true /\ module_path n = None) ->
   r.2 = true /\ forall it, it ∈ dir_items env n p has_tmpfs0 rec -> started it r.1).
Proof.
  simpl. split.
  - intros Ht nm Hin.
    destruct (handle_directory_tmpfs env n p w has_tmpfs0 rec Ht)
      as [[_ Hnf]|[Hr [Hnf|(pre & nm' & Heq & Hnf)]]].
    + exfalso. by apply (Hnf nm).
    + exfalso. by apply (Hnf nm).
    + split; [done|]. exists pre. rewrite Heq in Hin |- *.
      apply elem_of_app in Hin as [Hin|Hin]; [exfalso; by apply (Hnf nm)|].
      apply list_elem_of_singleton in Hin. by simplify_eq.
  - intros Ht Hread Hroot. by apply handle_directory_no_tmpfs.
Qed.

(** The two cases on [sys_node] where [a] fails: in a tmpfs the directory
    fails right after [a]; without one it succeeds and [b] is mounted too. *)
Lemma handle_directory_child_failure_witness :
  (tmpfs_in_effect (sys_env true) sys_node ["system"] false = true /\
   (handle_directory (sys_env true) sys_node ["system"] ["work"; "system"] false a_fails).2 = false /\
   exists pre, (handle_directory (sys_env true) sys_node ["system"] ["work"; "system"] false a_fails).1
               = pre ++ [ChildDone "a" false] /\ no_fail pre) /\
  (tmpfs_in_effect (sys_env false) sys_node ["system"] false = false /\
   (handle_directory (sys_env false) sys_node ["system"] ["work"; "system"] false a_fails).2 = true /\
   ChildDone "a" false ∈ (handle_directory (sys_env false) sys_node ["system"] ["work"; "system"] false a_fails).1 /\
   ChildStart "b" ∈ (handle_directory (sys_env false) sys_node ["system"] ["work"; "system"] false a_fails).1).
Proof.
  split.
  - assert (Ht : tmpfs_in_effect (sys_env true) sys_node ["system"] false = true)
      by (vm_compute; reflexivity).
    split; [exact Ht|].
    destruct (handle_directory_child_failure (sys_env true) sys_node ["system"] ["work"; "system"]
                false a_fails) as [HA _].
    apply (HA Ht "a"). apply list_elem_of_In. vm_compute. tauto.
  - assert (Ht : tmpfs_in_effect (sys_env false) sys_node ["system"] false = false)
      by (vm_compute; reflexivity).
    split; [exact Ht|].
    destruct (handle_directory_child_failure (sys_env false) sys_node ["system"] ["work"; "system"]
                false a_fails) as [_ HB].
    destruct (HB Ht ltac:(intros _ _; vm_compute; eexists; reflexivity)
                ltac:(vm_compute; intros [? ?]; discriminate)) as [Hok Hst].
    split; [exact Hok|]. split.
    + apply list_elem_of_In. vm_compute. tauto.
    + apply (Hst ("b", false, ([], true))); [|done].
      apply list_elem_of_In. vm_compute. tauto.
Defined.

Lemma zip_fst_elem {A B} (l1 : list A) (l2 : list B) x y :
  (x, y) ∈ zip l1 l2 -> x ∈ l1.
Proof.
  revert l2. induction l1 as [|a l1 IH]; intros [|b l2] Hin; simpl in Hin;
    try by apply elem_of_nil in Hin.
  apply elem_of_cons in Hin as [Heq|Hin].
  - injection Heq as -> ->. left.
  - right. by apply (IH l2).
Qed.

Lemma item_name_in_children (n : Node) sk res it :
  it ∈ zip (zip (map fst (children n)) sk) res -> item_name it ∈ map fst (children n).
Proof.
  destruct it as [[nm b] r]. unfold item_name. simpl. intros Hin.
  apply zip_fst_elem in Hin. by apply zip_fst_elem in Hin.
Qed.

Lemma child_loop_events ht its :
  forall ev e, e ∈ (child_loop ht its ev).1 ->
  e ∈ ev \/ exists it, it ∈ its /\ e ∈ (run_child it).1.
Proof.
  induction its as [|it rest IH]; intros ev e; simpl.
  - by left.
  - destruct it.1.2.
    + intros He. destruct (IH ev e He) as [H|(it' & Hit & H)]; [by left|].
      right. exists it'. split; [by right|done].
    + destruct (run_child it) as [cev cok] eqn:Hrc.
      assert (Hstep : e ∈ ev ++ cev -> e ∈ ev \/ exists it', it' ∈ it :: rest /\ e ∈ (run_child it').1).
      { intros H. apply elem_of_app in H as [H|H]; [by left|].
        right. exists it. split; [left|]. by rewrite Hrc. }
      destruct (cok || negb ht); simpl.
      * intros He. destruct (IH (ev ++ cev) e He) as [H|(it' & Hit & H)]; [by apply Hstep|].
        right. exists it'. split; [by right|done].
      * apply Hstep.
Qed.

(** The top-level events of a replaced directory: its tmpfs set-up, and
    the runs of its own children. *)
Lemma handle_directory_replace_events env n p w has_tmpfs0 rec e :
  replace n = true ->
  e ∈ (handle_directory env n p w has_tmpfs0 rec).1 ->
  e ∈ [Skeleton w; BindSelf w; MoveMount w p] \/
  exists it, it ∈ dir_items env n p has_tmpfs0 rec /\ e ∈ (run_child it).1.
Proof.
  unfold handle_directory, dir_items.
  destruct (dir_tmpfs env n p has_tmpfs0) as [[sk s] c].
  intros Hrep. rewrite Hrep. rewrite andb_false_r. simpl.
  set (its := zip (zip (map fst (children n)) sk) (rec (s || c))).
  set (top := [Skeleton w; BindSelf w; MoveMount w p]).
  assert (Hnil : e ∈ @nil MEvent -> e ∈ top \/ exists it, it ∈ its /\ e ∈ (run_child it).1)
    by (intros He; by apply elem_of_nil in He).
  assert (Hsk : e ∈ [Skeleton w] -> e ∈ top)
    by (intros He; apply list_elem_of_singleton in He; subst e; by left).
  match goal with
  | |- context [match ?x with Some ev0 => _ | None => _ end] =>
      assert (H0 : forall ev0, x = Some ev0 -> ev0 = [] \/ ev0 = [Skeleton w])
        by (intros ev0 Hx; repeat case_match; simplify_eq; auto);
      destruct x as [ev0|]; [specialize (H0 ev0 eq_refl)|exact Hnil]
  end.
  match goal with
  | |- context [match ?x with Some ev1 => _ | None => _ end] =>
      assert (H1 : forall ev1, x = Some ev1 -> ev1 = ev0 \/ ev1 = ev0 ++ [BindSelf w])
        by (intros ev1 Hx; repeat case_match; simplify_eq; auto);
      destruct x as [ev1|]; [specialize (H1 ev1 eq_refl)|]
  end.
  2: { destruct H0 as [->| ->]; simpl; [exact Hnil|]. intros He. left. by apply Hsk. }
  assert (Htop : forall e', e' ∈ ev1 -> e' ∈ top).
  { intros e' He'. destruct H0 as [->| ->], H1 as [->| ->]; simpl in He'.
    all: repeat (apply elem_of_cons in He' as [->|He']; [by repeat constructor|]).
    all: by apply elem_of_nil in He'. }
  assert (Hev1 : e ∈ ev1 -> e ∈ top \/ exists it, it ∈ its /\ e ∈ (run_child it).1)
    by (intros He; left; by apply Htop).
  destruct (bool_decide (module_path n = None)); [exact Hev1|].
  pose proof (child_loop_events (s || c) its ev1 e) as Hc.
  destruct (child_loop (s || c) its ev1) as [ev3 ok3]. simpl in Hc.
  assert (Hev3 : e ∈ ev3 -> e ∈ top \/ exists it, it ∈ its /\ e ∈ (run_child it).1)
    by (intros He; destruct (Hc He) as [H|H]; [left; by apply Htop|by right]).
  destruct ok3, c; simpl; try exact Hev3.
  destruct (move_ok env w p); simpl; [|exact Hev3].
  intros He. apply elem_of_app in He as [He|He]; [by apply Hev3|].
  apply list_elem_of_singleton in He. subst e. left. right. right. left.
Qed.

Lemma dir_items_names env n p has_tmpfs0 rec it :
  it ∈ dir_items env n p has_tmpfs0 rec -> item_name it ∈ map fst (children n).
Proof.
  unfold dir_items. destruct (dir_tmpfs env n p has_tmpfs0) as [[sk s] c].
  apply item_name_in_children.
Qed.

Lemma remove_item_Some nm its x its' :
  remove_item nm its = Some (x, its') ->
  item_name x = nm /\ x ∈ its /\ forall it, it ∈ its' -> it ∈ its.
Proof.
  revert its'. induction its as [|it rest IH]; intros its'; simpl; [done|].
  destruct (String.eqb (item_name it) nm) eqn:Hnm.
  - intros [= <- <-]. apply String.eqb_eq in Hnm.
    split; [done|]. split; [left|]. intros it' H. by right.
  - destruct (remove_item nm rest) as [[y rest']|] eqn:Hr; [|done].
    intros [= <- <-]. destruct (IH rest' eq_refl) as (Hn & Hx & Hsub).
    split; [done|]. split; [by right|].
    intros it' H. apply elem_of_cons in H as [->|H]; [left|]. right. by apply Hsub.
Qed.

Lemma live_loop_prefix env p w ht entries :
  forall its ev, exists suf, (live_loop env p w ht entries its ev).1.1 = ev ++ suf.
Proof.
  induction entries as [|nm rest IH]; intros its ev; simpl.
  - exists []. by rewrite app_nil_r.
  - destruct (remove_item nm its) as [[it its']|].
    + destruct it.1.2.
      * apply IH.
      * destruct (run_child it) as [cev cok].
        destruct (cok || negb ht).
        -- destruct (IH its' (ev ++ cev)) as [suf ->]. exists (cev ++ suf).
           by rewrite app_assoc.
        -- by exists cev.
    + destruct ht.
      * destruct (mirror_ok env p w nm).
        -- destruct (IH its (ev ++ [Mirror nm; ChildDone nm true])) as [suf ->].
           eexists. by rewrite <- app_assoc.
        -- by eexists.
      * apply IH.
Qed.

Lemma child_loop_prefix ht its :
  forall ev, exists suf, (child_loop ht its ev).1 = ev ++ suf.
Proof.
  induction its as [|it rest IH]; intros ev; simpl.
  - exists []. by rewrite app_nil_r.
  - destruct it.1.2; [apply IH|].
    destruct (run_child it) as [cev cok].
    destruct (cok || negb ht).
    + destruct (IH (ev ++ cev)) as [suf ->]. exists (cev ++ suf). by rewrite app_assoc.
    + by exists cev.
Qed.

(** Under a tmpfs, a completed live loop mirrors every live entry that is
    not the name of a remaining child. *)
Lemma live_loop_mirrors env p w (S : list string) entries :
  forall its ev,
  (forall it, it ∈ its -> item_name it ∈ S) ->
  (live_loop env p w true entries its ev).2 = true ->
  forall e, e ∈ entries -> e ∉ S -> Mirror e ∈ (live_loop env p w true entries its ev).1.1.
Proof.
  induction entries as [|nm rest IH]; intros its ev Hits; simpl.
  - intros _ e He. by apply elem_of_nil in He.
  - destruct (remove_item nm its) as [[it its']|] eqn:Hr.
    + destruct (remove_item_Some _ _ _ _ Hr) as (Hn & Hin & Hsub).
      assert (Hits' : forall it', it' ∈ its' -> item_name it' ∈ S)
        by (intros it' H; by apply Hits, Hsub).
      assert (Hrest : forall ev', (live_loop env p w true rest its' ev').2 = true ->
                forall e, e ∈ nm :: rest -> e ∉ S ->
                Mirror e ∈ (live_loop env p w true rest its' ev').1.1).
      { intros ev' Hok e He HS. apply elem_of_cons in He as [->|He].
        - exfalso. apply HS. rewrite <- Hn. by apply Hits.
        - by apply IH. }
      destruct it.1.2; [apply Hrest|].
      destruct (run_child it) as [cev cok]. destruct cok; simpl; [apply Hrest|done].
    + destruct (mirror_ok env p w nm); simpl; [|done].
      intros Hok e He HS. apply elem_of_cons in He as [->|He].
      * destruct (live_loop_prefix env p w true rest its
                    (ev ++ [Mirror nm; ChildDone nm true])) as [suf ->].
        apply elem_of_app. left. apply elem_of_app. right. left.
      * by apply IH.
Qed.

(** A directory that is not [replace]d, run under a tmpfs, whose live
    counterpart exists and can be listed: when its run succeeds, it listed
    the live directory and mirrored every live entry it has no child for. *)
Lemma handle_directory_tmpfs_mirrors env n p w rec entries :
  replace n = false -> live_exists env p = true -> live_read_dir env p = Some entries ->
  let r := handle_directory env n p w true rec in
  r.2 = true ->
  ReadDir p ∈ r.1 /\
  forall e, e ∈ entries -> e ∉ map fst (children n) -> Mirror e ∈ r.1.
Proof.
  intros Hrep Hex Hrd. simpl. unfold handle_directory.
  assert (Hdt : dir_tmpfs env n p true = (map (fun '(_, c) => skip c) (children n), true, false))
    by (unfold dir_tmpfs; reflexivity).
  rewrite Hdt. simpl. rewrite Hex, Hrep. simpl. rewrite Hrd.
  set (its := zip (zip (map fst (children n)) (map (fun '(_, c) => skip c) (children n)))
                  (rec true)).
  destruct (skeleton_ok env p w); simpl; [|done].
  pose proof (live_loop_prefix env p w true entries its [Skeleton w; ReadDir p]) as [suf Hsuf].
  pose proof (live_loop_mirrors env p w (map fst (children n)) entries its
                [Skeleton w; ReadDir p]) as Hmir.
  destruct (live_loop env p w true entries its [Skeleton w; ReadDir p])
    as [[ev2 its2] ok2] eqn:Hll. simpl in Hsuf, Hmir.
  destruct ok2; simpl; [|done].
  destruct (child_loop_prefix true its2 ev2) as [suf3 Hsuf3].
  destruct (child_loop true its2 ev2) as [ev3 ok3]. simpl in Hsuf3.
  destruct ok3; simpl; [|done]. intros _. subst ev3 ev2. split.
  - apply elem_of_app. left. right. left.
  - intros e He HS. apply elem_of_app. left. apply Hmir; [|done|done|done].
    intros it Hit. by apply item_name_in_children in Hit.
Qed.

Lemma do_magic_mount_dir env n pp pw h :
  file_type n = Directory ->
  exists rec, do_magic_mount env n pp pw h =
    handle_directory env n (join pp (name n)) (join pw (name n)) h rec /\
    forall ht, rec ht = map (fun '(_, c) => do_magic_mount env c (join pp (name n))
                                             (join pw (name n)) ht) (children n).
Proof.
  destruct n as [nm ft mp rp sk chs]. simpl. intros ->.
  eexists. split; [reflexivity|]. intros ht.
  induction chs as [|[x c] chs IH]; simpl; [done|]. by rewrite IH.
Qed.

Lemma map_lookup {A B} (f : A -> B) (l : list A) i : map f l !! i = f <$> l !! i.
Proof. revert i. induction l as [|x l IH]; intros [|i]; simpl; auto. Qed.

(** A child item of a directory carries the run of the child of that name,
    made with the directory's tmpfs flag. *)
Lemma dir_items_run env n p has_tmpfs0 rec (f : bool -> Node -> list MEvent * bool) nm c it :
  (forall ht, rec ht = map (fun '(_, c) => f ht c) (children n)) ->
  NoDup (map fst (children n)) -> (nm, c) ∈ children n ->
  it ∈ dir_items env n p has_tmpfs0 rec -> item_name it = nm ->
  it.2 = f ((dir_tmpfs env n p has_tmpfs0).1.2 || (dir_tmpfs env n p has_tmpfs0).2) c.
Proof.
  intros Hrec Hnd Hc. unfold dir_items.
  destruct (dir_tmpfs env n p has_tmpfs0) as [[sk s] cr]. simpl. rewrite Hrec.
  intros Hin Hnm. apply list_elem_of_lookup in Hin as [i Hi].
  apply lookup_zip_with_Some in Hi as (x & y & -> & Hx & Hy).
  apply lookup_zip_with_Some in Hx as (a & b & -> & Ha & Hb).
  rewrite map_lookup in Ha. rewrite map_lookup in Hy.
  destruct (children n !! i) as [[a' c']|] eqn:Hci; simplify_eq/=.
  apply list_elem_of_lookup in Hc as [j Hj].
  assert (Hij : i = j).
  { eapply (NoDup_lookup (map fst (children n)) i j); [done| |];
      rewrite map_lookup; [rewrite Hci; reflexivity|rewrite Hj; reflexivity]. }
  subst j. rewrite Hci in Hj. by simplify_eq.
Qed.

Lemma dir_tmpfs_replace_flag env n p h :
  replace n = true -> is_Some (module_path n) ->
  (dir_tmpfs env n p h).1.2 || (dir_tmpfs env n p h).2 = true.
Proof.
  intros Hrep [mp Hmp]. unfold dir_tmpfs. rewrite Hrep, Hmp.
  rewrite (bool_decide_eq_true_2 (is_Some (Some mp))) by by eexists.
  by destruct h.
Qed.

(** A module directory [system/app/Foo] marked [replace], holding a
    directory [bar] that is not; the live [Foo] has [old] and [bar], the
    live [Foo/bar] has [x]. *)
Definition foo_path : path := ["system"; "app"; "Foo"].

Definition bar_node : Node :=
  mkNode "bar" Directory (Some ["mods"; "m"; "system"; "app"; "Foo"; "bar"]) false false
    [("new", mkNode "new" RegularFile (Some ["mods"; "m"; "system"; "app"; "Foo"; "bar"; "new"])
               false false [])].

Definition foo_node : Node :=
  mkNode "Foo" Directory (Some ["mods"; "m"; "system"; "app"; "Foo"]) true false
    [("bar", bar_node)].

Definition foo_env : MagicEnv := {|
  live_exists := fun _ => true;
  live_type := fun q => if bool_decide (q = foo_path ++ ["bar"]) then Some Directory
                        else Some RegularFile;
  live_read_dir := fun q => if bool_decide (q = foo_path ++ ["bar"]) then Some ["x"]
                            else Some ["old"; "bar"];
  skeleton_ok := fun _ _ => true;
  bind_ok := fun _ _ => true;
  create_file_ok := fun _ => true;
  symlink_ok := fun _ _ => true;
  mirror_ok := fun _ _ _ => true;
  move_ok := fun _ _ => true |}.

(** C9, as the code has it: on a replaced directory [Foo], the live
    [Foo/bar/x] is mirrored into the tmpfs, because the module's [bar]
    is not itself marked [replace] and is merged with the live [Foo/bar]. *)
Lemma replace_dir_mirrors_live_nested :
  let r := do_magic_mount foo_env foo_node ["system"; "app"] ["work"; "system"; "app"] false in
  let cev := (do_magic_mount foo_env bar_node foo_path ["work"; "system"; "app"; "Foo"] true).1 in
  replace foo_node = true /\ r.2 = true /\
  SubTree "bar" cev ∈ r.1 /\ ReadDir (foo_path ++ ["bar"]) ∈ cev /\ Mirror "x" ∈ cev.
Proof.
  split; [reflexivity|]. split; [vm_compute; reflexivity|].
  split; [|split]; apply list_elem_of_In; vm_compute; tauto.
Qed.

(** The own run of a replaced directory: it does not list the live
    directory, mirrors none of its entries, and starts only its own
    children. *)
Lemma handle_directory_replace_own_children env n p w has_tmpfs0 rec :
  replace n = true ->
  let r := handle_directory env n p w has_tmpfs0 rec in
  (forall q, ReadDir q ∉ r.1) /\ (forall nm, Mirror nm ∉ r.1) /\
  (forall nm, ChildStart nm ∈ r.1 -> nm ∈ map fst (children n)).
Proof.
  intros Hrep. simpl.
  assert (Hev : forall e, e ∈ (handle_directory env n p w has_tmpfs0 rec).1 ->
    e ∈ [Skeleton w; BindSelf w; MoveMount w p] \/
    exists it, it ∈ dir_items env n p has_tmpfs0 rec /\ e ∈ (run_child it).1)
    by (intros e; by apply handle_directory_replace_events).
  assert (Hshape : forall e, e ∈ (handle_directory env n p w has_tmpfs0 rec).1 ->
    e ∈ [Skeleton w; BindSelf w; MoveMount w p] \/
    exists it, it ∈ dir_items env n p has_tmpfs0 rec /\
      e ∈ [ChildStart (item_name it); SubTree (item_name it) it.2.1;
           ChildDone (item_name it) it.2.2]).
  { intros e He. destruct (Hev e He) as [H|(it & Hit & H)]; [by left|].
    right. exists it. split; [done|]. by destruct it as [[nm sk] [cev cok]]. }
  split; [|split].
  - intros q Hin. destruct (Hshape _ Hin) as [H|(it & _ & H)];
      repeat (apply elem_of_cons in H as [H|H]; [discriminate|]); by apply elem_of_nil in H.
  - intros nm Hin. destruct (Hshape _ Hin) as [H|(it & _ & H)];
      repeat (apply elem_of_cons in H as [H|H]; [discriminate|]); by apply elem_of_nil in H.
  - intros nm Hin. destruct (Hshape _ Hin) as [H|(it & Hit & H)].
    + repeat (apply elem_of_cons in H as [H|H]; [discriminate|]); by apply elem_of_nil in H.
    + apply elem_of_cons in H as [H|H].
      * injection H as ->. by apply (dir_items_names env n p has_tmpfs0 rec).
      * repeat (apply elem_of_cons in H as [H|H]; [discriminate|]); by apply elem_of_nil in H.
Qed.

(** C9 (amended): when a directory node has [replace = true], its mount
    does not list the live directory and mirrors none of its entries, and
    the only children it mounts are the node's own. When it carries a
    module path, each child is mounted under the tmpfs; a child directory
    that is not itself marked [replace] then lists its live counterpart and,
    when its mount succeeds, mirrors every live entry it has no child
    for. *)
Theorem handle_directory_replace_no_live env n pp pw h :
  file_type n = Directory -> replace n = true ->
  let p := join pp (name n) in
  let w := join pw (name n) in
  let r := do_magic_mount env n pp pw h in
  (forall q, ReadDir q ∉ r.1) /\ (forall nm, Mirror nm ∉ r.1) /\
  (forall nm, ChildStart nm ∈ r.1 -> nm ∈ map fst (children n)) /\
  (is_Some (module_path n) -> NoDup (map fst (children n)) ->
   forall nm c cev, (nm, c) ∈ children n -> SubTree nm cev ∈ r.1 ->
     cev = (do_magic_mount env c p w true).1) /\
  (forall nm c entries, (nm, c) ∈ children n ->
     file_type c = Directory -> replace c = false ->
     live_exists env (join p (name c)) = true ->
     live_read_dir env (join p (name c)) = Some entries ->
     let cr := do_magic_mount env c p w true in
     cr.2 = true ->
     ReadDir (join p (name c)) ∈ cr.1 /\
     forall e, e ∈ entries -> e ∉ map fst (children c) -> Mirror e ∈ cr.1).
Proof.
  intros Hft Hrep. cbv zeta.
  destruct (do_magic_mount_dir env n pp pw h Hft) as (rec & Hdm & Hrec).
  rewrite Hdm.
  destruct (handle_directory_replace_own_children env n (join pp (name n)) (join pw (name n))
              h rec Hrep) as (H1 & H2 & H3).
  split; [exact H1|]. split; [exact H2|]. split; [exact H3|]. split.
  - intros Hmp Hnd nm c cev Hc Hsub.
    destruct (handle_directory_replace_events env n (join pp (name n)) (join pw (name n))
                h rec _ Hrep Hsub) as [H|(it & Hit & H)].
    + repeat (apply elem_of_cons in H as [H|H]; [discriminate|]). by apply elem_of_nil in H.
    + pose proof (dir_items_run env n (join pp (name n)) h rec
                    (fun ht c => do_magic_mount env c (join pp (name n)) (join pw (name n)) ht)
                    nm c it Hrec Hnd Hc Hit) as Hrun.
      rewrite (dir_tmpfs_replace_flag env n (join pp (name n)) h Hrep Hmp) in Hrun.
      destruct it as [[a b] [ev ok]]. unfold item_name in *. simpl in H, Hrun.
      apply elem_of_cons in H as [H|H]; [discriminate|].
      apply elem_of_cons in H as [H|H].
      * injection H as <- <-. by rewrite <- Hrun.
      * repeat (apply elem_of_cons in H as [H|H]; [discriminate|]). by apply elem_of_nil in H.
  - intros nm c entries _ Hftc Hrepc Hex Hrd.
    destruct (do_magic_mount_dir env c (join pp (name n)) (join pw (name n)) true Hftc)
      as (rec' & Hdm' & _).
    rewrite Hdm'. by apply handle_directory_tmpfs_mirrors.
Qed.

(** The replaced [Foo]: [bar] is mounted and the live [old] is neither
    listed nor mirrored; [bar], which is not marked [replace], mirrors the
    live [Foo/bar/x]. *)
Lemma handle_directory_replace_no_live_witness :
  let r := do_magic_mount foo_env foo_node ["system"; "app"] ["work"; "system"; "app"] false in
  let cr := do_magic_mount foo_env bar_node foo_path ["work"; "system"; "app"; "Foo"] true in
  ChildStart "bar" ∈ r.1 /\ (Mirror "old" ∉ r.1) /\ (ReadDir foo_path ∉ r.1) /\
  ReadDir (foo_path ++ ["bar"]) ∈ cr.1 /\ Mirror "x" ∈ cr.1.
Proof.
  destruct (handle_directory_replace_no_live foo_env foo_node ["system"; "app"]
              ["work"; "system"; "app"] false eq_refl eq_refl)
    as (Hrd & Hmi & _ & _ & Hnest).
  destruct (Hnest "bar" bar_node ["x"] ltac:(left) eq_refl eq_refl eq_refl eq_refl
              ltac:(vm_compute; reflexivity)) as [Hr Hx].
  split; [apply list_elem_of_In; vm_compute; tauto|].
  split; [apply Hmi|]. split; [apply Hrd|]. split; [exact Hr|].
  apply Hx; [left|]. cbn [map fst children bar_node]. rewrite list_elem_of_singleton. discriminate.
Defined.

End MagicFacts.

(** ** Further properties: inventory *)
Module InventoryExtra.
Import Inventory.

Lemma scan_entry_id fs renv src nm m :
  scan_entry fs renv src nm = Some m ->
  id m = nm /\ source_path m = join src nm /\ rules m = load renv (join src nm) nm.
Proof. unfold scan_entry. repeat case_match; intros; simplify_eq/=; done. Qed.

Lemma scan_entry_Some fs renv src nm :
  is_Some (scan_entry fs renv src nm) <->
  scan_is_dir fs (join src nm) = true /\ (nm ∉ ["meta-hybrid"; "lost+found"; ".git"]) /\
  scan_exists fs (join (join src nm) DISABLE_FILE_NAME) = false /\
  scan_exists fs (join (join src nm) REMOVE_FILE_NAME) = false /\
  scan_exists fs (join (join src nm) SKIP_MOUNT_FILE_NAME) = false.
Proof.
  unfold scan_entry.
  destruct (scan_is_dir fs (join src nm)); simpl;
    [|split; [intros [? ?]; discriminate|intros (? & _); discriminate]].
  destruct (String.eqb_spec nm "meta-hybrid") as [->|H1]; simpl.
  { split; [intros [? ?]; discriminate|]. intros (_ & Hn & _). exfalso. apply Hn. left. }
  destruct (String.eqb_spec nm "lost+found") as [->|H2]; simpl.
  { split; [intros [? ?]; discriminate|]. intros (_ & Hn & _). exfalso. apply Hn. right. left. }
  destruct (String.eqb_spec nm ".git") as [->|H3]; simpl.
  { split; [intros [? ?]; discriminate|]. intros (_ & Hn & _). exfalso. apply Hn. right. right. left. }
  assert (Hnot : nm ∉ ["meta-hybrid"; "lost+found"; ".git"]).
  { intros Hin. repeat (apply elem_of_cons in Hin as [Hin|Hin]; [done|]).
    by apply elem_of_nil in Hin. }
  destruct (scan_exists fs (join (join src nm) DISABLE_FILE_NAME)),
           (scan_exists fs (join (join src nm) REMOVE_FILE_NAME)),
           (scan_exists fs (join (join src nm) SKIP_MOUNT_FILE_NAME)); simpl;
    (split; [intros [? Hs]; try discriminate|intros (_ & _ & ? & ? & ?); try discriminate]);
    try done; by eexists.
Qed.

Lemma map_id_omap_scan_entry fs renv src names :
  map id (omap (scan_entry fs renv src) names) =
  filter (fun nm => is_Some (scan_entry fs renv src nm)) names.
Proof.
  induction names as [|nm rest IH]; [done|]. simpl.
  rewrite filter_cons.
  destruct (scan_entry fs renv src nm) as [m|] eqn:He; simpl.
  - destruct (scan_entry_id _ _ _ _ _ He) as (-> & _). f_equal. exact IH.
  - exact IH.
Qed.

#[local] Instance id_desc_trans : Transitive id_desc.
Proof. intros a b c Hab Hbc. unfold id_desc in *. by trans (id b). Qed.

#[local] Instance id_desc_total : Total id_desc.
Proof. intros a b. unfold id_desc. destruct (total String.le (id b) (id a)); auto. Qed.

(** [scan] of an existing, readable module directory: it succeeds, and
    lists the modules newest-id-first without duplicates; a module is listed
    exactly when its entry is a directory, its name is not reserved
    ([meta-hybrid], [lost+found], [.git]) and it holds none of the
    [disable], [remove] and [skip-mount] markers; each module's source path
    is its directory and its rules are [ModuleRules::load] of it. *)
Theorem scan_lists_enabled_modules_descending fs renv src names :
  scan_exists fs src = true -> scan_read_dir fs src = Some names -> NoDup names ->
  exists ms, scan fs renv src = Some ms /\
    StronglySorted id_desc ms /\ NoDup (map id ms) /\
    (forall nm, nm ∈ map id ms <->
       nm ∈ names /\ scan_is_dir fs (join src nm) = true /\
       (nm ∉ ["meta-hybrid"; "lost+found"; ".git"]) /\
       scan_exists fs (join (join src nm) DISABLE_FILE_NAME) = false /\
       scan_exists fs (join (join src nm) REMOVE_FILE_NAME) = false /\
       scan_exists fs (join (join src nm) SKIP_MOUNT_FILE_NAME) = false) /\
    (forall m, m ∈ ms -> source_path m = join src (id m) /\
                         rules m = load renv (source_path m) (id m)).
Proof.
  intros Hex Hrd Hnd. unfold scan. rewrite Hex, Hrd. simpl.
  eexists. split; [reflexivity|].
  pose proof (merge_sort_Permutation id_desc (omap (scan_entry fs renv src) names)) as Hp.
  split; [apply StronglySorted_merge_sort; apply _|].
  split.
  - rewrite Hp, map_id_omap_scan_entry. by apply NoDup_filter.
  - split.
    + intros nm. rewrite Hp, map_id_omap_scan_entry, list_elem_of_filter, scan_entry_Some.
      naive_solver.
    + intros m Hm. rewrite Hp in Hm. apply list_elem_of_omap in Hm as (nm & _ & He).
      destruct (scan_entry_id _ _ _ _ _ He) as (-> & -> & ->). done.
Qed.

(** [get_mode] on the rules [load] returns: without a usable user rules
    file, the module-internal rules decide; with one, a path the user file
    lists gets the user's mode, a path only the internal file lists keeps
    its internal mode, and any other path gets the user file's default
    mode ([overlay] when the user file has no [default_mode]). *)
Theorem load_get_mode env dir module_id rel :
  get_mode (load env dir module_id) rel =
  match read_to_string env (user_config module_id) ≫= from_str env with
  | Some j =>
      match default ∅ (json_paths j) !! rel with
      | Some mode => mode
      | None =>
          match paths (load_internal env dir) !! rel with
          | Some mode => mode
          | None => default MountMode_default (json_default_mode j)
          end
      end
  | None => get_mode (load_internal env dir) rel
  end.
Proof.
  unfold load, get_mode.
  destruct (read_to_string env (user_config module_id)) as [content|]; simpl; [|done].
  destruct (from_str env content) as [j|]; simpl; [|done].
  rewrite hashmap_extend_lookup. simpl. by destruct (default ∅ (json_paths j) !! rel).
Qed.

(** A module directory [mods] with [a], [lost+found], [c], a disabled [b]
    and a plain file [f]; no rules files. *)
Definition demo_scan_fs : ScanFs := {|
  scan_exists := fun p => bool_decide (p = ["mods"]) || bool_decide (p = ["mods"; "b"; "disable"]);
  scan_is_dir := fun p => negb (bool_decide (p = ["mods"; "f"]));
  scan_read_dir := fun p => if bool_decide (p = ["mods"])
                            then Some ["a"; "lost+found"; "c"; "b"; "f"] else None |}.

Definition no_rules_env : RulesEnv := {| read_to_string := fun _ => None; from_str := fun _ => None |}.

Lemma scan_lists_enabled_modules_descending_witness :
  exists ms, scan demo_scan_fs no_rules_env ["mods"] = Some ms /\
             map id ms = ["c"; "a"] /\ StronglySorted id_desc ms.
Proof.
  destruct (scan_lists_enabled_modules_descending demo_scan_fs no_rules_env ["mods"]
              ["a"; "lost+found"; "c"; "b"; "f"] eq_refl eq_refl
              ltac:(apply (bool_decide_unpack _); vm_compute; exact I))
    as (ms & Hs & Hsort & _).
  exists ms. split; [exact Hs|]. split; [|exact Hsort].
  revert Hs. vm_compute. intros Hs. injection Hs as <-. reflexivity.
Defined.

End InventoryExtra.

(** ** Further properties: the planner *)
Module PlannerExtra.
Import Planner.

(** A module the first loop of [generate] records as an overlay module. *)
Definition overlay_eligible (fs : PlanFs) (root : path) (targets : list string)
  (m : Module) : Prop :=
  mode m <> "magic" /\ exists_ fs (join root (id m)) = true /\
  existsb (fun part => is_dir fs (join (join root (id m)) part) &&
                       has_files fs (join (join root (id m)) part)) targets = true.

(** A module the first loop of [generate] records as a magic module. *)
Definition magic_eligible (fs : PlanFs) (targets : list string) (m : Module) : Prop :=
  mode m = "magic" /\ has_meaningful_content fs (source_path m) targets = true.

Lemma set_insert_elem {A} `{EqDecision A} (x y : A) s :
  x ∈ set_insert y s <-> x = y \/ x ∈ s.
Proof.
  unfold set_insert. case_decide as H.
  - split; [by right|]. intros [->|Hx]; done.
  - rewrite elem_of_app, list_elem_of_singleton. tauto.
Qed.

Lemma set_insert_NoDup {A} `{EqDecision A} (y : A) s :
  NoDup s -> NoDup (set_insert y s).
Proof.
  unfold set_insert. case_decide as H; [done|]. intros Hs.
  apply NoDup_app. split; [done|]. split; [|apply NoDup_singleton].
  intros x Hx Hy. apply list_elem_of_singleton in Hy. subst. done.
Qed.

Lemma collect_layers_snd fs cp parts :
  forall pl b, (collect_layers fs cp parts pl b).2 =
    b || existsb (fun part => is_dir fs (join cp part) && has_files fs (join cp part)) parts.
Proof.
  induction parts as [|p parts IH]; intros pl b; simpl; [by rewrite orb_false_r|].
  destruct (is_dir fs (join cp p) && has_files fs (join cp p)); simpl.
  - rewrite IH. by rewrite orb_true_r.
  - by rewrite IH.
Qed.

Lemma collect_layers_keys fs cp parts :
  forall pl b part, (collect_layers fs cp parts pl b).1 !! part <> pl !! part -> part ∈ parts.
Proof.
  induction parts as [|p parts IH]; intros pl b part Hne; simpl in Hne; [done|].
  destruct (is_dir fs (join cp p) && has_files fs (join cp p)).
  - destruct (decide (p = part)) as [->|Hp]; [left|].
    right. apply (IH (push_layer pl p (join cp p)) true part).
    unfold push_layer at 2. by rewrite lookup_insert_ne by done.
  - right. by apply (IH pl b part).
Qed.

(** What the first loop of [generate] accumulates, from any state. *)
Definition gen_inv (fs : PlanFs) (root : path) (targets : list string)
  (ms : list Module) (st st' : GenState) : Prop :=
  (forall x, x ∈ overlay_ids st' <->
     x ∈ overlay_ids st \/ exists m, m ∈ ms /\ id m = x /\ overlay_eligible fs root targets m) /\
  (forall x, x ∈ magic_ids st' <->
     x ∈ magic_ids st \/ exists m, m ∈ ms /\ id m = x /\ magic_eligible fs targets m) /\
  (forall p, p ∈ magic_paths st' <->
     p ∈ magic_paths st \/ exists m, m ∈ ms /\ source_path m = p /\ magic_eligible fs targets m) /\
  (NoDup (overlay_ids st) -> NoDup (overlay_ids st')) /\
  (NoDup (magic_ids st) -> NoDup (magic_ids st')) /\
  (NoDup (magic_paths st) -> NoDup (magic_paths st')) /\
  (forall k, partition_layers st' !! k <> partition_layers st !! k -> k ∈ targets).

Lemma plan_module_gen_inv fs root targets st m :
  gen_inv fs root targets [m] st (plan_module fs root targets st m).
Proof.
  unfold plan_module, gen_inv, overlay_eligible, magic_eligible.
  destruct (String.eqb_spec (mode m) "magic") as [Hm|Hm].
  - destruct (has_meaningful_content fs (source_path m) targets) eqn:Hc; simpl.
    + split; [|split; [|split; [|split; [|split; [|split]]]]].
      * intros x. split; [by left|]. intros [H|(m' & Hm' & _ & Hn & _)]; [done|].
        apply list_elem_of_singleton in Hm'. subst. done.
      * intros x. rewrite set_insert_elem. split.
        -- intros [->|H]; [right; exists m; split; [left|done]|by left].
        -- intros [H|(m' & Hm' & <- & _)]; [by right|].
           apply list_elem_of_singleton in Hm'. subst. by left.
      * intros p. rewrite set_insert_elem. split.
        -- intros [->|H]; [right; exists m; split; [left|done]|by left].
        -- intros [H|(m' & Hm' & <- & _)]; [by right|].
           apply list_elem_of_singleton in Hm'. subst. by left.
      * done.
      * apply set_insert_NoDup.
      * apply set_insert_NoDup.
      * done.
    + split; [|split; [|split; [|split; [|split; [|split]]]]]; try done.
      * intros x. split; [by left|]. intros [H|(m' & Hm' & _ & Hn & _)]; [done|].
        apply list_elem_of_singleton in Hm'. subst. done.
      * intros x. split; [by left|]. intros [H|(m' & Hm' & _ & _ & Hc')]; [done|].
        apply list_elem_of_singleton in Hm'. subst. congruence.
      * intros p. split; [by left|]. intros [H|(m' & Hm' & _ & _ & Hc')]; [done|].
        apply list_elem_of_singleton in Hm'. subst. congruence.
  - assert (Hmagic : forall x, x ∈ magic_ids st <->
      x ∈ magic_ids st \/ exists m', m' ∈ [m] /\ id m' = x /\ mode m' = "magic" /\
        has_meaningful_content fs (source_path m') targets = true).
    { intros x. split; [by left|]. intros [H|(m' & Hm' & _ & Hn & _)]; [done|].
      apply list_elem_of_singleton in Hm'. subst. done. }
    assert (Hpaths : forall p, p ∈ magic_paths st <->
      p ∈ magic_paths st \/ exists m', m' ∈ [m] /\ source_path m' = p /\ mode m' = "magic" /\
        has_meaningful_content fs (source_path m') targets = true).
    { intros p. split; [by left|]. intros [H|(m' & Hm' & _ & Hn & _)]; [done|].
      apply list_elem_of_singleton in Hm'. subst. done. }
    destruct (exists_ fs (join root (id m))) eqn:He; simpl.
    + pose proof (collect_layers_snd fs (join root (id m)) targets (partition_layers st) false) as Hsnd.
      pose proof (collect_layers_keys fs (join root (id m)) targets (partition_layers st) false) as Hkeys.
      destruct (collect_layers fs (join root (id m)) targets (partition_layers st) false)
        as [pl b] eqn:Hcl. simpl in Hsnd, Hkeys |- *.
      split; [|split; [done|split; [done|split; [|split; [done|split; [done|done]]]]]].
      * intros x. destruct b.
        -- rewrite set_insert_elem. split.
           ++ intros [->|H]; [|by left]. right. exists m. split; [left|]. done.
           ++ intros [H|(m' & Hm' & <- & _)]; [by right|].
              apply list_elem_of_singleton in Hm'. subst. by left.
        -- split; [by left|]. intros [H|(m' & Hm' & <- & _ & _ & Hex)]; [done|].
           apply list_elem_of_singleton in Hm'. subst. congruence.
      * destruct b; [apply set_insert_NoDup|done].
    + split; [|split; [done|split; [done|split; [done|split; [done|split; [done|done]]]]]].
      intros x. split; [by left|]. intros [H|(m' & Hm' & _ & _ & Hex & _)]; [done|].
      apply list_elem_of_singleton in Hm'. subst. congruence.
Qed.

Lemma gen_inv_fold fs root targets ms :
  forall st, gen_inv fs root targets ms st (foldl (plan_module fs root targets) st ms).
Proof.
  induction ms as [|m ms IH]; intros st; simpl.
  - unfold gen_inv. repeat split; try done;
      first [by left | intros [H|(m' & Hm' & _)]; [done|by apply elem_of_nil in Hm']].
  - pose proof (plan_module_gen_inv fs root targets st m) as
      (H1 & H2 & H3 & H4 & H5 & H6 & H7).
    pose proof (IH (plan_module fs root targets st m)) as
      (I1 & I2 & I3 & I4 & I5 & I6 & I7).
    unfold gen_inv. split; [|split; [|split; [|split; [|split; [|split]]]]].
    + intros x. rewrite I1, H1. setoid_rewrite elem_of_cons. split.
      * intros [[H|(m' & Hm' & ? & ?)]|(m' & Hm' & ? & ?)]; [by left| |].
        -- destruct Hm' as [->|Hm']; [|by apply elem_of_nil in Hm']. right. eauto.
        -- right. eauto.
      * intros [H|(m' & [->|Hm'] & ? & ?)]; [by left; left| |].
        -- left. right. exists m. split; [by left|]. done.
        -- right. eauto.
    + intros x. rewrite I2, H2. setoid_rewrite elem_of_cons. split.
      * intros [[H|(m' & Hm' & ? & ?)]|(m' & Hm' & ? & ?)]; [by left| |].
        -- destruct Hm' as [->|Hm']; [|by apply elem_of_nil in Hm']. right. eauto.
        -- right. eauto.
      * intros [H|(m' & [->|Hm'] & ? & ?)]; [by left; left| |].
        -- left. right. exists m. split; [by left|]. done.
        -- right. eauto.
    + intros x. rewrite I3, H3. setoid_rewrite elem_of_cons. split.
      * intros [[H|(m' & Hm' & ? & ?)]|(m' & Hm' & ? & ?)]; [by left| |].
        -- destruct Hm' as [->|Hm']; [|by apply elem_of_nil in Hm']. right. eauto.
        -- right. eauto.
      * intros [H|(m' & [->|Hm'] & ? & ?)]; [by left; left| |].
        -- left. right. exists m. split; [by left|]. done.
        -- right. eauto.
    + auto.
    + auto.
    + auto.
    + intros k Hk.
      destruct (decide (partition_layers (plan_module fs root targets st m) !! k =
                        partition_layers st !! k)) as [E|E].
      * apply I7. by rewrite E.
      * by apply H7.
Qed.

Lemma sort_strings_NoDup l : NoDup l -> NoDup (sort_strings l).
Proof. unfold sort_strings. intros H. by rewrite merge_sort_Permutation. Qed.

Lemma make_op_Some fs e op :
  make_op fs e = Some op ->
  partition_name op = e.1 /\ lowerdirs op = e.2 /\
  (is_symlink fs [e.1] || exists_ fs [e.1]) = true /\
  canonicalize fs [e.1] = Some (target op) /\ is_dir fs (target op) = true.
Proof.
  destruct e as [part ls]. unfold make_op. simpl.
  destruct (is_symlink fs [part] || exists_ fs [part]) eqn:He; [|done].
  destruct (canonicalize fs [part]) as [r|] eqn:Hc; [|done].
  destruct (is_dir fs r) eqn:Hd; [|done].
  intros [= <-]. simpl. done.
Qed.

Lemma omap_make_op_names fs l :
  map partition_name (omap (make_op fs) l) `sublist_of` map fst l.
Proof.
  induction l as [|e l IH]; simpl; [done|].
  destruct (make_op fs e) as [op|] eqn:Hop; simpl.
  - apply make_op_Some in Hop as (-> & _). by apply sublist_skip.
  - by apply sublist_cons.
Qed.

(** [generate]: [overlay_module_ids] and [magic_module_ids] are sorted and
    free of duplicates; an id is an overlay id iff some non-magic module
    with that id has its storage directory and a target partition directory
    with files there, and a magic id (resp. path) iff some magic-mode module
    with that id (resp. source path) has meaningful content. *)
Theorem generate_module_ids fs config_partitions modules root :
  let plan := generate fs config_partitions modules root in
  let targets := BUILTIN_PARTITIONS ++ config_partitions in
  StronglySorted String.le (overlay_module_ids plan) /\ NoDup (overlay_module_ids plan) /\
  StronglySorted String.le (magic_module_ids plan) /\ NoDup (magic_module_ids plan) /\
  NoDup (magic_module_paths plan) /\
  (forall x, x ∈ overlay_module_ids plan <->
     exists m, m ∈ modules /\ id m = x /\ overlay_eligible fs root targets m) /\
  (forall x, x ∈ magic_module_ids plan <->
     exists m, m ∈ modules /\ id m = x /\ magic_eligible fs targets m) /\
  (forall p, p ∈ magic_module_paths plan <->
     exists m, m ∈ modules /\ source_path m = p /\ magic_eligible fs targets m).
Proof.
  intros plan targets. subst plan targets. unfold generate. cbn [overlay_ops overlay_module_ids magic_module_ids magic_module_paths].
  match goal with |- context [foldl ?f ?s0 modules] =>
    pose proof (gen_inv_fold fs root (BUILTIN_PARTITIONS ++ config_partitions) modules s0)
      as (I1 & I2 & I3 & I4 & I5 & I6 & _);
    destruct (foldl f s0 modules) as [pl mp oi mi];
    cbn [overlay_ids magic_ids magic_paths partition_layers] in * end.
  split; [apply sort_strings_sorted|].
  split; [apply sort_strings_NoDup, I4; constructor|].
  split; [apply sort_strings_sorted|].
  split; [apply sort_strings_NoDup, I5; constructor|].
  split; [apply I6; constructor|].
  split; [|split].
  - intros x. rewrite sort_strings_elem_of, I1. split; [|by right].
    intros [H|H]; [by apply elem_of_nil in H|done].
  - intros x. rewrite sort_strings_elem_of, I2. split; [|by right].
    intros [H|H]; [by apply elem_of_nil in H|done].
  - intros p. rewrite I3. split; [|by right].
    intros [H|H]; [by apply elem_of_nil in H|done].
Qed.

(** [generate]: the overlay operations name distinct partitions, each one
    of the target partitions whose [/part] exists (or is a symlink) and
    canonicalizes to the operation's target, a directory. *)
Theorem generate_ops_distinct_targets fs config_partitions modules root :
  let plan := generate fs config_partitions modules root in
  NoDup (map partition_name (overlay_ops plan)) /\
  forall op, op ∈ overlay_ops plan ->
    partition_name op ∈ BUILTIN_PARTITIONS ++ config_partitions /\
    (is_symlink fs [partition_name op] || exists_ fs [partition_name op]) = true /\
    canonicalize fs [partition_name op] = Some (target op) /\
    is_dir fs (target op) = true.
Proof.
  intros plan. subst plan. unfold generate. cbn [overlay_ops overlay_module_ids magic_module_ids magic_module_paths].
  match goal with |- context [foldl ?f ?s0 modules] =>
    pose proof (gen_inv_fold fs root (BUILTIN_PARTITIONS ++ config_partitions) modules s0)
      as (_ & _ & _ & _ & _ & _ & I7);
    destruct (foldl f s0 modules) as [pl mp oi mi];
    cbn [overlay_ids magic_ids magic_paths partition_layers] in * end.
  split.
  - eapply sublist_NoDup; [apply (NoDup_fst_map_to_list pl)|]. apply omap_make_op_names.
  - intros op Hop. apply list_elem_of_omap in Hop as ([part ls] & He & Hop).
    apply make_op_Some in Hop as (Hn & _ & H1 & H2 & H3). simpl in *. rewrite Hn.
    split; [|done]. apply I7. apply elem_of_map_to_list in He. rewrite He, lookup_empty.
    done.
Qed.

End PlannerExtra.

(** ** Further properties: the executor *)
Module ExecutorExtra.
Import Executor.

(** An overlay operation of the plan whose mount fails in phase A. *)
Definition failed_op (env : ExecEnv) (plan : MountPlan) (op : OverlayOperation) : Prop :=
  op ∈ overlay_ops plan /\ mount_overlay_ok env (target op) (layers op) = false.

Lemma path_leb_antisym p q : path_leb p q = true -> path_leb q p = true -> p = q.
Proof.
  revert q. induction p as [|a p IH]; intros [|b q]; simpl; try done.
  destruct (String.eqb_spec a b) as [<-|Hab];
    destruct (String.eqb_spec a a) as [_|]; try done.
  - intros H1 H2. f_equal. by apply IH.
  - destruct (String.eqb_spec b a) as [<-|Hba]; [done|].
    intros H1 H2. exfalso. apply Hab. by apply String.leb_antisym.
Qed.

#[local] Instance path_le_antisymm : AntiSymm (=) path_le.
Proof. intros p q. unfold path_le. apply path_leb_antisym. Qed.

#[local] Instance path_le_trans : Transitive path_le.
Proof.
  intros p. unfold path_le. induction p as [|a p IH]; intros [|b q] [|c r]; simpl; try done.
  destruct (String.eqb_spec a b) as [Eab|Eab]; destruct (String.eqb_spec b c) as [Ebc|Ebc];
    destruct (String.eqb_spec a c) as [Eac|Eac]; subst; try congruence.
  - apply IH.
  - intros H1 H2. exfalso. apply Eab. by apply String.leb_antisym.
  - intros H1 H2. apply Is_true_true.
    apply (transitivity (R:=String.le) (y:=b)); by apply Is_true_true.
Qed.

#[local] Instance path_le_total : Total path_le.
Proof.
  intros p. unfold path_le. induction p as [|a p IH]; intros [|b q]; simpl; auto.
  destruct (String.eqb_spec a b) as [<-|Hab].
  - destruct (String.eqb_spec a a); [apply IH|done].
  - destruct (String.eqb_spec b a) as [<-|]; [done|].
    destruct (String.leb_total a b); auto.
Qed.

Lemma phase_a_exact (env : ExecEnv) (ops : list OverlayOperation) :
  forall mq fb,
  let r := foldl (phase_a_step env) (mq, fb) ops in
  (forall x, x ∈ r.1 <-> x ∈ mq \/ exists op, op ∈ ops /\
     mount_overlay_ok env (target op) (layers op) = false /\ x ∈ layers op) /\
  (forall i, i ∈ r.2 <-> i ∈ fb \/ exists op, op ∈ ops /\
     mount_overlay_ok env (target op) (layers op) = false /\ i ∈ omap extract_id (layers op)).
Proof.
  induction ops as [|o ops IH]; intros mq fb r; subst r; simpl.
  - split; intros x; split; auto; intros [H|(op & Hop & _)]; [done| |done|];
      by apply elem_of_nil in Hop.
  - unfold phase_a_step at 2.
    destruct (mount_overlay_ok env (target o) (layers o)) eqn:Hok.
    + destruct (IH mq fb) as [H1 H2]. split; intros x; [rewrite H1|rewrite H2];
        (split; [intros [H|(op & Hop & Hf & Hx)]; [by left|right; exists op; split; [by right|done]]|
         intros [H|(op & Hop & Hf & Hx)]; [by left|]];
         apply elem_of_cons in Hop as [->|Hop]; [congruence|right; by exists op]).
    + destruct (IH (mq ++ layers o) (fb ++ omap extract_id (layers o))) as [H1 H2].
      split; intros x; [rewrite H1|rewrite H2]; rewrite elem_of_app; split.
      * intros [[H|H]|(op & Hop & Hf & Hx)]; [by left|right; exists o; split; [left|done]|].
        right; exists op; split; [by right|done].
      * intros [H|(op & Hop & Hf & Hx)]; [by left; left|].
        apply elem_of_cons in Hop as [->|Hop]; [by left; right|right; by exists op].
      * intros [[H|H]|(op & Hop & Hf & Hx)]; [by left|right; exists o; split; [left|done]|].
        right; exists op; split; [by right|done].
      * intros [H|(op & Hop & Hf & Hx)]; [by left; left|].
        apply elem_of_cons in Hop as [->|Hop]; [by left; right|right; by exists op].
Qed.

Lemma phase_a_all_ok (env : ExecEnv) (ops : list OverlayOperation) acc :
  (forall op, op ∈ ops -> mount_overlay_ok env (target op) (layers op) = true) ->
  foldl (phase_a_step env) acc ops = acc.
Proof.
  revert acc. induction ops as [|o ops IH]; intros acc Hok; simpl; [done|].
  destruct acc as [mq fb]. unfold phase_a_step at 2.
  rewrite Hok by (left). apply IH. intros op Hop. apply Hok. by right.
Qed.

Lemma final_overlay_elem (plan : MountPlan) (fb : list string) x :
  x ∈ match fb with
      | [] => overlay_module_ids plan
      | _ => filter (fun id => id ∉ fb) (overlay_module_ids plan)
      end <-> x ∈ overlay_module_ids plan /\ x ∉ fb.
Proof.
  destruct fb as [|i fb].
  - split; [|tauto]. intros H. split; [done|]. apply not_elem_of_nil.
  - rewrite list_elem_of_filter. tauto.
Qed.

(** [execute]: whenever it returns [Ok], both id lists are sorted and free
    of duplicates; an id is a final overlay id iff it is a planned overlay
    id that is not the file name of a layer of a failed overlay operation;
    the final magic ids are the file names of the modules passed to the
    magic engine when that call succeeds, and empty when it fails or when
    the engine is not called. *)
Theorem execute_result_ids (env : ExecEnv) (plan : MountPlan) (r : ExecutionResult) :
  result (execute env plan) = Some r ->
  StronglySorted String.le (res_overlay_module_ids r) /\ NoDup (res_overlay_module_ids r) /\
  StronglySorted String.le (res_magic_module_ids r) /\ NoDup (res_magic_module_ids r) /\
  (forall x, x ∈ res_overlay_module_ids r <-> x ∈ overlay_module_ids plan /\
     ~ exists op, failed_op env plan op /\ x ∈ omap extract_id (layers op)) /\
  match magic_call (execute env plan) with
  | None => res_magic_module_ids r = []
  | Some q => exists t, chosen_tempdir env = Some t /\ ensure_temp_dir_ok env t = true /\
      ((magic_mount_ok env t q = true /\
        res_magic_module_ids r = dedup (sort_strings (omap extract_id q))) \/
       (magic_mount_ok env t q = false /\ res_magic_module_ids r = []))
  end.
Proof.
  unfold execute.
  destruct (phase_a_exact env (overlay_ops plan) (magic_module_paths plan) []) as [_ H2].
  destruct (foldl (phase_a_step env) (magic_module_paths plan, []) (overlay_ops plan))
    as [mq fb]. simpl in H2.
  assert (Hov : forall x, x ∈ dedup (sort_strings match fb with
      | [] => overlay_module_ids plan
      | _ => filter (fun id => id ∉ fb) (overlay_module_ids plan) end) <->
      x ∈ overlay_module_ids plan /\
      ~ exists op, failed_op env plan op /\ x ∈ omap extract_id (layers op)).
  { intros x. rewrite dedup_elem_of, sort_strings_elem_of, final_overlay_elem, H2.
    unfold failed_op. split.
    - intros [Hx Hn]. split; [done|]. intros (op & [Hop Hf] & Hi). apply Hn.
      right. by exists op.
    - intros [Hx Hn]. split; [done|]. intros [Hi|(op & Hop & Hf & Hi)];
        [by apply elem_of_nil in Hi|]. apply Hn. by exists op. }
  assert (Hs : forall l, StronglySorted String.le (dedup (sort_strings l)) /\
                         NoDup (dedup (sort_strings l))).
  { intros l. split; [apply dedup_StronglySorted, sort_strings_sorted|].
    apply (dedup_NoDup String.le), sort_strings_sorted. }
  destruct mq as [|p0 mq].
  - simpl. intros [= <-]. simpl. split; [apply Hs|]. split; [apply Hs|].
    split; [constructor|]. split; [constructor|]. split; [done|]. done.
  - destruct (chosen_tempdir env) as [t|] eqn:Hc; simpl; [|done].
    destruct (ensure_temp_dir_ok env t) eqn:He; simpl; [|done].
    destruct (magic_mount_ok env t (dedup (sort_paths (p0 :: mq)))) eqn:Hm;
      simpl; intros [= <-]; simpl.
    + split; [apply Hs|]. split; [apply Hs|].
      split; [apply Hs|]. split; [apply Hs|]. split; [done|].
      exists t. split; [done|]. split; [done|]. left. done.
    + split; [apply Hs|]. split; [apply Hs|].
      split; [constructor|]. split; [constructor|]. split; [done|].
      exists t. split; [done|]. split; [done|]. right. done.
Qed.

(** [execute]: the magic engine, if called, gets a sorted list of distinct
    paths: the planned magic module paths and the layers of the failed
    overlay operations. It returns [Err] only when that list is non-empty
    and either no temporary directory is picked ([config.tempdir], else
    [select_temp_dir]) or [ensure_temp_dir] fails on the one picked, and then
    it does not call the engine; when the list is empty the engine is not called and
    the result is [Ok] with no magic ids. *)
Theorem execute_magic_call (env : ExecEnv) (plan : MountPlan) :
  (forall q, magic_call (execute env plan) = Some q ->
     StronglySorted path_le q /\ NoDup q /\
     forall p, p ∈ q <-> p ∈ magic_module_paths plan \/
                         exists op, failed_op env plan op /\ p ∈ layers op) /\
  (result (execute env plan) = None ->
     magic_call (execute env plan) = None /\
     (magic_module_paths plan <> [] \/ exists op, failed_op env plan op /\ layers op <> []) /\
     (chosen_tempdir env = None \/
      exists t, chosen_tempdir env = Some t /\ ensure_temp_dir_ok env t = false)) /\
  (magic_module_paths plan = [] -> (forall op, failed_op env plan op -> layers op = []) ->
     magic_call (execute env plan) = None /\
     exists r, result (execute env plan) = Some r /\ res_magic_module_ids r = []).
Proof.
  unfold execute.
  destruct (phase_a_exact env (overlay_ops plan) (magic_module_paths plan) []) as [H1 _].
  destruct (foldl (phase_a_step env) (magic_module_paths plan, []) (overlay_ops plan))
    as [mq fb]. simpl in H1. unfold failed_op.
  destruct mq as [|p0 mq].
  - simpl. split; [done|]. split; [done|]. intros _ _. split; [done|]. by eexists.
  - assert (Hne : magic_module_paths plan <> [] \/
        exists op, (op ∈ overlay_ops plan /\
          mount_overlay_ok env (target op) (layers op) = false) /\ layers op <> []).
    { destruct (proj1 (H1 p0) (list_elem_of_here _ _)) as [Hp|(op & Hop & Hf & Hp)].
      - left. intros E. rewrite E in Hp. by apply elem_of_nil in Hp.
      - right. exists op. split; [done|]. intros E. rewrite E in Hp.
        by apply elem_of_nil in Hp. }
    split; [|split].
    + intros q.
      destruct (chosen_tempdir env) as [t|]; simpl; [|done].
      destruct (ensure_temp_dir_ok env t); simpl; [|done].
      assert (Hq : forall q, Some (dedup (sort_paths (p0 :: mq))) = Some q ->
         StronglySorted path_le q /\ NoDup q /\
         forall p, p ∈ q <-> p ∈ magic_module_paths plan \/
            exists op, (op ∈ overlay_ops plan /\
              mount_overlay_ok env (target op) (layers op) = false) /\ p ∈ layers op).
      { intros q' [= <-]. split; [|split].
        - apply dedup_StronglySorted. unfold sort_paths.
          apply StronglySorted_merge_sort; apply _.
        - apply (dedup_NoDup path_le). unfold sort_paths.
          apply StronglySorted_merge_sort; apply _.
        - intros p. rewrite dedup_elem_of, sort_paths_elem_of, H1. naive_solver. }
      destruct (magic_mount_ok env t (dedup (sort_paths (p0 :: mq)))); apply Hq.
    + destruct (chosen_tempdir env) as [t|] eqn:Hc; simpl.
      * destruct (ensure_temp_dir_ok env t) eqn:He; simpl.
        -- by destruct (magic_mount_ok env t (dedup (sort_paths (p0 :: mq)))).
        -- intros _. split; [done|]. split; [done|]. right. by exists t.
      * intros _. split; [done|]. split; [done|]. by left.
    + intros Hm Hl. exfalso.
      destruct Hne as [Hne|(op & Hop & Hne)]; [done|]. by apply Hne, Hl.
Qed.

(** [execute]: when every overlay operation mounts, the final overlay ids
    are the planned ones, sorted and deduplicated, and the magic engine, if
    called, gets exactly the planned magic module paths, sorted and
    deduplicated. *)
Theorem execute_all_overlays_mounted (env : ExecEnv) (plan : MountPlan) :
  (forall op, op ∈ overlay_ops plan -> mount_overlay_ok env (target op) (layers op) = true) ->
  (forall r, result (execute env plan) = Some r ->
     res_overlay_module_ids r = dedup (sort_strings (overlay_module_ids plan))) /\
  (forall q, magic_call (execute env plan) = Some q ->
     q = dedup (sort_paths (magic_module_paths plan))).
Proof.
  intros Hok. unfold execute, chosen_tempdir. rewrite (phase_a_all_ok env _ _ Hok).
  destruct (magic_module_paths plan) as [|p0 mq]; simpl.
  - split; [by intros r [= <-]|done].
  - destruct (match config_tempdir env with Some t => Some t | None => select_temp_dir env end)
      as [t|]; simpl; [|done].
    destruct (ensure_temp_dir_ok env t); simpl; [|done].
    destruct (magic_mount_ok env t (dedup (sort_paths (p0 :: mq)))); simpl;
      (split; [by intros r [= <-]|by intros q [= <-]]).
Qed.

(** A plan with a [/system] operation that mounts and a [/vendor] one that
    does not, sharing module [b], and a planned magic module [m]. *)
Definition demo_plan : MountPlan :=
  {| overlay_ops := [{| target := ["system"]; layers := [["mods"; "a"]; ["mods"; "b"]] |};
                     {| target := ["vendor"]; layers := [["mods"; "b"]] |}];
     magic_module_paths := [["mods"; "m"]];
     overlay_module_ids := ["b"; "a"];
     magic_module_ids := ["m"] |}.

Definition demo_env (overlay_ok : path -> bool) : ExecEnv :=
  {| mount_overlay_ok := fun t _ => overlay_ok t;
     config_tempdir := None;
     select_temp_dir := Some ["tmp"];
     ensure_temp_dir_ok := fun _ => true;
     magic_mount_ok := fun _ _ => true |}.

Definition system_only (t : path) : bool := bool_decide (t = ["system"]).

Lemma execute_result_ids_witness :
  execute (demo_env system_only) demo_plan =
    {| result := Some {| res_overlay_module_ids := ["a"];
                         res_magic_module_ids := ["b"; "m"] |};
       magic_call := Some [["mods"; "b"]; ["mods"; "m"]] |} /\
  let r := {| res_overlay_module_ids := ["a"]; res_magic_module_ids := ["b"; "m"] |} in
  StronglySorted String.le (res_overlay_module_ids r) /\ NoDup (res_overlay_module_ids r) /\
  StronglySorted String.le (res_magic_module_ids r) /\ NoDup (res_magic_module_ids r) /\
  (forall x, x ∈ res_overlay_module_ids r <-> x ∈ overlay_module_ids demo_plan /\
     ~ exists op, failed_op (demo_env system_only) demo_plan op /\
                  x ∈ omap extract_id (layers op)) /\
  match magic_call (execute (demo_env system_only) demo_plan) with
  | None => res_magic_module_ids r = []
  | Some q => exists t, chosen_tempdir (demo_env system_only) = Some t /\
      ensure_temp_dir_ok (demo_env system_only) t = true /\
      ((magic_mount_ok (demo_env system_only) t q = true /\
        res_magic_module_ids r = dedup (sort_strings (omap extract_id q))) \/
       (magic_mount_ok (demo_env system_only) t q = false /\ res_magic_module_ids r = []))
  end.
Proof.
  split; [vm_compute; reflexivity|].
  apply execute_result_ids. vm_compute. reflexivity.
Defined.

Lemma execute_all_overlays_mounted_witness :
  let plan := {| overlay_ops := [{| target := ["system"]; layers := [["mods"; "a"]] |}];
                 magic_module_paths := [["mods"; "z"]; ["mods"; "m"]; ["mods"; "z"]];
                 overlay_module_ids := ["b"; "a"; "b"];
                 magic_module_ids := ["z"; "m"] |} in
  execute (demo_env (fun _ => true)) plan =
    {| result := Some {| res_overlay_module_ids := ["a"; "b"];
                         res_magic_module_ids := ["m"; "z"] |};
       magic_call := Some [["mods"; "m"]; ["mods"; "z"]] |} /\
  (forall r, result (execute (demo_env (fun _ => true)) plan) = Some r ->
     res_overlay_module_ids r = dedup (sort_strings (overlay_module_ids plan))) /\
  (forall q, magic_call (execute (demo_env (fun _ => true)) plan) = Some q ->
     q = dedup (sort_paths (magic_module_paths plan))).
Proof.
  intros plan. split; [vm_compute; reflexivity|].
  apply execute_all_overlays_mounted. intros op _. reflexivity.
Defined.

End ExecutorExtra.

(** ** Further properties: the granary *)
Module GranaryExtra.
Import Granary GranaryFacts.

#[local] Instance Silo_eq_dec : EqDecision Silo.
Proof. solve_decision. Defined.










Lemma delete_silo_plain remove_ok fs sid fs' :
  has_slash sid = false -> delete_silo remove_ok fs sid = Some fs' ->
  granary_exists fs = true /\ fs' = with_granary fs (delete (silo_file sid) (granary fs)).
Proof.
  intros Hs. unfold delete_silo. rewrite silo_path_plain by done.
  destruct (granary_exists fs); [|discriminate].
  rewrite lookup_entry_granary.
  destruct (granary fs !! silo_file sid) as [[c| |]|]; destruct remove_ok;
    intros H; try discriminate H; injection H as <-;
    (split; [done|]); reflexivity.
Qed.

(** [delete_silo(id)] resolves [GRANARY_DIR/<id>.json] as the kernel does
    ([..] and an absolute [id] included).  It gives [Err] iff nothing
    exists there, a directory is there, or [remove_file] fails.  On success
    exactly that entry is gone: every other path is untouched, the id
    resolves to the same path, and a second [delete_silo] or a
    [restore_silo] of the same id fails.  An id without ['/'] resolves to
    [GRANARY_DIR/<id>.json] when the granary exists (and to nothing
    otherwise), and then, for a granary of the shape [create_silo] gives
    it, the listed silos are the former ones minus the deleted one. *)
Theorem delete_silo_removes_file (remove_ok : bool) (fs : GranaryFs) (sid : string) :
  (delete_silo remove_ok fs sid = None <->
     silo_entry fs sid = None \/ silo_entry fs sid = Some GDir \/ remove_ok = false) /\
  (forall fs', delete_silo remove_ok fs sid = Some fs' ->
     exists p, silo_path fs sid = Some p /\ is_Some (lookup_entry fs p) /\
       fs' = remove_entry fs p /\
       lookup_entry fs' p = None /\
       (forall q, q <> p -> lookup_entry fs' q = lookup_entry fs q) /\
       silo_path fs' sid = Some p /\
       delete_silo remove_ok fs' sid = None /\ restore_silo fs' sid = None) /\
  (has_slash sid = false ->
     silo_path fs sid =
       if granary_exists fs then Some (GRANARY_DIR ++ [silo_file sid]) else None) /\
  (has_slash sid = false -> granary_wf fs ->
   forall fs', delete_silo remove_ok fs sid = Some fs' ->
     exists l l', list_silos fs = Some l /\ list_silos fs' = Some l' /\
       forall s, s ∈ l' <-> s ∈ l /\ silo_file (id s) <> silo_file sid).
Proof.
  split; [|split; [|split]].
  - unfold delete_silo, silo_entry.
    destruct (silo_path fs sid) as [p|]; [|split; [by left|done]].
    destruct (lookup_entry fs p) as [[c| |]|]; destruct remove_ok;
      split; intros H;
      first [ discriminate H | by left | by right; left | by right; right | done
            | by destruct H as [H|[H|H]]; discriminate H ].
  - intros fs' H. unfold delete_silo in H.
    destruct (silo_path fs sid) as [p|] eqn:Hp; [|done].
    destruct (lookup_entry fs p) as [e|] eqn:He; [|done].
    assert (Hnd : match lookup_entry fs p with Some GDir => False | _ => True end /\
                  remove_entry fs p = fs').
    { rewrite He. destruct e; destruct remove_ok; try done; by injection H as <-. }
    destruct Hnd as [Hnd <-].
    assert (Hp' : silo_path (remove_entry fs p) sid = Some p)
      by (rewrite silo_path_remove_entry; done).
    assert (Hgone : lookup_entry (remove_entry fs p) p = None)
      by (rewrite lookup_remove_entry; by rewrite decide_True).
    exists p. split; [done|]. split; [by rewrite He|]. split; [done|].
    split; [done|]. split.
    { intros q Hq. rewrite lookup_remove_entry. by rewrite decide_False. }
    split; [done|]. split.
    + unfold delete_silo. by rewrite Hp', Hgone.
    + unfold restore_silo, silo_entry. by rewrite Hp', Hgone.
  - apply silo_path_plain.
  - intros Hs Hwf fs' Hd.
    destruct (delete_silo_plain remove_ok fs sid fs' Hs Hd) as [Hex ->].
    destruct Hwf as (Hl & He & Hg).
    assert (Hwf' : granary_wf (with_granary fs (delete (silo_file sid) (granary fs)))).
    { split; [exact Hl|]. split; [cbn [granary_exists with_granary]; congruence|].
      eapply entries_wf_sub; [exact Hg|]. intros k c Hk.
      cbn [granary with_granary] in Hk. by apply lookup_delete_Some in Hk as [_ Hk]. }
    eexists _, _. split; [by apply list_silos_wf|]. split; [by apply list_silos_wf|].
    intros s. cbn [granary with_granary].
    rewrite !elem_of_sorted_silos, !elem_of_parsed_silos. split.
    + intros (k & Hk & Hj). apply lookup_delete_Some in Hk as [Hne Hk].
      destruct (Hg k _ Hk Hj) as (s' & [= <-] & -> & _).
      split; [by exists (silo_file (id s))|done].
    + intros [(k & Hk & Hj) Hne].
      destruct (Hg k _ Hk Hj) as (s' & [= <-] & -> & _).
      exists (silo_file (id s)). split; [|done]. by apply lookup_delete_Some.
Qed.

(** The parent of the granary and a file below it. *)
Definition outside_fs : GranaryFs :=
  {| counter := None; counter_writable := true;
     granary_exists := true; granary_listable := true;
     granary := ∅;
     others := {[ ["data"; "adb"; "meta-hybrid"] := GDir;
                  ["data"; "adb"; "meta-hybrid"; "rules"] := GDir;
                  ["data"; "adb"; "meta-hybrid"; "rules"; "user.json"] := GFile None ]};
     live_config := Some "cfg"; config_writable := true;
     modules_dir_exists := true; modules := [] |}.

(** An id with [..] reaches a file outside the granary: [delete_silo]
    removes [/data/adb/meta-hybrid/rules/user.json] and succeeds. *)
Lemma delete_silo_dotdot_outside :
  silo_path outside_fs "../rules/user" =
    Some ["data"; "adb"; "meta-hybrid"; "rules"; "user.json"] /\
  exists fs', delete_silo true outside_fs "../rules/user" = Some fs' /\
    lookup_entry fs' ["data"; "adb"; "meta-hybrid"; "rules"; "user.json"] = None.
Proof.
  split; [vm_compute; reflexivity|].
  eexists. split; [vm_compute; reflexivity|]. vm_compute. reflexivity.
Qed.


(** [engage_ratoon_protocol] returns [Err] only when the counter cannot be
    written, or when the counter reaches 3, the rollback to the latest
    silo fails and [disable_all_modules] fails too. The [u8] counter wraps:
    a counter file holding 255 is rewritten to 0, with no rollback. *)
Theorem engage_ratoon_protocol_result fs :
  let count := Nat.modulo (parse_counter (counter fs) + 1) 256 in
  ((engage_ratoon_protocol fs).2 = false <->
     counter_writable fs = false \/
     (3 <= count /\ restore_latest_silo fs = None /\ (disable_all_modules fs).2 = false)) /\
  (counter_writable fs = true -> parse_counter (counter fs) = 255 ->
     engage_ratoon_protocol fs = (with_counter fs (Some (Num 0)), true)).
Proof.
  cbv zeta. unfold engage_ratoon_protocol. split.
  - destruct (counter_writable fs) eqn:Hw; cbn [negb]; [|split; [by left|done]].
    set (count := Nat.modulo (parse_counter (counter fs) + 1) 256).
    destruct (decide (3 <= count)) as [H3|H3].
    + rewrite restore_with_counter.
      destruct (restore_latest_silo fs) as [fs2|]; cbn [option_map snd].
      * split; [done|]. intros [?|(_ & ? & _)]; done.
      * assert (Hd : (disable_all_modules (with_counter fs (Some (Num count)))).2 =
                     (disable_all_modules fs).2).
        { unfold disable_all_modules. cbn [modules_dir_exists modules with_counter].
          destruct (modules_dir_exists fs); [|done].
          by destruct (disable_entries (modules fs)). }
        rewrite Hd. split; [intros H; by right|]. intros [?|(_ & _ & H)]; [done|exact H].
    + split; [done|]. intros [?|(? & _ & _)]; done.
  - intros Hw H255. rewrite Hw, H255. reflexivity.
Qed.

End GranaryExtra.

(** ** Further properties: the overlay engine *)
Module OverlayExtra.
Import Overlay.

(** [Path::new(lower).join(relative.trim_start_matches('/'))]. *)
Definition module_child_path (relative lower : string) : string :=
  join_str lower (trim_start_slash relative).

Lemma collect_lower_dirs_nondir mfs relative roots :
  (exists lower, lower ∈ roots /\ m_exists mfs (module_child_path relative lower) = true /\
                 m_is_dir mfs (module_child_path relative lower) = false) ->
  collect_lower_dirs mfs relative roots = None.
Proof.
  induction roots as [|l roots IH]; intros (lower & Hin & He & Hd);
    [by apply elem_of_nil in Hin|].
  simpl. apply elem_of_cons in Hin as [->|Hin].
  - unfold module_child_path in He, Hd. by rewrite Hd, He.
  - rewrite IH by eauto. by repeat case_match.
Qed.

Lemma collect_lower_dirs_all_dirs mfs relative roots :
  (forall lower, lower ∈ roots -> m_exists mfs (module_child_path relative lower) = true ->
                 m_is_dir mfs (module_child_path relative lower) = true) ->
  collect_lower_dirs mfs relative roots =
    Some (filter (fun p => m_is_dir mfs p = true) (map (module_child_path relative) roots)).
Proof.
  induction roots as [|l roots IH]; intros Hall; [done|].
  simpl. rewrite filter_cons.
  change (join_str l (trim_start_slash relative)) with (module_child_path relative l).
  rewrite IH by (intros lower Hl; apply Hall; by right).
  destruct (m_is_dir mfs (module_child_path relative l)) eqn:Hd.
  - rewrite decide_True by done. done.
  - rewrite decide_False by done.
    destruct (m_exists mfs (module_child_path relative l)) eqn:He; [|done].
    exfalso. rewrite (Hall l ltac:(left) He) in Hd. done.
Qed.

Lemma has_modification_iff mfs relative roots :
  existsb (fun lower => m_exists mfs (join_str lower (trim_start_slash relative))) roots = true <->
  exists lower, lower ∈ roots /\ m_exists mfs (module_child_path relative lower) = true.
Proof.
  rewrite existsb_exists. unfold module_child_path.
  split; intros (l & Hl & He); exists l; (split; [by apply list_elem_of_In|done]).
Qed.

Lemma mount_overlay_child_binds env mfs mp relative roots stock from to :
  Bind from to ∈ (mount_overlay_child env mfs mp relative roots stock).1 ->
  from = stock /\ to = mp.
Proof.
  unfold mount_overlay_child, bind_mount.
  assert (Hov : forall ev, Bind from to ∉ map Ov ev).
  { intros ev Hin. apply list_elem_of_fmap in Hin as (e & He & _). done. }
  destruct (existsb _ roots); simpl.
  - destruct (m_is_dir mfs stock); simpl; [|by intros ?%elem_of_nil].
    destruct (collect_lower_dirs mfs relative roots) as [[|l ls]|]; simpl;
      [by intros ?%elem_of_nil| |by intros ?%elem_of_nil].
    destruct (mount_overlayfs env (l :: ls) stock None None (str_path mp)) as [ev ok].
    destruct ok; simpl; [intros H; by apply Hov in H|].
    destruct (bind_ok mfs stock mp); simpl; rewrite elem_of_app.
    + intros [H|H]; [by apply Hov in H|]. apply list_elem_of_singleton in H. by injection H.
    + intros [H|H]; [by apply Hov in H|by apply elem_of_nil in H].
  - destruct (bind_ok mfs stock mp); simpl; [|by intros ?%elem_of_nil].
    intros H. apply list_elem_of_singleton in H. by injection H.
Qed.

(** [mount_overlay_child]: it fails only when the bind mount of the stock
    directory fails, and the only bind it makes is of the stock directory
    onto the mount point. With no module providing the child path, it bind
    mounts the stock directory back. When some module has the path as a
    non-directory, or the stock path is not a directory, it does nothing.
    Otherwise it mounts an overlay of the module directories, in the order
    of [module_roots], over the stock directory, and falls back to the bind
    mount when that fails. *)
Theorem mount_overlay_child_outcome (env : OvEnv) (mfs : MountFs)
  (mount_point relative : string) (module_roots : list string) (stock_root : string) :
  let pth := module_child_path relative in
  let r := mount_overlay_child env mfs mount_point relative module_roots stock_root in
  (r.2 = false -> bind_ok mfs stock_root mount_point = false) /\
  (forall from to, Bind from to ∈ r.1 -> from = stock_root /\ to = mount_point) /\
  ((forall lower, lower ∈ module_roots -> m_exists mfs (pth lower) = false) ->
     r = bind_mount mfs stock_root mount_point) /\
  ((exists lower, lower ∈ module_roots /\ m_exists mfs (pth lower) = true /\
                  m_is_dir mfs (pth lower) = false) -> r = ([], true)) /\
  ((exists lower, lower ∈ module_roots /\ m_exists mfs (pth lower) = true) ->
     m_is_dir mfs stock_root = false -> r = ([], true)) /\
  ((exists lower, lower ∈ module_roots /\ m_exists mfs (pth lower) = true) ->
   (forall lower, lower ∈ module_roots -> m_exists mfs (pth lower) = true ->
                  m_is_dir mfs (pth lower) = true) ->
   m_is_dir mfs stock_root = true ->
   let lower_dirs := filter (fun p => m_is_dir mfs p = true) (map pth module_roots) in
   let ov := mount_overlayfs env lower_dirs stock_root None None (str_path mount_point) in
   lower_dirs <> [] /\
   (ov.2 = true -> r = (map Ov ov.1, true)) /\
   (ov.2 = false -> r = (map Ov ov.1 ++ (bind_mount mfs stock_root mount_point).1,
                         bind_ok mfs stock_root mount_point))).
Proof.
  intros pth r. subst pth r.
  split; [|split; [|split; [|split; [|split]]]].
  - unfold mount_overlay_child, bind_mount.
    destruct (existsb _ _); simpl; [|by destruct (bind_ok _ _ _)].
    destruct (m_is_dir mfs stock_root); simpl; [|done].
    destruct (collect_lower_dirs mfs relative module_roots) as [[|l ls]|]; simpl; try done.
    destruct (mount_overlayfs env (l :: ls) stock_root None None (str_path mount_point))
      as [ev ok]. destruct ok; [done|]. by destruct (bind_ok _ _ _).
  - apply mount_overlay_child_binds.
  - intros Hnone. unfold mount_overlay_child.
    destruct (existsb _ _) eqn:Hb; [|done].
    apply has_modification_iff in Hb as (l & Hl & He). by rewrite Hnone in He.
  - intros Hnd. unfold mount_overlay_child.
    destruct (existsb _ _) eqn:Hb; simpl.
    + destruct (m_is_dir mfs stock_root); simpl; [|done].
      by rewrite collect_lower_dirs_nondir.
    + exfalso. destruct Hnd as (l & Hl & He & _).
      assert (Hf : false = true) by (rewrite <- Hb; apply has_modification_iff; eauto). done.
  - intros Hsome Hstock. unfold mount_overlay_child.
    destruct (existsb _ _) eqn:Hb; simpl; [by rewrite Hstock|].
    exfalso. assert (Hf : false = true)
      by (rewrite <- Hb; apply has_modification_iff; eauto). done.
  - intros Hsome Hall Hstock lower_dirs ov. subst lower_dirs ov.
    assert (Hne : filter (fun p => m_is_dir mfs p = true)
                    (map (module_child_path relative) module_roots) <> []).
    { destruct Hsome as (l & Hl & He). intros E.
      assert (Hin : module_child_path relative l ∈
                    filter (fun p => m_is_dir mfs p = true)
                      (map (module_child_path relative) module_roots)).
      { apply list_elem_of_filter. split; [by apply Hall|].
        by apply list_elem_of_fmap_2. }
      rewrite E in Hin. by apply elem_of_nil in Hin. }
    split; [done|].
    unfold mount_overlay_child.
    destruct (existsb _ _) eqn:Hb; simpl;
      [|exfalso; assert (Hf : false = true)
          by (rewrite <- Hb; apply has_modification_iff; eauto); done].
    rewrite Hstock. simpl. rewrite collect_lower_dirs_all_dirs by done.
    destruct (filter _ _) as [|l ls]; [done|].
    destruct (mount_overlayfs env (l :: ls) stock_root None None (str_path mount_point))
      as [ev ok]. simpl.
    split; intros ->; [done|].
    unfold bind_mount. by destruct (bind_ok mfs stock_root mount_point).
Qed.

(** [mount_overlay]: it succeeds iff the target root opens and the root
    overlay mounts; errors of the child mounts never make it fail. When it
    fails, its only effects are those of the root overlay attempt: no child
    mount point is touched. Every bind mount it makes puts the stock path at
    the same relative position onto one of [child_mounts], and only when
    that stock path exists. *)
Theorem mount_overlay_outcome (env : OvEnv) (mfs : MountFs) (target_root : string)
  (module_roots : list string) (workdir upperdir : option path)
  (child_mounts : list string) :
  let stock_root := "/proc/self/fd/" +:+ pretty (root_fd mfs) in
  let root := mount_overlayfs env module_roots stock_root upperdir workdir
                (str_path target_root) in
  let r := mount_overlay env mfs target_root module_roots workdir upperdir child_mounts in
  (r.2 = true <-> open_ok mfs target_root = true /\ root.2 = true) /\
  (r.2 = false -> r.1 = if open_ok mfs target_root then map Ov root.1 else []) /\
  (forall from to, Bind from to ∈ r.1 ->
     to ∈ child_mounts /\ from = stock_root +:+ remove_first target_root to /\
     m_exists mfs from = true).
Proof.
  intros stock_root root r. subst r root stock_root. unfold mount_overlay.
  destruct (open_ok mfs target_root); simpl;
    [|split; [split; [done|by intros []]|split; [done|by intros ?? ?%elem_of_nil]]].
  destruct (mount_overlayfs env module_roots _ upperdir workdir (str_path target_root))
    as [ev ok]. destruct ok; simpl.
  - split; [done|]. split; [done|].
    intros from to. rewrite elem_of_app.
    intros [Hin|Hin]; [by apply list_elem_of_fmap in Hin as (e & ? & _)|].
    apply list_elem_of_In, in_flat_map in Hin as (mp & Hmp & Hin).
    apply list_elem_of_In in Hin. unfold child_step in Hin.
    destruct (m_exists mfs _) eqn:He; simpl in Hin; [|by apply elem_of_nil in Hin].
    apply mount_overlay_child_binds in Hin as [-> ->].
    split; [by apply list_elem_of_In|]. done.
  - split; [by split; [|intros [_ ?]]|]. split; [done|].
    intros from to Hin. by apply list_elem_of_fmap in Hin as (e & ? & _).
Qed.

Lemma chunk_go_tail dirs :
  forall batches cur len,
  cur <> [] -> len = OverlayFacts.batch_len cur ->
  OverlayFacts.batch_len cur <= SAFE_CHUNK_SIZE \/ length cur = 1 ->
  exists bs, chunk_go dirs batches cur len = batches ++ bs /\
    Forall (fun b => b <> [] /\
      (OverlayFacts.batch_len b <= SAFE_CHUNK_SIZE \/ length b = 1)) bs.
Proof.
  induction dirs as [|d dirs IH]; intros batches cur len Hne Hlen Hfit; simpl.
  - destruct cur as [|c cur']; [done|]. exists [c :: cur']. split; [done|].
    by apply Forall_singleton.
  - case_decide as Hover.
    + destruct (IH (batches ++ [cur]) [d] (String.length d + 1)) as (bs & Hr & Hf);
        [done|simpl; lia|by right|].
      exists (cur :: bs). rewrite Hr, <- app_assoc. split; [done|].
      by apply Forall_cons.
    + destruct (IH batches (cur ++ [d]) (len + String.length d + 1)) as (bs & Hr & Hf).
      * by destruct cur.
      * rewrite OverlayFacts.batch_len_app. simpl. lia.
      * left. rewrite OverlayFacts.batch_len_app. simpl. lia.
      * by exists bs.
Qed.

(** The batching of [mount_overlayfs_staged] without any bound on the
    directory names: every batch is non-empty and either fits in
    [SAFE_CHUNK_SIZE] or is a single directory, except that an empty first
    batch is pushed exactly when the first directory alone, with its
    separator, exceeds [SAFE_CHUNK_SIZE]. No directories give no batch. *)
Theorem make_batches_oversized dirs :
  match dirs with
  | [] => make_batches dirs = []
  | d :: _ =>
      exists bs,
        make_batches dirs =
          (if decide (SAFE_CHUNK_SIZE < String.length d + 1) then [[]] else []) ++ bs /\
        Forall (fun b => b <> [] /\
          (OverlayFacts.batch_len b <= SAFE_CHUNK_SIZE \/ length b = 1)) bs
  end.
Proof.
  destruct dirs as [|d dirs]; [reflexivity|]. unfold make_batches. cbn [chunk_go].
  rewrite Nat.add_0_l. case_decide as Hover.
  - apply chunk_go_tail; [done|simpl; lia|by right].
  - apply chunk_go_tail; [done|simpl; lia|left; simpl; lia].
Qed.

End OverlayExtra.

(** ** Further properties: the magic-mount engine *)
Module MagicExtra.
Import Magic.

Lemma merge_nodes_eq high low :
  merge_nodes high low =
    match module_path high with
    | None => mkNode (name high) (file_type low) (module_path low) (replace low) (skip high)
                (merge_children merge_nodes (children high) (children low))
    | Some _ => mkNode (name high) (file_type high) (module_path high) (replace high)
                  (skip high) (merge_children merge_nodes (children high) (children low))
    end.
Proof.
  destruct low as [n ft mp r s chs]. cbn [merge_nodes children].
  assert (Hm : forall hs,
    (fix go (hs ls : list (string * Node)) {struct ls} : list (string * Node) :=
       match ls with
       | [] => hs
       | (nm, lc) :: rest =>
           go ((fix ins (l : list (string * Node)) : list (string * Node) :=
                  match l with
                  | [] => [(nm, lc)]
                  | (nm', hc) :: l' =>
                      if String.eqb nm' nm then (nm', merge_nodes hc lc) :: l'
                      else (nm', hc) :: ins l'
                  end) hs) rest
       end) hs chs = merge_children merge_nodes hs chs).
  { induction chs as [|[nm lc] rest IH]; intros hs; [reflexivity|].
    cbn [merge_children]. rewrite <- IH. f_equal.
    induction hs as [|[nm' hc] hs IHh]; [reflexivity|]. simpl.
    by rewrite IHh. }
  by rewrite Hm.
Qed.

Section MergeChildren.
Variable f : Node -> Node -> Node.

Lemma merge_into_keys nm lc hs k :
  k ∈ map fst (merge_into f nm lc hs) <-> k = nm \/ k ∈ map fst hs.
Proof.
  induction hs as [|[nm' hc] hs IH]; simpl.
  - rewrite list_elem_of_singleton. split; [by left|]. intros [->|H]; [done|].
    by apply elem_of_nil in H.
  - destruct (String.eqb_spec nm' nm) as [->|Hne]; simpl; rewrite !elem_of_cons.
    + naive_solver.
    + rewrite IH. naive_solver.
Qed.

Lemma merge_into_NoDup nm lc hs :
  NoDup (map fst hs) -> NoDup (map fst (merge_into f nm lc hs)).
Proof.
  induction hs as [|[nm' hc] hs IH]; simpl; intros Hnd.
  - apply NoDup_singleton.
  - apply NoDup_cons in Hnd as [Hn Hnd].
    destruct (String.eqb_spec nm' nm) as [->|Hne]; simpl; apply NoDup_cons; split; try done.
    + rewrite merge_into_keys. naive_solver.
    + by apply IH.
Qed.

Lemma merge_into_elem nm lc hs k c :
  NoDup (map fst hs) ->
  (k, c) ∈ merge_into f nm lc hs <->
    (k <> nm /\ (k, c) ∈ hs) \/
    (k = nm /\ ((exists hc, (nm, hc) ∈ hs /\ c = f hc lc) \/ ((nm ∉ map fst hs) /\ c = lc))).
Proof.
  induction hs as [|[nm' hc] hs IH]; simpl; intros Hnd.
  - rewrite list_elem_of_singleton. split.
    + intros [= -> ->]. right. split; [done|]. right. split; [apply not_elem_of_nil|done].
    + intros [[_ H]|[-> [(hc & H & _)|[_ ->]]]]; [by apply elem_of_nil in H|
        by apply elem_of_nil in H|done].
  - apply NoDup_cons in Hnd as [Hn Hnd].
    destruct (String.eqb_spec nm' nm) as [->|Hne]; setoid_rewrite elem_of_cons.
    + split.
      * intros [[= -> ->]|H].
        -- right. split; [done|]. left. exists hc. split; [by left|done].
        -- left. split; [|by right]. intros ->. apply Hn.
           apply list_elem_of_fmap. by exists (nm, c).
      * intros [[Hk [[= -> ->]|H]]|[-> [(hc' & [[= <-]|H] & ->)|[Hnm _]]]].
        -- done.
        -- by right.
        -- by left.
        -- exfalso. apply Hn. apply list_elem_of_fmap. by exists (nm, hc').
        -- exfalso. apply Hnm. by left.
    + rewrite IH by done. split.
      * intros [[= -> ->]|[[Hk H]|[-> [(hc' & H & ->)|[Hnm ->]]]]].
        -- left. split; [done|]. by left.
        -- left. split; [done|]. by right.
        -- right. split; [done|]. left. exists hc'. split; [by right|done].
        -- right. split; [done|]. right. split; [|done].
           simpl. intros [H|H]; [done|by apply Hnm].
      * intros [[Hk [[= -> ->]|H]]|[-> [(hc' & [[= ->]|H] & ->)|[Hnm ->]]]].
        -- by left.
        -- right. left. by split.
        -- done.
        -- right. right. split; [done|]. left. by exists hc'.
        -- right. right. split; [done|]. right. split; [|done].
           intros H. apply Hnm. by right.
Qed.

Lemma merge_children_keys ls :
  forall hs k, k ∈ map fst (merge_children f hs ls) <-> k ∈ map fst hs \/ k ∈ map fst ls.
Proof.
  induction ls as [|[nm lc] ls IH]; intros hs k; simpl.
  - split; [by left|]. intros [H|H]; [done|by apply elem_of_nil in H].
  - rewrite IH, merge_into_keys, elem_of_cons. naive_solver.
Qed.

Lemma merge_children_NoDup ls :
  forall hs, NoDup (map fst hs) -> NoDup (map fst (merge_children f hs ls)).
Proof.
  induction ls as [|[nm lc] ls IH]; intros hs Hnd; simpl; [done|].
  by apply IH, merge_into_NoDup.
Qed.

Lemma merge_children_elem ls :
  forall hs, NoDup (map fst hs) -> NoDup (map fst ls) ->
  forall k c, (k, c) ∈ merge_children f hs ls <->
    ((k, c) ∈ hs /\ k ∉ map fst ls) \/
    ((k, c) ∈ ls /\ k ∉ map fst hs) \/
    (exists hc lc, (k, hc) ∈ hs /\ (k, lc) ∈ ls /\ c = f hc lc).
Proof.
  induction ls as [|[nm lc] ls IH]; intros hs Hh Hl k c; cbn [merge_children map fst] in *.
  - split; [intros H; left; split; [done|apply not_elem_of_nil]|].
    intros [[H _]|[[H _]|(hc & lc & _ & H & _)]]; [done| |]; by apply elem_of_nil in H.
  - apply NoDup_cons in Hl as [Hn Hl].
    rewrite IH by (try apply merge_into_NoDup; done).
    rewrite merge_into_elem by done.
    setoid_rewrite merge_into_elem; [|done].
    rewrite merge_into_keys, !elem_of_cons.
    assert (Hnot : forall c', (nm, c') ∉ ls).
    { intros c' H. apply Hn. apply list_elem_of_fmap. by exists (nm, c'). }
    assert (Hkey : forall k' c', (k', c') ∈ hs -> k' ∈ map fst hs).
    { intros k' c' H. apply list_elem_of_fmap. by exists (k', c'). }
    split.
    + intros [[[[Hk H]|[-> [(hc & H & ->)|[Hnm ->]]]] Hk2]|[[H Hk2]|(hc & lc' & Hhc & Hlc & ->)]].
      * left. split; [done|]. intros [->|Hin]; [done|by apply Hk2].
      * right. right. exists hc, lc. split; [done|]. split; [by left|done].
      * right. left. split; [by left|done].
      * right. left. split; [by right|]. intros Hin. apply Hk2. by right.
      * destruct Hhc as [[Hk H]|[-> _]]; [|by exfalso; apply (Hnot lc')].
        right. right. exists hc, lc'. split; [done|]. split; [by right|done].
    + intros [[H Hk]|[[[[= -> ->]|H] Hk]|(hc & lc' & Hhc & Hlc & ->)]].
      * left. split; [left; split; [|done]|].
        -- intros ->. apply Hk. by left.
        -- intros Hin. apply Hk. by right.
      * left. split; [|done]. right. split; [done|]. right. by split.
      * right. left. split; [done|]. intros [->|Hin]; [by apply (Hnot c)|by apply Hk].
      * apply elem_of_cons in Hlc as [[= -> ->]|Hlc].
        -- left. split; [|done]. right. split; [done|]. left. by exists hc.
        -- right. right. exists hc, lc'. split; [|done].
           left. split; [|done]. intros ->. by apply (Hnot lc').
Qed.

End MergeChildren.

(** [merge_nodes(high, low)] folds [low] into [high]: the merged node keeps
    [high]'s name and [skip]; it takes [low]'s [module_path], [file_type] and
    [replace] exactly when [high] has no module path; and its children, a map
    by name, hold each child of only one side unchanged and, for a name on
    both sides, the merge of the two children. The children stay a map (no
    name twice). *)
Theorem merge_nodes_fields_children high low
  (Hh : NoDup (map fst (children high))) (Hl : NoDup (map fst (children low))) :
  let m := merge_nodes high low in
  name m = name high /\ skip m = skip high /\
  (module_path high = None ->
     module_path m = module_path low /\ file_type m = file_type low /\ replace m = replace low) /\
  (is_Some (module_path high) ->
     module_path m = module_path high /\ file_type m = file_type high /\ replace m = replace high) /\
  NoDup (map fst (children m)) /\
  (forall k, k ∈ map fst (children m) <-> k ∈ map fst (children high) \/ k ∈ map fst (children low)) /\
  (forall k c, (k, c) ∈ children m <->
     ((k, c) ∈ children high /\ k ∉ map fst (children low)) \/
     ((k, c) ∈ children low /\ k ∉ map fst (children high)) \/
     (exists hc lc, (k, hc) ∈ children high /\ (k, lc) ∈ children low /\ c = merge_nodes hc lc)).
Proof.
  cbv zeta. rewrite merge_nodes_eq.
  destruct (module_path high) as [mp|] eqn:Em; cbn [name skip module_path file_type replace children];
    (split; [done|]); (split; [done|]).
  - split; [done|]. split; [intros _; done|].
    split; [by apply merge_children_NoDup|].
    split; [apply merge_children_keys|]. by apply merge_children_elem.
  - split; [intros _; done|]. split; [intros [? ?]; done|].
    split; [by apply merge_children_NoDup|].
    split; [apply merge_children_keys|]. by apply merge_children_elem.
Qed.

Definition demo_low : Node :=
  mkNode "system" Directory (Some ["mods"; "b"; "system"]) false false
    [("a", mkNode "a" RegularFile (Some ["mods"; "b"; "system"; "a"]) false false []);
     ("c", mkNode "c" RegularFile (Some ["mods"; "b"; "system"; "c"]) false false [])].

Definition demo_high : Node :=
  mkNode "system" Directory None false true
    [("a", mkNode "a" RegularFile (Some ["mods"; "a"; "system"; "a"]) false false [])].

Lemma merge_nodes_fields_children_witness :
  NoDup (map fst (children demo_high)) /\ NoDup (map fst (children demo_low)) /\
  module_path (merge_nodes demo_high demo_low) = Some ["mods"; "b"; "system"] /\
  ("c", mkNode "c" RegularFile (Some ["mods"; "b"; "system"; "c"]) false false [])
    ∈ children (merge_nodes demo_high demo_low).
Proof.
  assert (Hh : NoDup (map fst (children demo_high))) by (cbn; repeat constructor; set_solver).
  assert (Hl : NoDup (map fst (children demo_low))) by (cbn; repeat constructor; set_solver).
  pose proof (merge_nodes_fields_children demo_high demo_low Hh Hl) as H.
  cbv zeta in H. destruct H as (_ & _ & Hnone & _ & _ & _ & Helem).
  split; [done|]. split; [done|]. split.
  - by apply Hnone.
  - apply Helem. right. left. split.
    + apply list_elem_of_In. cbn. tauto.
    + cbn. rewrite list_elem_of_singleton. discriminate.
Defined.

(** The test [check_tmpfs] makes on one child named [nm]: the child's
    target under [p] must be replaced by a tmpfs. *)
Definition tmpfs_need (env : MagicEnv) (p : path) (nm : string) (c : Node) : bool :=
  let real_path := join p nm in
  match file_type c with
  | Symlink => true
  | Whiteout => live_exists env real_path
  | ft => match live_type env real_path with
          | Some t => bool_decide (t <> ft) || bool_decide (t = Symlink)
          | None => true
          end
  end.

Lemma check_tmpfs_cons env p nm c rest :
  check_tmpfs env p ((nm, c) :: rest) =
    if tmpfs_need env p nm c then
      match module_path c with
      | None => let '(sk, ht) := check_tmpfs env p rest in (true :: sk, ht)
      | Some _ => (skip c :: map (fun '(_, c') => skip c') rest, true)
      end
    else let '(sk, ht) := check_tmpfs env p rest in (skip c :: sk, ht).
Proof. reflexivity. Qed.

(** [check_tmpfs] walks the children in order. When no child both needs a
    tmpfs and has a module file, it reports no tmpfs and every child that
    needs one is marked skipped (the others keep their flag). Otherwise it
    reports a tmpfs at the first such child: the children before it are
    flagged as in the first case (those needing a tmpfs have no module
    file), and that child and all after it keep their own [skip] flag. *)
Theorem check_tmpfs_outcome env p chs :
  let r := check_tmpfs env p chs in
  (r.2 = false ->
     r.1 = map (fun '(nm, c) => skip c || tmpfs_need env p nm c) chs /\
     forall nm c, (nm, c) ∈ chs -> tmpfs_need env p nm c = true -> module_path c = None) /\
  (r.2 = true ->
     exists pre nm c post,
       chs = pre ++ (nm, c) :: post /\
       tmpfs_need env p nm c = true /\ is_Some (module_path c) /\
       (forall nm' c', (nm', c') ∈ pre -> tmpfs_need env p nm' c' = true -> module_path c' = None) /\
       r.1 = map (fun '(nm', c') => skip c' || tmpfs_need env p nm' c') pre ++
             map (fun '(_, c') => skip c') ((nm, c) :: post)).
Proof.
  cbv zeta. induction chs as [|[nm c] rest IH].
  - split; [|done]. intros _. split; [done|]. intros nm c H. by apply elem_of_nil in H.
  - rewrite check_tmpfs_cons.
    destruct (check_tmpfs env p rest) as [sk ht] eqn:Er. cbn [fst snd] in IH.
    destruct IH as [IHf IHt].
    destruct (tmpfs_need env p nm c) eqn:En; [destruct (module_path c) as [mp|] eqn:Em|];
      cbn [fst snd].
    + split; [discriminate|]. intros _. exists [], nm, c, rest.
      split; [done|]. split; [done|]. split; [by rewrite Em|].
      split; [intros ? ? H; by apply elem_of_nil in H|]. reflexivity.
    + split.
      * intros ->. destruct (IHf eq_refl) as [-> Hn]. split.
        -- cbn. by rewrite En, orb_true_r.
        -- intros nm' c' Hin Hn'. apply elem_of_cons in Hin as [[= -> ->]|Hin]; [done|].
           by apply (Hn nm').
      * intros ->. destruct (IHt eq_refl) as (pre & nm' & c' & post & -> & Hn' & Hs & Hpre & ->).
        exists ((nm, c) :: pre), nm', c', post. split; [done|]. split; [done|].
        split; [done|]. split.
        -- intros nm'' c'' Hin Hn''. apply elem_of_cons in Hin as [[= -> ->]|Hin]; [done|].
           by apply (Hpre nm'').
        -- cbn. by rewrite En, orb_true_r.
    + split.
      * intros ->. destruct (IHf eq_refl) as [-> Hn]. split.
        -- cbn. by rewrite En, orb_false_r.
        -- intros nm' c' Hin Hn'. apply elem_of_cons in Hin as [[= -> ->]|Hin];
             [by rewrite En in Hn'|]. by apply (Hn nm').
      * intros ->. destruct (IHt eq_refl) as (pre & nm' & c' & post & -> & Hn' & Hs & Hpre & ->).
        exists ((nm, c) :: pre), nm', c', post. split; [done|]. split; [done|].
        split; [done|]. split.
        -- intros nm'' c'' Hin Hn''. apply elem_of_cons in Hin as [[= -> ->]|Hin];
             [by rewrite En in Hn''|]. by apply (Hpre nm'').
        -- cbn. by rewrite En, orb_false_r.
Qed.

Ltac elem_cases H :=
  apply list_elem_of_In in H; simpl in H;
  repeat (destruct H as [H|H]); try discriminate; try contradiction.

(** [mount_partitions]: when collecting the module files fails nothing is
    done and the call fails; when there is nothing to mount nothing is done
    and it succeeds. The engine runs exactly when the work directory is
    made, the tmpfs mounted on it and made private; it then runs on the
    collected tree at ["/"] with that work directory, the call returns the
    engine's result, and whatever that result the tmpfs is unmounted,
    the umount list committed unless disabled, and the work directory
    removed. Whenever the tmpfs mount is attempted and the private remount
    does not succeed, the call fails and no unmount is issued: a tmpfs
    mounted before a failed private remount stays mounted. *)
Theorem mount_partitions_outcome env penv tmp_path src collected du :
  let tmp_dir := join tmp_path "workdir" in
  let r := mount_partitions env penv tmp_path src collected du in
  (collected = None -> r = ([], false)) /\
  (collected = Some None -> r = ([], true)) /\
  (forall root,
     collected = Some (Some root) ->
     ((exists ev, RunMagic root ev ∈ r.1) <->
        ensure_dir_ok penv tmp_dir = true /\ mount_tmpfs_ok penv src tmp_dir = true /\
        make_private_ok penv tmp_dir = true)) /\
  (forall root ev, RunMagic root ev ∈ r.1 ->
     collected = Some (Some root) /\
     (ev, r.2) = do_magic_mount env root [] tmp_dir false /\
     r.1 = [EnsureDir tmp_dir; MountTmpfs src tmp_dir; MakePrivate tmp_dir;
            RunMagic root ev; Unmount tmp_dir] ++
           (if du then [] else [CommitUmount]) ++ [RemoveDir tmp_dir]) /\
  (MountTmpfs src tmp_dir ∈ r.1 -> make_private_ok penv tmp_dir = false ->
     r.2 = false /\ Unmount tmp_dir ∉ r.1).
Proof.
  cbv zeta. unfold mount_partitions.
  destruct collected as [[root|]|].
  2,3: split; [intros; done|]; split; [intros; done|];
       split; [intros ? ?; discriminate|];
       split; [intros ? ? H; by apply elem_of_nil in H|];
       intros H; by apply elem_of_nil in H.
  set (tmp_dir := join tmp_path "workdir").
  split; [discriminate|]. split; [discriminate|].
  destruct (ensure_dir_ok penv tmp_dir) eqn:E1;
    [destruct (mount_tmpfs_ok penv src tmp_dir) eqn:E2;
      [destruct (make_private_ok penv tmp_dir) eqn:E3|]|]; cbn [negb].
  - destruct (do_magic_mount env root [] tmp_dir false) as [ev ok] eqn:Ed. cbn [fst snd].
    split; [|split].
    + intros ? [= <-]. split; [intros _; by repeat split|]. intros _. exists ev.
      apply elem_of_app. left. apply list_elem_of_In. simpl. tauto.
    + intros root' ev' Hin. destruct du; elem_cases Hin; injection Hin as -> ->; done.
    + intros _ Hf. discriminate.
  - split; [|split].
    + intros ? [= <-]. split; [intros [ev Hin]; elem_cases Hin|].
      intros (_ & _ & ?); discriminate.
    + intros root' ev' Hin. elem_cases Hin.
    + intros _ _. split; [done|]. intros Hin. elem_cases Hin.
  - split; [|split].
    + intros ? [= <-]. split; [intros [ev Hin]; elem_cases Hin|].
      intros (_ & ? & _); discriminate.
    + intros root' ev' Hin. elem_cases Hin.
    + intros _ _. split; [done|]. intros Hin. elem_cases Hin.
  - split; [|split].
    + intros ? [= <-]. split; [intros [ev Hin]; elem_cases Hin|].
      intros (? & _ & _); discriminate.
    + intros root' ev' Hin. elem_cases Hin.
    + intros Hin. elem_cases Hin.
Qed.

End MagicExtra.

(** ** Further properties: the runtime state file *)
Module StateStoreExtra.
Import StateStore.

Lemma string_append_nil_r (s : string) : s +:+ "" = s.
Proof.
  induction s as [|a s IH]; [done|].
  change (String a (s +:+ "") = String a s). by rewrite IH.
Qed.

Lemma string_append_assoc (a b c : string) : a +:+ (b +:+ c) = (a +:+ b) +:+ c.
Proof.
  induction a as [|x a IH]; [done|].
  change (String x (a +:+ (b +:+ c)) = String x ((a +:+ b) +:+ c)). by rewrite IH.
Qed.

Lemma write_chunks_final (fs : Files) p pre chunks :
  fs !! p = Some pre ->
  let fs' := foldl apply_op fs (map (WriteChunk p) chunks) in
  fs' !! p = Some (pre +:+ foldr String.append "" chunks) /\
  forall q, q <> p -> fs' !! q = fs !! q.
Proof.
  revert fs pre. induction chunks as [|c chunks IH]; intros fs pre Hp; cbn [foldl map apply_op foldr].
  - rewrite string_append_nil_r. by split.
  - destruct (IH (<[p := default "" (fs !! p) +:+ c]> fs) (pre +:+ c)) as [H1 H2].
    + rewrite Hp. cbn [default]. apply lookup_insert_eq.
    + split.
      * rewrite H1. by rewrite string_append_assoc.
      * intros q Hq. rewrite H2 by done. apply lookup_insert_ne. congruence.
Qed.

(** [save] run to completion: the state file holds exactly the JSON text
    (the written chunks in order), whatever it held before or whether it
    existed, and no other file changes. *)
Theorem save_final_contents (fs : Files) state_file json_chunks :
  let fs' := foldl apply_op fs (save state_file json_chunks) in
  fs' !! state_file = Some (foldr String.append "" json_chunks) /\
  forall q, q <> state_file -> fs' !! q = fs !! q.
Proof.
  cbv zeta. unfold save, fs_write. cbn [foldl].
  destruct (write_chunks_final (apply_op fs (Create state_file)) state_file ""
              json_chunks) as [H1 H2].
  - cbn [apply_op]. apply lookup_insert_eq.
  - split; [exact H1|]. intros q Hq. rewrite H2 by done. cbn [apply_op].
    apply lookup_insert_ne. congruence.
Qed.

End StateStoreExtra.
